(** * Conversation state machine, progress reporting and throttling of the
      WhatsApp media bot: a shallow embedding of the JavaScript sources
      (bot.js, features/progress.js, features/performance.js,
      features/youtube.js, features/music.js, features/anime.js) and the
      properties the specification states about them. *)

From Stdlib Require Import ZArith QArith Qabs Lia String Ascii.
From stdpp Require Import base option list gmap sorting.

Local Open Scope Z_scope.

(** ** JavaScript strings and the string primitives the bot uses *)

Module Js.

(** A JavaScript string is a sequence of UTF-16 code units. *)
Definition jsstring := list Z.

(** A source literal (ASCII only) as a JavaScript string. *)
Definition lit (s : string) : jsstring :=
  map (fun a => Z.of_N (N_of_ascii a)) (list_ascii_of_string s).

(** [\d] of a regular expression without the [u] flag: 0-9. *)
Definition isDigit (c : Z) : bool := (48 <=? c) && (c <=? 57).

(** [\s], and the characters removed by [trim] and skipped by [parseInt]:
    ECMAScript WhiteSpace and LineTerminator. *)
Definition isSpace (c : Z) : bool :=
  ((9 <=? c) && (c <=? 13)) || (c =? 32) || (c =? 160) || (c =? 5760)
  || ((8192 <=? c) && (c <=? 8202)) || (c =? 8232) || (c =? 8233)
  || (c =? 8239) || (c =? 8287) || (c =? 12288) || (c =? 65279).

Definition digitValue (c : Z) : Z := c - 48.

Fixpoint eqb (a b : jsstring) : bool :=
  match a, b with
  | [], [] => true
  | x :: a', y :: b' => (x =? y) && eqb a' b'
  | _, _ => false
  end.

(** [s.startsWith(p)] *)
Fixpoint startsWith (p s : jsstring) : bool :=
  match p, s with
  | [], _ => true
  | x :: p', y :: s' => (x =? y) && startsWith p' s'
  | _ :: _, [] => false
  end.

(** [s.includes(sub)] *)
Fixpoint includes (sub s : jsstring) : bool :=
  startsWith sub s ||
  match s with
  | [] => false
  | _ :: s' => includes sub s'
  end.

(** The longest prefix whose characters satisfy [p], and the rest. *)
Fixpoint span (p : Z -> bool) (s : jsstring) : jsstring * jsstring :=
  match s with
  | [] => ([], [])
  | c :: s' =>
      if p c then let '(a, b) := span p s' in (c :: a, b) else ([], s)
  end.

Definition trimStart (s : jsstring) : jsstring := snd (span isSpace s).
Definition trimEnd (s : jsstring) : jsstring := rev (trimStart (rev s)).

(** [s.trim()] *)
Definition trim (s : jsstring) : jsstring := trimEnd (trimStart s).

(** [s.split(/\s+/)]: the pieces between maximal runs of white space; a
    leading or trailing run leaves an empty piece at that end. *)
Fixpoint split_ws_from (in_ws : bool) (cur : jsstring) (s : jsstring)
  : list jsstring :=
  match s with
  | [] => [rev cur]
  | c :: s' =>
      if isSpace c
      then if in_ws then split_ws_from true cur s'
           else rev cur :: split_ws_from true [] s'
      else split_ws_from false (c :: cur) s'
  end.

Definition split_ws (s : jsstring) : list jsstring := split_ws_from false [] s.

(** [s.split(sep)] for a separator of one code unit. *)
Fixpoint split_char_from (sep : Z) (cur : jsstring) (s : jsstring)
  : list jsstring :=
  match s with
  | [] => [rev cur]
  | c :: s' =>
      if c =? sep then rev cur :: split_char_from sep [] s'
      else split_char_from sep (c :: cur) s'
  end.

Definition split_char (sep : Z) (s : jsstring) : list jsstring :=
  split_char_from sep [] s.

(** The value of a run of decimal digits, most significant first. *)
Definition decimal (ds : jsstring) : Z :=
  fold_left (fun acc c => 10 * acc + digitValue c) ds 0.

Definition isHexDigit (c : Z) : bool :=
  isDigit c || ((65 <=? c) && (c <=? 70)) || ((97 <=? c) && (c <=? 102)).

Definition hexValue (c : Z) : Z :=
  if isDigit c then c - 48 else if c <=? 70 then c - 55 else c - 87.

Definition hexadecimal (ds : jsstring) : Z :=
  fold_left (fun acc c => 16 * acc + hexValue c) ds 0.

(** [Number.parseInt(s)] with no radix argument.  [None] is NaN.  The
    result is the exact integer: a JavaScript number holds it exactly
    below 2^53, and rounds it monotonically above, which no comparison or
    [Math.min] against a small integer in this program can observe.  Where
    the number itself is handed on, or a loop counts up from it, the
    statements bound it by 2^53. *)
Definition parseInt (s : jsstring) : option Z :=
  let s1 := trimStart s in
  let '(sign, s2) :=
    match s1 with
    | c :: r => if c =? 45 then (-1, r)
                else if c =? 43 then (1, r) else (1, s1)
    | [] => (1, s1)
    end in
  let '(hex, s3) :=
    match s2 with
    | c0 :: c1 :: r =>
        if (c0 =? 48) && ((c1 =? 120) || (c1 =? 88)) then (true, r)
        else (false, s2)
    | _ => (false, s2)
    end in
  if hex
  then match fst (span isHexDigit s3) with
       | [] => None
       | ds => Some (sign * hexadecimal ds)
       end
  else match fst (span isDigit s3) with
       | [] => None
       | ds => Some (sign * decimal ds)
       end.

(** [Number.parseFloat(s)] on a string that starts with digits, an optional
    point and digits: the only call site passes the captured group of the
    percentage pattern (digits, an optional point, digits).  Percentages
    are kept as exact rationals; the rounding of the decimal to the nearest
    double is not modelled, nor that of the difference of two
    percentages: 16.4 - 15.4 is 1 here and just below 1 in the code. *)
Definition parseFloat (s : jsstring) : option Q :=
  let '(ip, r) := span isDigit s in
  match ip with
  | [] => None
  | _ =>
      match r with
      | 46 :: r' =>
          let fp := fst (span isDigit r') in
          let scale := Z.pow 10 (Z.of_nat (length fp)) in
          Some (Qmake (decimal ip * scale + decimal fp) (Z.to_pos scale))
      | _ => Some (inject_Z (decimal ip))
      end
  end.

(** The first suffix of [s], scanning from the left, at which [m] matches:
    where an unanchored regular expression finds its match. *)
Fixpoint search {A} (m : jsstring -> option A) (s : jsstring) : option A :=
  match m s with
  | Some a => Some a
  | None =>
      match s with
      | [] => None
      | _ :: s' => search m s'
      end
  end.

(** [n.toString()] for an integer, and [padStart(2, "0")]. *)
Fixpoint digits_of (fuel : nat) (n : Z) (acc : jsstring) : jsstring :=
  match fuel with
  | O => acc
  | S f =>
      let acc' := (48 + n mod 10) :: acc in
      if n / 10 =? 0 then acc' else digits_of f (n / 10) acc'
  end.

Definition toString (n : Z) : jsstring :=
  if n <? 0 then 45 :: digits_of (S (Z.to_nat (Z.log2 (- n)))) (- n) []
  else digits_of (S (Z.to_nat (Z.log2 n))) n [].

Definition padStart2 (s : jsstring) : jsstring :=
  match s with
  | [] => [48; 48]
  | [c] => [48; c]
  | _ => s
  end.

(** *** The patterns of the progress parsers

    Each pattern is a sequence of character classes in which a class never
    overlaps what is allowed to follow it, so the longest run is the only
    way to match and the backtracking of the regular expression engine
    finds the same captured group. *)

Definition isSizeChar (c : Z) : bool := isDigit c || (c =? 46).
Definition isUnitPrefix (c : Z) : bool :=
  (c =? 75) || (c =? 77) || (c =? 71) || (c =? 84).
Definition isEtaChar (c : Z) : bool := isDigit c || (c =? 58).

(** An optional unit prefix out of K, M, G, T. *)
Definition unit_prefix (s : jsstring) : jsstring * jsstring :=
  match s with
  | c :: r => if isUnitPrefix c then ([c], r) else ([], s)
  | [] => ([], s)
  end.

(** A literal at the head of [s]; the rest follows it. *)
Definition literal (l s : jsstring) : option jsstring :=
  if startsWith l s then Some (drop (length l) s) else None.

(** At least one white space; the rest follows the run. *)
Definition spaces1 (s : jsstring) : option jsstring :=
  match span isSpace s with
  | ([], _) => None
  | (_, r) => Some r
  end.

(** digits, an optional point, digits: the number and the rest. *)
Definition number_at (s : jsstring) : option (jsstring * jsstring) :=
  match span isDigit s with
  | ([], _) => None
  | (ip, 46 :: r) => let '(fp, r') := span isDigit r in Some (ip ++ 46 :: fp, r')
  | (ip, r) => Some (ip, r)
  end.

(** The group of the percentage pattern: a number followed by [%]. *)
Definition percent_at (s : jsstring) : option jsstring :=
  match number_at s with
  | Some (n, 37 :: _) => Some n
  | _ => None
  end.

Definition percentMatch (line : jsstring) : option jsstring :=
  search percent_at line.

(** A run of digits and points, an optional unit prefix, [iB]. *)
Definition size_at (s : jsstring) : option (jsstring * jsstring) :=
  match span isSizeChar s with
  | ([], _) => None
  | (n, r) =>
      let '(u, r1) := unit_prefix r in
      match literal (lit "iB") r1 with
      | Some r2 => Some (n ++ u ++ lit "iB", r2)
      | None => None
      end
  end.

(** The group of the total-size pattern: [of], white space, a size. *)
Definition sizeMatch (line : jsstring) : option jsstring :=
  search (fun s =>
    match literal (lit "of") s with
    | Some r =>
        match spaces1 r with
        | Some r1 => option_map fst (size_at r1)
        | None => None
        end
    | None => None
    end) line.

(** The group of the downloaded-size pattern: a number, an optional unit
    prefix and [iB], followed by white space and [of]. *)
Definition downloadedMatch (line : jsstring) : option jsstring :=
  search (fun s =>
    match number_at s with
    | Some (n, r) =>
        let '(u, r1) := unit_prefix r in
        match literal (lit "iB") r1 with
        | Some r2 =>
            match spaces1 r2 with
            | Some r3 => if startsWith (lit "of") r3
                         then Some (n ++ u ++ lit "iB") else None
            | None => None
            end
        | None => None
        end
    | None => None
    end) line.

(** The group of the speed pattern: [at], white space, a size, [/s]. *)
Definition speedMatch (line : jsstring) : option jsstring :=
  search (fun s =>
    match literal (lit "at") s with
    | Some r =>
        match spaces1 r with
        | Some r1 =>
            match size_at r1 with
            | Some (tok, r2) => if startsWith (lit "/s") r2
                                then Some (tok ++ lit "/s") else None
            | None => None
            end
        | None => None
        end
    | None => None
    end) line.

(** The group of the ETA pattern: [ETA], white space, digits and colons. *)
Definition etaMatch (line : jsstring) : option jsstring :=
  search (fun s =>
    match literal (lit "ETA") s with
    | Some r =>
        match spaces1 r with
        | Some r1 =>
            match span isEtaChar r1 with
            | ([], _) => None
            | (e, _) => Some e
            end
        | None => None
        end
    | None => None
    end) line.

(** [m ? m[1] : ""] *)
Definition group_or_empty (m : option jsstring) : jsstring :=
  match m with Some g => g | None => [] end.

(** A string in a condition: the empty string is falsy. *)
Definition truthy (s : jsstring) : bool :=
  match s with [] => false | _ => true end.

(** The elapsed-time label of the parsers: [mm:ss] from two instants in
    milliseconds. *)
Definition time_elapsed_label (now startTime : Z) : jsstring :=
  let elapsed_seconds := (now - startTime) / 1000 in
  let minutes := elapsed_seconds / 60 in
  let seconds := Z.rem elapsed_seconds 60 in
  padStart2 (toString minutes) ++ lit ":" ++ padStart2 (toString seconds).

End Js.

Abbreviation jsstring := Js.jsstring.

(** ** Episode selection (features/anime.js) *)

Module Anime.

Record episode := { number : Z; url : jsstring }.

Inductive selection_error :=
| InvalidRangeFormat
| NoEpisodesInRange (start end_ : Z)
| EpisodeNotAvailable (episodeNumber : option Z).

(** The object [parseEpisodeSelection] returns: [{valid: false, error}] or
    [{valid: true, isRange, episodes, originalRange}]. *)
Inductive selection_result :=
| Invalid (error : selection_error)
| Valid (isRange : bool) (episodes : list Z) (originalRange : option (Z * Z)).

Definition valid (r : selection_result) : bool :=
  match r with Valid _ _ _ => true | Invalid _ => false end.

(** [for (let i = start; i <= end; i++) if (episodeNumbers.includes(i))
    requestedEpisodes.push(i)], run for the [n] values of [i] that remain.
    The recursion always ends; the loop of the code does for bounds below
    2^53, where [i++] is exact, and from 2^53 on [i] no longer advances. *)
Fixpoint collect_range (n : nat) (i : Z) (episodeNumbers : list Z)
    (requestedEpisodes : list Z) : list Z :=
  match n with
  | O => requestedEpisodes
  | S n' =>
      collect_range n' (i + 1) episodeNumbers
        (if bool_decide (i ∈ episodeNumbers)
         then requestedEpisodes ++ [i] else requestedEpisodes)
  end.

Definition parseEpisodeSelection (selection : jsstring)
    (availableEpisodes : list episode) : selection_result :=
  let episodeNumbers := map number availableEpisodes in
  if Js.includes (Js.lit "-") selection then
    match map (fun num => Js.parseInt (Js.trim num))
              (Js.split_char 45 selection) with
    | Some start :: Some end_ :: _ =>
        if start >? end_ then Invalid InvalidRangeFormat
        else
          let requestedEpisodes :=
            collect_range (Z.to_nat (end_ + 1 - start)) start episodeNumbers [] in
          if (length requestedEpisodes =? 0)%nat
          then Invalid (NoEpisodesInRange start end_)
          else Valid true requestedEpisodes (Some (start, end_))
    | _ => Invalid InvalidRangeFormat
    end
  else
    match Js.parseInt (Js.trim selection) with
    | Some episodeNumber =>
        if bool_decide (episodeNumber ∈ episodeNumbers)
        then Valid false [episodeNumber] None
        else Invalid (EpisodeNotAvailable (Some episodeNumber))
    | None => Invalid (EpisodeNotAvailable None)
    end.

End Anime.

(** ** Asynchronous code as state passing with exceptions *)

(** An [async] function is run to completion as one computation over an
    explicit state; a rejected promise is a thrown exception.  Interleaving
    at [await] is modelled only where a property depends on it (the
    throttle, below). *)

Inductive exn :=
| TransportError
| JsError (message : jsstring).

(** How an awaited promise ends: with a value, with an exception, or
    never. *)
Inductive result (A : Type) :=
| Ok (a : A)
| Throw (e : exn)
| Pending.
Arguments Ok {A} a.
Arguments Throw {A} e.
Arguments Pending {A}.

Definition M (S A : Type) : Type := S -> result A * S.

Definition ret {S A} (a : A) : M S A := fun s => (Ok a, s).

Definition bind {S A B} (m : M S A) (k : A -> M S B) : M S B :=
  fun s => match m s with
           | (Ok a, s') => k a s'
           | (Throw e, s') => (Throw e, s')
           | (Pending, s') => (Pending, s')
           end.

Definition throw {S A} (e : exn) : M S A := fun s => (Throw e, s).

(** [try { body } catch (error) { handler }] *)
Definition try_catch {S A} (body : M S A) (handler : exn -> M S A) : M S A :=
  fun s => match body s with
           | (Ok a, s') => (Ok a, s')
           | (Throw e, s') => handler e s'
           | (Pending, s') => (Pending, s')
           end.

(** A promise that never settles. *)
Definition never {S A} : M S A := fun s => (Pending, s).

Definition gets {S A} (f : S -> A) : M S A := fun s => (Ok (f s), s).
Definition modify {S} (f : S -> S) : M S unit := fun s => (Ok tt, f s).

(** A method of an object of type [T] runs over the object and the world:
    [onWorld] is a computation that only touches the world, [this] reads
    the object and [set_this] assigns its fields. *)
Definition onWorld {T W A} (m : M W A) : M (T * W) A :=
  fun s => let '(r, w') := m (snd s) in (r, (fst s, w')).

Definition this {T W} : M (T * W) T := gets fst.

Definition set_this {T W} (f : T -> T) : M (T * W) unit :=
  modify (fun s => (f (fst s), snd s)).

(** A method called on the object [t], which is dropped afterwards. *)
Definition withObject {T W A} (t : T) (m : M (T * W) A) : M W A :=
  fun w => let '(r, s') := m (t, w) in (r, snd s').

Notation "x <- m ;; k" := (bind m (fun x => k))
  (at level 100, m at next level, right associativity).
Notation "m ;;; k" := (bind m (fun _ => k))
  (at level 100, right associativity).

(** ** Messages and the transport *)

(** A search result object (a video or a channel).  The statistics fields
    only feed the text of the result cards, which is kept symbolic. *)
Record item := {
  id : jsstring;
  title : jsstring;
  thumbnail : jsstring;
  url : jsstring;
  channelTitle : jsstring
}.

(** The object that carries one progress sample. *)
Record sample := {
  progress : Q;
  total_size : jsstring;
  downloaded_size : jsstring;
  speed : jsstring;
  eta : jsstring;
  time_elapsed : jsstring
}.

Abbreviation msgkey := nat.

(** The texts the modelled functions send, each named after the template
    literal it stands for, with the values interpolated into it. *)
Inductive text :=
| TStarting (itemType : jsstring) (totalItems : Z)
| TDownloading (isYouTube : bool) (currentItem : option jsstring)
    (data : sample)
| TDownloadComplete (completed totalItems elapsed failed : Z)
| TProcessing (itemType : jsstring) (data : sample)
| TCompleted (completed totalItems elapsed failed : Z)
| TFoundVideos (n : nat)
| TLatestVideos (n : nat) (channelTitle : jsstring)
| TVideoCard (i : nat) (video : item)
| TQualityInstructions (n : nat)
| TErrorDisplayingVideos
| TErrorDisplayingChannelVideos
| TNoSearchResults
| TInvalidFormat
| TInvalidVideoNumber (n : nat)
| TInvalidQuality
| TNoChannelResults
| TInvalidChannelNumber (n : nat)
| TGettingLatest (videoCount : option Z) (channelTitle : jsstring)
| TFailedToGetVideos (channelTitle : jsstring)
| TFailedChannelVideos
| TDownloadCompleted (filename : jsstring)
| TVideoCaption (video : item)
| TVideoSent
| TDownloadFailed
| TDownloadError
| TFileBrowserCancelled
| TDefaultAutoReply.

Inductive content :=
| Text (t : text)
| Image (image : jsstring) (caption : text)
| Document (path fileName : jsstring) (caption : text)
| Delete (key : msgkey).

Inductive console_entry :=
| ProgressUpdateFailed (e : exn)
| ErrorSendingVideoResults (e : exn)
| ErrorSendingChannelVideos (e : exn)
| ErrorInDownloadAndSendVideo (e : exn)
| ChannelVideosFetchError (e : exn)
| ErrorProcessingMessage (e : exn)
| ProgressParsingError (e : exn).

(** Calls that leave the process: the YouTube API, yt-dlp, image
    downloads.  The world records them in the order they are made. *)
Inductive call :=
| GetChannelLatestVideos (channelId : jsstring) (maxResults : option Z)
| DownloadYouTubeVideo (videoUrl quality : jsstring)
| DownloadImage (imageUrl : jsstring)
| AddSavedChat (remoteJid : jsstring).

(** One conversation state object, as [userStates.set] stores it. *)
Record userState := {
  state : jsstring;
  searchResults : option (list item);
  channelVideos : option (list item);
  selectedChannel : option item
}.

(** The socket, the console and the module-level stores.  [delivered]
    lists what the transport accepted, oldest first; [live] holds the keys
    of delivered messages that have not been deleted.  [send_faults] and
    [delete_faults] script the transport: the head of the list tells
    whether the next send (or delete) throws; an empty script is a
    transport that works. *)
Record world := {
  delivered : list (jsstring * content * msgkey);
  live : list msgkey;
  next_key : msgkey;
  send_faults : list bool;
  delete_faults : list bool;
  console : list console_entry;
  calls : list call;
  userStates : gmap jsstring userState;
  activeDownloads : list (jsstring * Z)
}.

Definition set_transport (w : world) d l k sf df : world :=
  {| delivered := d; live := l; next_key := k; send_faults := sf;
     delete_faults := df; console := console w; calls := calls w;
     userStates := userStates w; activeDownloads := activeDownloads w |}.

Definition set_userStates (f : gmap jsstring userState -> gmap jsstring userState)
    (w : world) : world :=
  {| delivered := delivered w; live := live w; next_key := next_key w;
     send_faults := send_faults w; delete_faults := delete_faults w;
     console := console w; calls := calls w;
     userStates := f (userStates w); activeDownloads := activeDownloads w |}.

Definition set_activeDownloads (f : list (jsstring * Z) -> list (jsstring * Z))
    (w : world) : world :=
  {| delivered := delivered w; live := live w; next_key := next_key w;
     send_faults := send_faults w; delete_faults := delete_faults w;
     console := console w; calls := calls w;
     userStates := userStates w; activeDownloads := f (activeDownloads w) |}.

Definition console_log (e : console_entry) : M world unit :=
  modify (fun w =>
    {| delivered := delivered w; live := live w; next_key := next_key w;
       send_faults := send_faults w; delete_faults := delete_faults w;
       console := console w ++ [e]; calls := calls w;
       userStates := userStates w; activeDownloads := activeDownloads w |}).

Definition record_call (c : call) : M world unit :=
  modify (fun w =>
    {| delivered := delivered w; live := live w; next_key := next_key w;
       send_faults := send_faults w; delete_faults := delete_faults w;
       console := console w; calls := calls w ++ [c];
       userStates := userStates w; activeDownloads := activeDownloads w |}).

(** [sock.sendMessage(remoteJid, content)].  A delete removes the key from
    the live messages; anything else is delivered under a fresh key, which
    is returned (the [key] of the message object). *)
Definition sendMessage (remoteJid : jsstring) (c : content) : M world msgkey :=
  fun w =>
    match c with
    | Delete k =>
        match delete_faults w with
        | true :: df =>
            (Throw TransportError,
             set_transport w (delivered w) (live w) (next_key w)
               (send_faults w) df)
        | df =>
            (Ok (next_key w),
             set_transport w (delivered w)
               (filter (fun k' => k' <> k) (live w)) (S (next_key w))
               (send_faults w) (tail df))
        end
    | _ =>
        match send_faults w with
        | true :: sf =>
            (Throw TransportError,
             set_transport w (delivered w) (live w) (next_key w)
               sf (delete_faults w))
        | sf =>
            (Ok (next_key w),
             set_transport w (delivered w ++ [(remoteJid, c, next_key w)])
               (live w ++ [next_key w]) (S (next_key w))
               (tail sf) (delete_faults w))
        end
    end.

(** [sock.sendPresenceUpdate(state, remoteJid)]: delivers nothing, but can
    throw like a send. *)
Definition sendPresenceUpdate : M world unit :=
  fun w =>
    match send_faults w with
    | true :: sf =>
        (Throw TransportError,
         set_transport w (delivered w) (live w) (next_key w)
           sf (delete_faults w))
    | sf =>
        (Ok tt,
         set_transport w (delivered w) (live w) (next_key w)
           (tail sf) (delete_faults w))
    end.

(** A world with a working transport and empty stores. *)
Definition quiet : world :=
  {| delivered := []; live := []; next_key := O; send_faults := [];
     delete_faults := []; console := []; calls := [];
     userStates := ∅; activeDownloads := [] |}.

Definition isSome {A} (o : option A) : bool :=
  match o with Some _ => true | None => false end.

(** Comparisons of percentages. *)
Definition Qltb (a b : Q) : bool := negb (Qle_bool b a).
Definition Qgeb (a b : Q) : bool := Qle_bool b a.

Definition emptyProgress : sample :=
  {| progress := 0; total_size := []; downloaded_size := []; speed := [];
     eta := []; time_elapsed := [] |}.

(** ** The standard progress tracker (features/progress.js) *)

Module Progress.

Record ProgressTracker := {
  remoteJid : jsstring;
  totalItems : Z;
  itemType : jsstring;
  completed : Z;
  failed : Z;
  currentItem : option jsstring;
  startTime : Z;
  progressInterval : bool;
  lastUpdate : Z;
  sessionId : jsstring * Z;
  currentSessionId : option jsstring;
  lastProgressMessage : option text;
  lastProgressMessageId : option msgkey;
  lastProgressPercentage : Q;
  isYouTube : bool;
  youtubeProgress : sample
}.

(** [new ProgressTracker(sock, remoteJid, totalItems, itemType)] at the
    instant [now]. *)
Definition new (remoteJid : jsstring) (totalItems : Z) (itemType : jsstring)
    (now : Z) : ProgressTracker :=
  {| remoteJid := remoteJid; totalItems := totalItems; itemType := itemType;
     completed := 0; failed := 0; currentItem := None; startTime := now;
     progressInterval := false; lastUpdate := 0;
     sessionId := (remoteJid, now); currentSessionId := None;
     lastProgressMessage := None; lastProgressMessageId := None;
     lastProgressPercentage := 0; isYouTube := false;
     youtubeProgress := emptyProgress |}.

Definition with_item (itemName : jsstring) (sid : option jsstring)
    (t : ProgressTracker) : ProgressTracker :=
  {| remoteJid := remoteJid t; totalItems := totalItems t;
     itemType := itemType t; completed := completed t; failed := failed t;
     currentItem := Some itemName; startTime := startTime t;
     progressInterval := progressInterval t; lastUpdate := lastUpdate t;
     sessionId := sessionId t; currentSessionId := sid;
     lastProgressMessage := lastProgressMessage t;
     lastProgressMessageId := lastProgressMessageId t;
     lastProgressPercentage := lastProgressPercentage t;
     isYouTube := isYouTube t; youtubeProgress := youtubeProgress t |}.

Definition with_counts (c f : Z) (t : ProgressTracker) : ProgressTracker :=
  {| remoteJid := remoteJid t; totalItems := totalItems t;
     itemType := itemType t; completed := c; failed := f;
     currentItem := currentItem t; startTime := startTime t;
     progressInterval := progressInterval t; lastUpdate := lastUpdate t;
     sessionId := sessionId t; currentSessionId := currentSessionId t;
     lastProgressMessage := lastProgressMessage t;
     lastProgressMessageId := lastProgressMessageId t;
     lastProgressPercentage := lastProgressPercentage t;
     isYouTube := isYouTube t; youtubeProgress := youtubeProgress t |}.

Definition with_interval (b : bool) (t : ProgressTracker) : ProgressTracker :=
  {| remoteJid := remoteJid t; totalItems := totalItems t;
     itemType := itemType t; completed := completed t; failed := failed t;
     currentItem := currentItem t; startTime := startTime t;
     progressInterval := b; lastUpdate := lastUpdate t;
     sessionId := sessionId t; currentSessionId := currentSessionId t;
     lastProgressMessage := lastProgressMessage t;
     lastProgressMessageId := lastProgressMessageId t;
     lastProgressPercentage := lastProgressPercentage t;
     isYouTube := isYouTube t; youtubeProgress := youtubeProgress t |}.

Definition with_lastUpdate (now : Z) (t : ProgressTracker) : ProgressTracker :=
  {| remoteJid := remoteJid t; totalItems := totalItems t;
     itemType := itemType t; completed := completed t; failed := failed t;
     currentItem := currentItem t; startTime := startTime t;
     progressInterval := progressInterval t; lastUpdate := now;
     sessionId := sessionId t; currentSessionId := currentSessionId t;
     lastProgressMessage := lastProgressMessage t;
     lastProgressMessageId := lastProgressMessageId t;
     lastProgressPercentage := lastProgressPercentage t;
     isYouTube := isYouTube t; youtubeProgress := youtubeProgress t |}.

Definition with_sent (key : msgkey) (progressText : text) (pct : Q)
    (t : ProgressTracker) : ProgressTracker :=
  {| remoteJid := remoteJid t; totalItems := totalItems t;
     itemType := itemType t; completed := completed t; failed := failed t;
     currentItem := currentItem t; startTime := startTime t;
     progressInterval := progressInterval t; lastUpdate := lastUpdate t;
     sessionId := sessionId t; currentSessionId := currentSessionId t;
     lastProgressMessage := Some progressText;
     lastProgressMessageId := Some key;
     lastProgressPercentage := pct;
     isYouTube := isYouTube t; youtubeProgress := youtubeProgress t |}.

(** [updateYouTubeProgress(progressData)].  Every caller passes an object
    with all six fields, so the spread leaves none of the old ones. *)
Definition updateYouTubeProgress (data : sample) (t : ProgressTracker)
  : ProgressTracker :=
  {| remoteJid := remoteJid t; totalItems := totalItems t;
     itemType := itemType t; completed := completed t; failed := failed t;
     currentItem := currentItem t; startTime := startTime t;
     progressInterval := progressInterval t; lastUpdate := lastUpdate t;
     sessionId := sessionId t; currentSessionId := currentSessionId t;
     lastProgressMessage := lastProgressMessage t;
     lastProgressMessageId := lastProgressMessageId t;
     lastProgressPercentage := lastProgressPercentage t;
     isYouTube := true; youtubeProgress := data |}.

Abbreviation method A := (M (ProgressTracker * world) A).

(** [getPythonProgress(sessionId)]: the entry of the progress file, which
    another process writes; [None] when the file is missing, unreadable or
    has no such entry.  [progressFile] is the content at the time of the
    call. *)
Definition getPythonProgress
    (progressFile : option (gmap jsstring sample))
    (sessionId : jsstring) : option sample :=
  match progressFile with
  | Some entries => entries !! sessionId
  | None => None
  end.

(** The sample [sendProgressUpdate] works from: the one the parser stored
    for a YouTube download, else the entry of the current session in the
    progress file, else [null]. *)
Definition currentSample (progressFile : option (gmap jsstring sample))
    (t : ProgressTracker) : option sample :=
  if isYouTube t then Some (youtubeProgress t)
  else match currentSessionId t with
       | Some sid => getPythonProgress progressFile sid
       | None => None
       end.

(** [sendProgressUpdate()] as a call that nothing interrupts: no other
    call touches the tracker between its awaits.  [Overlap] cuts it at
    them. *)
Definition sendProgressUpdate
    (progressFile : option (gmap jsstring sample)) : method unit :=
  try_catch
    (t <- this ;;
     let progressData := currentSample progressFile t in
     match progressData with
     | None => ret tt
     | Some data =>
         if Qeq_bool (progress data) 0 then ret tt
         else if isSome (lastProgressMessage t)
                 && Qltb (Qabs (progress data - lastProgressPercentage t)) 1
         then ret tt
         else
           let progressText := TDownloading (isYouTube t) (currentItem t) data in
           (match lastProgressMessageId t with
            | Some key =>
                try_catch
                  (_ <- onWorld (sendMessage (remoteJid t) (Delete key)) ;; ret tt)
                  (fun _ => ret tt)
            | None => ret tt
            end) ;;;
           sentKey <- onWorld (sendMessage (remoteJid t) (Text progressText)) ;;
           set_this (with_sent sentKey progressText (progress data))
     end)
    (fun error => onWorld (console_log (ProgressUpdateFailed error))).

(** [checkAndSendProgressUpdate(force)], likewise without interruption
    between the test of the timer and the write of [lastUpdate]. *)
Definition checkAndSendProgressUpdate (force : bool) (now : Z)
    (progressFile : option (gmap jsstring sample)) : method unit :=
  t <- this ;;
  if force || (now - lastUpdate t >=? 5000)
  then sendProgressUpdate progressFile ;;; set_this (with_lastUpdate now)
  else ret tt.

Definition start : method unit :=
  t <- this ;;
  _ <- onWorld (sendMessage (remoteJid t)
                  (Text (TStarting (itemType t) (totalItems t)))) ;;
  set_this (with_interval true) ;;;
  onWorld (modify (set_activeDownloads (fun ds => ds ++ [sessionId t]))).

Definition updateCurrentItem (itemName : jsstring) (sid : option jsstring)
    (now : Z) (progressFile : option (gmap jsstring sample))
  : method unit :=
  set_this (with_item itemName sid) ;;;
  checkAndSendProgressUpdate true now progressFile.

Definition itemCompleted (itemName : jsstring) (success : bool) (now : Z)
    (progressFile : option (gmap jsstring sample)) : method unit :=
  (if success
   then set_this (fun t => with_counts (completed t + 1) (failed t) t)
   else set_this (fun t => with_counts (completed t) (failed t + 1) t)) ;;;
  updateCurrentItem itemName None now progressFile.

Definition finish (now : Z) : method unit :=
  set_this (with_interval false) ;;;
  t <- this ;;
  onWorld (modify (set_activeDownloads
                     (filter (fun sid => sid <> sessionId t)))) ;;;
  (match lastProgressMessageId t with
   | Some key =>
       try_catch
         (_ <- onWorld (sendMessage (remoteJid t) (Delete key)) ;; ret tt)
         (fun _ => ret tt)
   | None => ret tt
   end) ;;;
  let elapsed := (now - startTime t) / 1000 in
  _ <- onWorld (sendMessage (remoteJid t)
                  (Text (TDownloadComplete (completed t) (totalItems t)
                           elapsed (failed t)))) ;;
  ret tt.

(** [parseYouTubeProgress(line, progressTracker)] of progress.js.  It only
    reads the line and writes the tracker; nothing in its [try] block can
    throw on a string and a tracker, so the [catch] is never entered. *)
Definition parseYouTubeProgress (now : Z) (line : jsstring)
    (progressTracker : ProgressTracker) : ProgressTracker :=
  if Js.includes (Js.lit "[download]") line && Js.includes (Js.lit "%") line
  then
    if Js.includes (Js.lit "fragment") line
       || Js.includes (Js.lit "audio only") line
    then progressTracker
    else
      match Js.percentMatch line with
      | Some percent =>
          match Js.parseFloat percent with
          | Some parsed =>
              if Qgeb parsed 100
                 && Qgeb (progress (youtubeProgress progressTracker)) 100
              then progressTracker
              else
                let total_size := Js.group_or_empty (Js.sizeMatch line) in
                let downloaded_size :=
                  Js.group_or_empty (Js.downloadedMatch line) in
                let speed := Js.group_or_empty (Js.speedMatch line) in
                let eta := Js.group_or_empty (Js.etaMatch line) in
                let time_elapsed :=
                  Js.time_elapsed_label now (startTime progressTracker) in
                if Js.truthy total_size
                   && Qltb (progress (youtubeProgress progressTracker))
                           parsed
                then updateYouTubeProgress
                       {| progress := parsed; total_size := total_size;
                          downloaded_size := downloaded_size; speed := speed;
                          eta := eta; time_elapsed := time_elapsed |}
                       progressTracker
                else progressTracker
          | None => progressTracker
          end
      | None => progressTracker
      end
  else progressTracker.

End Progress.

(** ** The throttle and the optimized tracker (features/performance.js) *)

Module Performance.

Record PerformanceManager := {
  batchSize : Z;
  maxConcurrency : Z;
  activeOperations : Z
}.

(** [new PerformanceManager()] *)
Definition newPerformanceManager : PerformanceManager :=
  {| batchSize := 5; maxConcurrency := 10; activeOperations := 0 |}.

Definition with_active (n : Z) (m : PerformanceManager) : PerformanceManager :=
  {| batchSize := batchSize m; maxConcurrency := maxConcurrency m;
     activeOperations := n |}.

(** *** [throttleOperation] under interleaving

    Calls of [throttleOperation] run on one event loop: a call runs until
    its next [await] and only then can another one run.  A call is
    suspended either on the 10 ms timer inside the [while] loop or on
    [operation()], or it has settled. *)

Inductive outcome := Returned | Thrown.

Inductive place :=
| Sleeping
| InOperation
| Settled (o : outcome).

Record system := {
  manager : PerformanceManager;
  tasks : list place
}.

(** From the test of the [while] loop to the next [await]: either the loop
    body starts its timer, or the counter is incremented and the operation
    is started.  No [await] separates the test from the increment. *)
Definition enter (m : PerformanceManager) : PerformanceManager * place :=
  if activeOperations m >=? maxConcurrency m
  then (m, Sleeping)
  else (with_active (activeOperations m + 1) m, InOperation).

(** The [finally] block. *)
Definition leave (m : PerformanceManager) : PerformanceManager :=
  with_active (activeOperations m - 1) m.

Inductive event :=
| Call
| TimerFires (i : nat)
| OperationSettles (i : nat) (o : outcome).

Definition step (e : event) (s : system) : option system :=
  match e with
  | Call =>
      let '(m, p) := enter (manager s) in
      Some {| manager := m; tasks := tasks s ++ [p] |}
  | TimerFires i =>
      match tasks s !! i with
      | Some Sleeping =>
          let '(m, p) := enter (manager s) in
          Some {| manager := m; tasks := <[i := p]> (tasks s) |}
      | _ => None
      end
  | OperationSettles i o =>
      match tasks s !! i with
      | Some InOperation =>
          Some {| manager := leave (manager s);
                  tasks := <[i := Settled o]> (tasks s) |}
      | _ => None
      end
  end.

Fixpoint run (es : list event) (s : system) : option system :=
  match es with
  | [] => Some s
  | e :: es' =>
      match step e s with
      | Some s' => run es' s'
      | None => None
      end
  end.

Definition running (p : place) : bool :=
  match p with InOperation => true | _ => false end.

(** How many calls are inside [operation()]. *)
Definition active (s : system) : nat := length (List.filter running (tasks s)).

Definition idle (m : PerformanceManager) : system :=
  {| manager := m; tasks := [] |}.

(** *** [OptimizedProgressTracker] *)

Record OptimizedProgressTracker := {
  remoteJid : jsstring;
  totalItems : Z;
  itemType : jsstring;
  completed : Z;
  failed : Z;
  startTime : Z;
  lastUpdate : Z;
  lastProgressMessageId : option msgkey;
  updateThreshold : Z;
  progressData : sample
}.

Definition new (remoteJid : jsstring) (totalItems : Z) (itemType : jsstring)
    (now : Z) : OptimizedProgressTracker :=
  {| remoteJid := remoteJid; totalItems := totalItems; itemType := itemType;
     completed := 0; failed := 0; startTime := now; lastUpdate := 0;
     lastProgressMessageId := None; updateThreshold := 2000;
     progressData := emptyProgress |}.

Definition with_counts (c f : Z) (t : OptimizedProgressTracker)
  : OptimizedProgressTracker :=
  {| remoteJid := remoteJid t; totalItems := totalItems t;
     itemType := itemType t; completed := c; failed := f;
     startTime := startTime t; lastUpdate := lastUpdate t;
     lastProgressMessageId := lastProgressMessageId t;
     updateThreshold := updateThreshold t; progressData := progressData t |}.

Definition with_messageId (key : msgkey) (t : OptimizedProgressTracker)
  : OptimizedProgressTracker :=
  {| remoteJid := remoteJid t; totalItems := totalItems t;
     itemType := itemType t; completed := completed t; failed := failed t;
     startTime := startTime t; lastUpdate := lastUpdate t;
     lastProgressMessageId := Some key;
     updateThreshold := updateThreshold t; progressData := progressData t |}.

(** [this.progressData = { ...this.progressData, ...progressData };
    this.lastUpdate = now].  Every caller passes all six fields. *)
Definition with_progress (data : sample) (now : Z)
    (t : OptimizedProgressTracker) : OptimizedProgressTracker :=
  {| remoteJid := remoteJid t; totalItems := totalItems t;
     itemType := itemType t; completed := completed t; failed := failed t;
     startTime := startTime t; lastUpdate := now;
     lastProgressMessageId := lastProgressMessageId t;
     updateThreshold := updateThreshold t; progressData := data |}.

Abbreviation method A := (M (OptimizedProgressTracker * world) A).

Definition start : method unit :=
  t <- this ;;
  key <- onWorld (sendMessage (remoteJid t)
                    (Text (TStarting (itemType t) (totalItems t)))) ;;
  set_this (with_messageId key).

(** [formatProgressText()]: the text of the current sample. *)
Definition formatProgressText (t : OptimizedProgressTracker) : text :=
  TProcessing (itemType t) (progressData t).

Definition updateProgress (now : Z) (data : sample) : method unit :=
  t <- this ;;
  if now - lastUpdate t <? updateThreshold t then ret tt
  else
    set_this (with_progress data now) ;;;
    (match lastProgressMessageId t with
     | Some key =>
         try_catch
           (_ <- onWorld (sendMessage (remoteJid t) (Delete key)) ;; ret tt)
           (fun _ => ret tt)
     | None => ret tt
     end) ;;;
    t' <- this ;;
    let progressText := formatProgressText t' in
    key <- onWorld (sendMessage (remoteJid t) (Text progressText)) ;;
    set_this (with_messageId key).

Definition itemCompleted (success : bool) : method unit :=
  if success
  then set_this (fun t => with_counts (completed t + 1) (failed t) t)
  else set_this (fun t => with_counts (completed t) (failed t + 1) t).

Definition finish (now : Z) : method unit :=
  t <- this ;;
  (match lastProgressMessageId t with
   | Some key =>
       try_catch
         (_ <- onWorld (sendMessage (remoteJid t) (Delete key)) ;; ret tt)
         (fun _ => ret tt)
   | None => ret tt
   end) ;;;
  let elapsed := (now - startTime t) / 1000 in
  _ <- onWorld (sendMessage (remoteJid t)
                  (Text (TCompleted (completed t) (totalItems t) elapsed
                           (failed t)))) ;;
  ret tt.

End Performance.

(** ** Video search, download and selection (features/youtube.js) *)

(** What [downloadYouTubeVideo] ends with: the success object, the
    [{success: false, error}] of its [catch], or a rejection of the promise
    it returns (yt-dlp exits with a nonzero code, the output file is
    missing, or the process cannot be spawned). *)
Inductive download_result :=
| DownloadSucceeded (filename tempPath finalPath : jsstring)
| DownloadFailed (error : jsstring)
| DownloadRejected (e : exn).

(** The collaborators outside the process. *)
Record environment := {
  (** utils.js [downloadImage]: the image, or [null] when the fetch fails *)
  downloadImage : jsstring -> option jsstring;
  (** the order in which the preparations of a batch of cards settle *)
  completion : list item -> list nat;
  (** the YouTube API behind [getChannelLatestVideos]: the videos, or
      [None] for [{success: false}] *)
  channelLatestVideos : jsstring -> option Z -> option (list item);
  (** yt-dlp on a URL and a quality: its output lines with the instants
      they arrive at, the instant the process closes, and the result *)
  ytdlp : jsstring -> jsstring -> list (Z * jsstring) * Z * download_result;
  (** [Date.now()] when a download is requested *)
  clock : Z
}.

Module YouTube.

Import Performance.

(** [parseYouTubeProgress(line, progressTracker)] of youtube.js, on the
    optimized tracker.  [updateProgress] is called without [await]: its
    promise is dropped, so a rejection of it never reaches this function.
    The update is run here as if it had settled before the next line is
    handled and before the process closes. *)
Definition parseYouTubeProgress (now : Z) (line : jsstring) : method unit :=
  progressTracker <- this ;;
  if Js.includes (Js.lit "[download]") line && Js.includes (Js.lit "%") line
  then
    if Js.includes (Js.lit "fragment") line
       || Js.includes (Js.lit "audio only") line
    then ret tt
    else
      match Js.percentMatch line with
      | Some percent =>
          match Js.parseFloat percent with
          | Some parsed =>
              if Qgeb parsed 100
                 && Qgeb (progress (progressData progressTracker)) 100
              then ret tt
              else
                let total_size := Js.group_or_empty (Js.sizeMatch line) in
                let downloaded_size :=
                  Js.group_or_empty (Js.downloadedMatch line) in
                let speed := Js.group_or_empty (Js.speedMatch line) in
                let eta := Js.group_or_empty (Js.etaMatch line) in
                let time_elapsed :=
                  Js.time_elapsed_label now (startTime progressTracker) in
                if Js.truthy total_size
                   && Qltb (progress (progressData progressTracker)) parsed
                then try_catch
                       (updateProgress now
                          {| progress := parsed; total_size := total_size;
                             downloaded_size := downloaded_size;
                             speed := speed; eta := eta;
                             time_elapsed := time_elapsed |})
                       (fun _ => ret tt)
                else ret tt
          | None => ret tt
          end
      | None => ret tt
      end
  else ret tt.

(** One prepared card: what the [async] arrow of [videos.map] returns. *)
Record card := {
  index : nat;
  videoText : text;
  thumbnailBuffer : option jsstring
}.

Section Batch.

Context (E : environment).

Definition prepare (i : nat) (video : item) : card :=
  {| index := i; videoText := TVideoCard i video;
     thumbnailBuffer := downloadImage E (thumbnail video) |}.

(** [Promise.all(promises)]: the slot of a promise is filled when it
    settles, whenever that is; the array is delivered once every slot is
    filled, and never otherwise. *)
Definition settle {A} (promises : list A) (order : list nat)
  : list (option A) :=
  foldl (fun values i =>
           match promises !! i with
           | Some v => <[i := Some v]> values
           | None => values
           end)
        (replicate (length promises) None) order.

Definition promise_all {S A} (promises : list A) (order : list nat)
  : M S (list A) :=
  match mapM (fun v => v) (settle promises order) with
  | Some values => ret values
  | None => never
  end.

(** [videoData.sort((a, b) => a.index - b.index)]; the sort is stable. *)
Fixpoint insert_card (c : card) (l : list card) : list card :=
  match l with
  | [] => [c]
  | d :: l' =>
      if (index c <=? index d)%nat then c :: l else d :: insert_card c l'
  end.

Definition sort_by_index (l : list card) : list card :=
  foldr insert_card [] l.

(** The body of [for (const data of videoData)]: the card with its image
    when there is one, as text otherwise, and as text again when that send
    throws. *)
Definition send_card (remoteJid : jsstring) (data : card) : M world unit :=
  try_catch
    (match thumbnailBuffer data with
     | Some image =>
         _ <- sendMessage remoteJid (Image image (videoText data)) ;; ret tt
     | None =>
         _ <- sendMessage remoteJid (Text (videoText data)) ;; ret tt
     end)
    (fun _ => _ <- sendMessage remoteJid (Text (videoText data)) ;; ret tt).

Fixpoint send_cards (remoteJid : jsstring) (videoData : list card)
  : M world unit :=
  match videoData with
  | [] => ret tt
  | data :: rest => send_card remoteJid data ;;; send_cards remoteJid rest
  end.

Definition sendVideoSearchResults (remoteJid : jsstring) (videos : list item)
  : M world unit :=
  try_catch
    (_ <- sendMessage remoteJid (Text (TFoundVideos (length videos))) ;;
     videoData <- promise_all (imap prepare videos) (completion E videos) ;;
     send_cards remoteJid (sort_by_index videoData) ;;;
     _ <- sendMessage remoteJid (Text (TQualityInstructions (length videos))) ;;
     ret tt)
    (fun error =>
       console_log (ErrorSendingVideoResults error) ;;;
       _ <- sendMessage remoteJid (Text TErrorDisplayingVideos) ;; ret tt).

Definition sendChannelLatestVideos (remoteJid : jsstring) (videos : list item)
    (channelTitle : jsstring) (requestedCount : option Z) : M world unit :=
  try_catch
    (_ <- sendMessage remoteJid
            (Text (TLatestVideos (length videos) channelTitle)) ;;
     videoData <- promise_all (imap prepare videos) (completion E videos) ;;
     send_cards remoteJid (sort_by_index videoData) ;;;
     _ <- sendMessage remoteJid (Text (TQualityInstructions (length videos))) ;;
     ret tt)
    (fun error =>
       console_log (ErrorSendingChannelVideos error) ;;;
       _ <- sendMessage remoteJid (Text TErrorDisplayingChannelVideos) ;;
       ret tt).

End Batch.

Section Download.

Context (E : environment).

(** The [data] handlers of yt-dlp's output in [downloadYouTubeVideo], line
    by line, with the two variables they share. *)
Fixpoint feed (lines : list (Z * jsstring)) (lastProgressUpdate : Z)
    (downloadCompleted : bool) : method unit :=
  match lines with
  | [] => ret tt
  | (now, line) :: rest =>
      if Js.truthy (Js.trim line) && negb downloadCompleted
      then
        if (now - lastProgressUpdate >=? 2000)
           || Js.includes (Js.lit "[download] 100%") line
        then
          parseYouTubeProgress now line ;;;
          feed rest now
            (Js.includes (Js.lit "[download] 100%") line
             && negb (Js.includes (Js.lit "fragment") line))
        else feed rest lastProgressUpdate downloadCompleted
      else feed rest lastProgressUpdate downloadCompleted
  end.

Definition downloadYouTubeVideo (videoUrl quality : jsstring)
  : method download_result :=
  onWorld (record_call (DownloadYouTubeVideo videoUrl quality)) ;;;
  let '(lines, _, outcome) := ytdlp E videoUrl quality in
  feed lines 0 false ;;;
  match outcome with
  | DownloadRejected e => throw e
  | _ => ret outcome
  end.

(** [Promise.all([a, b])] of two sends: both are started; it rejects when
    one of them does. *)
Definition both {S} (a b : M S unit) : M S unit :=
  fun s =>
    match a s with
    | (Pending, s') => (Pending, s')
    | (ra, s') =>
        match b s' with
        | (Pending, s'') => (Pending, s'')
        | (rb, s'') =>
            match ra, rb with
            | Throw e, _ => (Throw e, s'')
            | _, Throw e => (Throw e, s'')
            | _, _ => (Ok tt, s'')
            end
        end
    end.

(** The part of [downloadAndSendVideo] that runs on the tracker. *)
Definition supervise (video : item) (quality : jsstring)
  : method download_result :=
  start ;;;
  outcome <- downloadYouTubeVideo (url video) quality ;;
  itemCompleted (match outcome with DownloadSucceeded _ _ _ => true
                                  | _ => false end) ;;;
  finish (snd (fst (ytdlp E (url video) quality))) ;;;
  ret outcome.

Definition downloadAndSendVideo (remoteJid : jsstring) (video : item)
    (quality : jsstring) : M world unit :=
  try_catch
    (sendPresenceUpdate ;;;
     outcome <- withObject (new remoteJid 1 (Js.lit "video") (clock E))
                  (supervise video quality) ;;
     (match outcome with
      | DownloadSucceeded filename tempPath finalPath =>
          both
            (_ <- sendMessage remoteJid (Text (TDownloadCompleted filename)) ;;
             ret tt)
            (_ <- sendMessage remoteJid
                    (Document finalPath filename (TVideoCaption video)) ;;
             ret tt) ;;;
          _ <- sendMessage remoteJid (Text TVideoSent) ;; ret tt
      | _ => _ <- sendMessage remoteJid (Text TDownloadFailed) ;; ret tt
      end) ;;;
     sendPresenceUpdate)
    (fun error =>
       console_log (ErrorInDownloadAndSendVideo error) ;;;
       _ <- sendMessage remoteJid (Text TDownloadError) ;;
       sendPresenceUpdate).

(** [["480", "720", "1080"].includes(quality)] *)
Definition isQuality (quality : jsstring) : bool :=
  Js.eqb quality (Js.lit "480") || Js.eqb quality (Js.lit "720")
  || Js.eqb quality (Js.lit "1080").

(** [a || b] on two optional arrays: an array, even an empty one, is
    truthy. *)
Definition or_else {A} (a b : option A) : option A :=
  match a with Some _ => a | None => b end.

(** Does a number index an array of length [n]?  [None] is NaN. *)
Definition validIndex (i : option Z) (n : nat) : bool :=
  match i with
  | Some i => negb (i <? 0) && negb (i >=? Z.of_nat n)
  | None => false
  end.

Definition handleVideoSelection (remoteJid : jsstring) (selection : jsstring)
  : M world unit :=
  userState <- gets (fun w => userStates w !! remoteJid) ;;
  match userState with
  | None => _ <- sendMessage remoteJid (Text TNoSearchResults) ;; ret tt
  | Some userState =>
      match or_else (searchResults userState) (channelVideos userState) with
      | None => _ <- sendMessage remoteJid (Text TNoSearchResults) ;; ret tt
      | Some videos =>
          match Js.split_ws (Js.trim selection) with
          | [part0; part1] =>
              let videoIndex := option_map (fun n => n - 1) (Js.parseInt part0) in
              let quality := part1 in
              if negb (validIndex videoIndex (length videos))
              then _ <- sendMessage remoteJid
                          (Text (TInvalidVideoNumber (length videos))) ;;
                   ret tt
              else if negb (isQuality quality)
              then _ <- sendMessage remoteJid (Text TInvalidQuality) ;; ret tt
              else
                match videoIndex with
                | Some i =>
                    match videos !! Z.to_nat i with
                    | Some video => downloadAndSendVideo remoteJid video quality
                    | None => ret tt
                    end
                | None => ret tt
                end
          | _ => _ <- sendMessage remoteJid (Text TInvalidFormat) ;; ret tt
          end
      end
  end.

(** [getChannelLatestVideos(channelId, maxResults)]: the request goes out,
    and every failure comes back as [{success: false}]. *)
Definition getChannelLatestVideos (channelId : jsstring)
    (maxResults : option Z) : M world (option (list item)) :=
  record_call (GetChannelLatestVideos channelId maxResults) ;;;
  ret (channelLatestVideos E channelId maxResults).

(** [parts.length > 1 ? Math.min(Number.parseInt(parts[1]), 20) : 10];
    [None] is NaN. *)
Definition videoCountOf (parts : list jsstring) : option Z :=
  match parts with
  | _ :: part1 :: _ => option_map (fun n => Z.min n 20) (Js.parseInt part1)
  | _ => Some 10
  end.

Definition with_channel_videos (remoteJid : jsstring) (videos : list item)
    (channel : item) : world -> world :=
  set_userStates
    (insert remoteJid
       {| state := Js.lit "channel_videos_results"; searchResults := None;
          channelVideos := Some videos; selectedChannel := Some channel |}).

Definition handleChannelSelection (remoteJid : jsstring) (selection : jsstring)
  : M world unit :=
  userState <- gets (fun w => userStates w !! remoteJid) ;;
  match userState with
  | None => _ <- sendMessage remoteJid (Text TNoChannelResults) ;; ret tt
  | Some userState =>
      if negb (Js.eqb (state userState) (Js.lit "channel_search_results"))
      then _ <- sendMessage remoteJid (Text TNoChannelResults) ;; ret tt
      else
        let parts := Js.split_ws (Js.trim selection) in
        let channelIndex :=
          option_map (fun n => n - 1) (Js.parseInt (hd [] parts)) in
        let videoCount := videoCountOf parts in
        match searchResults userState with
        | None => throw (JsError (Js.lit "Cannot read properties of undefined"))
        | Some channels =>
            if negb (validIndex channelIndex (length channels))
            then _ <- sendMessage remoteJid
                        (Text (TInvalidChannelNumber (length channels))) ;;
                 ret tt
            else
              match channelIndex with
              | Some i =>
                  match channels !! Z.to_nat i with
                  | Some channel =>
                      try_catch
                        (sendPresenceUpdate ;;;
                         _ <- sendMessage remoteJid
                                (Text (TGettingLatest videoCount (title channel))) ;;
                         videosResult <-
                           getChannelLatestVideos (id channel) videoCount ;;
                         (match videosResult with
                          | Some (video :: more) =>
                              modify (with_channel_videos remoteJid
                                        (video :: more) channel) ;;;
                              YouTube.sendChannelLatestVideos E remoteJid
                                (video :: more) (title channel) videoCount
                          | _ =>
                              _ <- sendMessage remoteJid
                                     (Text (TFailedToGetVideos (title channel))) ;;
                              ret tt
                          end) ;;;
                         sendPresenceUpdate)
                        (fun error =>
                           console_log (ChannelVideosFetchError error) ;;;
                           _ <- sendMessage remoteJid (Text TFailedChannelVideos) ;;
                           sendPresenceUpdate)
                  | None => ret tt
                  end
              | None => ret tt
              end
        end
  end.

End Download.

End YouTube.

(** ** The music progress parser (features/music.js) *)

Module Music.

Import Performance.

(** The object of the [ffmpeg] branch. *)
Definition converting : sample :=
  {| progress := 95; total_size := Js.lit "Converting...";
     downloaded_size := []; speed := []; eta := Js.lit "Almost done";
     time_elapsed := [] |}.

(** [if (line.includes("[ffmpeg]") && line.includes("Destination:"))
    progressTracker.updateProgress({progress: 95, ...})]; the promise of
    [updateProgress] is dropped. *)
Definition conversion_branch (now : Z) (line : jsstring) : method unit :=
  if Js.includes (Js.lit "[ffmpeg]") line
     && Js.includes (Js.lit "Destination:") line
  then try_catch (updateProgress now converting) (fun _ => ret tt)
  else ret tt.

(** [parseMusicProgress(line, progressTracker)].  The two [return]s of the
    download branch leave the function before the [ffmpeg] branch. *)
Definition parseMusicProgress (now : Z) (line : jsstring) : method unit :=
  progressTracker <- this ;;
  if Js.includes (Js.lit "[download]") line && Js.includes (Js.lit "%") line
  then
    if Js.includes (Js.lit "fragment") line
    then ret tt
    else
      match Js.percentMatch line with
      | Some percent =>
          match Js.parseFloat percent with
          | Some parsed =>
              if Qgeb parsed 100
                 && Qgeb (progress (progressData progressTracker)) 100
              then ret tt
              else
                let total_size := Js.group_or_empty (Js.sizeMatch line) in
                let downloaded_size :=
                  Js.group_or_empty (Js.downloadedMatch line) in
                let speed := Js.group_or_empty (Js.speedMatch line) in
                let eta := Js.group_or_empty (Js.etaMatch line) in
                let time_elapsed :=
                  Js.time_elapsed_label now (startTime progressTracker) in
                (if Js.truthy total_size
                    && Qltb (progress (progressData progressTracker)) parsed
                 then try_catch
                        (updateProgress now
                           {| progress := parsed; total_size := total_size;
                              downloaded_size := downloaded_size;
                              speed := speed; eta := eta;
                              time_elapsed := time_elapsed |})
                        (fun _ => ret tt)
                 else ret tt) ;;;
                conversion_branch now line
          | None => conversion_branch now line
          end
      | None => conversion_branch now line
      end
  else conversion_branch now line.

End Music.

(** ** Message dispatch (bot.js) *)

Module Bot.

(** What [messagesUpsertHandler] reads of the event [m]: whether
    [m.type] is ["notify"], whether the first message has a body, its
    [key], and the text (the conversation, else the extended text, else
    the empty string).  This is an event that has a first message, and a
    key in it; [Events] has the others. *)
Record upsert := {
  notify : bool;
  hasMessage : bool;
  fromMe : bool;
  remoteJid : jsstring;
  messageText : jsstring
}.

(** The handlers of the other feature modules, each applied to the
    conversation and the trimmed text. *)
Record handlers := {
  handleCommand : jsstring -> jsstring -> M world unit;
  handleFileSelection : jsstring -> jsstring -> M world unit;
  confirmFileDelete : jsstring -> jsstring -> M world unit;
  handleAnimeSelection : jsstring -> jsstring -> M world unit;
  handleEpisodeSelection : jsstring -> jsstring -> M world unit;
  handleQualitySelection : jsstring -> jsstring -> M world unit;
  handleAutomatedAnimeConfirmation : jsstring -> jsstring -> M world unit;
  handleMusicSelection : jsstring -> jsstring -> M world unit;
  saveCookies : jsstring -> jsstring -> M world unit
}.

(** A non-empty run of digits and what follows it. *)
Definition digits1 (s : jsstring) : option jsstring :=
  match Js.span Js.isDigit s with
  | ([], _) => None
  | (_, r) => Some r
  end.

Definition atEnd (s : jsstring) : bool :=
  match s with [] => true | _ => false end.

(** The test of the pattern: start, digits, end. *)
Definition isNumber (s : jsstring) : bool :=
  match digits1 s with
  | Some r => atEnd r
  | None => false
  end.

(** The test of the pattern: start, digits, white space, one of 480, 720
    and 1080, end. *)
Definition isVideoReply (s : jsstring) : bool :=
  match digits1 s with
  | Some r =>
      match Js.spaces1 r with
      | Some q => YouTube.isQuality q
      | None => false
      end
  | None => false
  end.

(** The test of the pattern: start, digits, optionally white space and
    digits, end. *)
Definition isChannelReply (s : jsstring) : bool :=
  match digits1 s with
  | Some [] => true
  | Some r =>
      match Js.spaces1 r with
      | Some q => isNumber q
      | None => false
      end
  | None => false
  end.

(** The test of the pattern: start, digits, a hyphen, digits, end. *)
Definition isRange (s : jsstring) : bool :=
  match digits1 s with
  | Some (45 :: q) => isNumber q
  | _ => false
  end.

(** [s.toLowerCase() === "cancel"].  No character outside A-Z has one
    of the letters of the word as its lower case. *)
Definition toLowerAscii (c : Z) : Z :=
  if (65 <=? c) && (c <=? 90) then c + 32 else c.
Definition isCancel (s : jsstring) : bool :=
  Js.eqb (map toLowerAscii s) (Js.lit "cancel").

(** [userState.state === name] *)
Definition stateIs (u : userState) (name : string) : bool :=
  Js.eqb (state u) (Js.lit name).

Section Dispatch.

Context (E : environment) (H : handlers).

(** The [switch (userState.state)] of the handler: [true] when a [case]
    returned, [false] when it fell out of the [switch] with [break] or had
    no [case]. *)
Definition dispatch (remoteJid trimmedText : jsstring) (userState : userState)
  : M world bool :=
  let named := stateIs userState in
  if named "selecting_file"%string then
    if isNumber trimmedText
    then handleFileSelection H remoteJid trimmedText ;;; ret true
    else if isCancel trimmedText
    then modify (set_userStates (delete remoteJid)) ;;;
         _ <- sendMessage remoteJid (Text TFileBrowserCancelled) ;; ret true
    else ret false
  else if named "confirming_delete"%string then
    confirmFileDelete H remoteJid trimmedText ;;; ret true
  else if named "video_search_results"%string then
    if isVideoReply trimmedText
    then YouTube.handleVideoSelection E remoteJid trimmedText ;;; ret true
    else ret false
  else if named "channel_search_results"%string then
    if isChannelReply trimmedText
    then YouTube.handleChannelSelection E remoteJid trimmedText ;;; ret true
    else ret false
  else if named "channel_videos_results"%string then
    if isVideoReply trimmedText
    then YouTube.handleVideoSelection E remoteJid trimmedText ;;; ret true
    else ret false
  else if named "anime_selection"%string then
    if isNumber trimmedText
    then handleAnimeSelection H remoteJid trimmedText ;;; ret true
    else ret false
  else if named "episode_selection"%string then
    if isNumber trimmedText || isRange trimmedText
    then handleEpisodeSelection H remoteJid trimmedText ;;; ret true
    else ret false
  else if named "quality_selection"%string then
    if isNumber trimmedText
    then handleQualitySelection H remoteJid trimmedText ;;; ret true
    else ret false
  else if named "automated_anime_confirmation"%string then
    handleAutomatedAnimeConfirmation H remoteJid trimmedText ;;; ret true
  else if named "music_search_results"%string then
    if isNumber trimmedText
    then handleMusicSelection H remoteJid trimmedText ;;; ret true
    else ret false
  else if named "waiting_for_cookies"%string then
    saveCookies H remoteJid trimmedText ;;; ret true
  else ret false.

(** [messagesUpsertHandler(m)] while the bot is running.  The command
    branch goes through [throttleOperation], whose waiting is modelled in
    [Performance]; here the command handler is entered at once. *)
Definition messagesUpsertHandler (m : upsert) : M world unit :=
  if negb (notify m) then ret tt
  else if negb (hasMessage m) then ret tt
  else if fromMe m then ret tt
  else
    try_catch
      (let trimmed := Js.trim (messageText m) in
       if negb (Js.truthy trimmed) then ret tt
       else
         record_call (AddSavedChat (remoteJid m)) ;;;
         if Js.startsWith (Js.lit "/") trimmed
         then handleCommand H (remoteJid m) trimmed
         else
           userState <- gets (fun w => userStates w !! remoteJid m) ;;
           handled <- match userState with
                      | Some userState => dispatch (remoteJid m) trimmed userState
                      | None => ret false
                      end ;;
           if handled then ret tt
           else _ <- sendMessage (remoteJid m) (Text TDefaultAutoReply) ;;
                ret tt)
      (fun error => console_log (ErrorProcessingMessage error)).

End Dispatch.

End Bot.


(** ** What the properties are stated with *)

(** [m] never leaves its caller waiting for ever. *)
Definition finite {S A} (m : M S A) : Prop := forall s, fst (m s) <> Pending.

(** [m] always returns: it neither throws nor hangs. *)
Definition safe {S A} (m : M S A) : Prop :=
  forall s, exists a, fst (m s) = Ok a.

(** [m] keeps the property [I] of the state, however it ends. *)
Definition keeps {S A} (I : S -> Prop) (m : M S A) : Prop :=
  forall s, I s -> I (snd (m s)).

(** The counter of the throttle equals the number of calls inside their
    operation, and that number is within the limit. *)
Definition throttle_inv (limit : Z) (s : Performance.system) : Prop :=
  Performance.maxConcurrency (Performance.manager s) = limit
  /\ Performance.activeOperations (Performance.manager s)
     = Z.of_nat (Performance.active s)
  /\ Z.of_nat (Performance.active s) <= limit.

(** From a state with [P], [m] ends, however it ends, in a state with
    [Q]. *)
Definition leads {S A} (P : S -> Prop) (m : M S A) (Q : S -> Prop) : Prop :=
  forall s, P s -> Q (snd (m s)).

(** A component of the world has a given value. *)
Definition fieldIs {X} (f : world -> X) (x : X) : world -> Prop :=
  fun w => f w = x.

(** A property of the world, seen from a method of an object. *)
Definition ofWorld {T} (I : world -> Prop) : T * world -> Prop :=
  fun s => I (snd s).

(** A component of the world that sending, deleting and logging leave
    alone. *)
Definition quiet_field {X} (f : world -> X) : Prop :=
  (forall w d l k sf df, f (set_transport w d l k sf df) = f w)
  /\ (forall w e, f (snd (console_log e w)) = f w).

(** A non-empty run of decimal digits, and a non-empty run of white
    space. *)
Definition digits (s : jsstring) : Prop :=
  s <> [] /\ forallb Js.isDigit s = true.
Definition blanks (s : jsstring) : Prop :=
  s <> [] /\ forallb Js.isSpace s = true.

(** The calls that [m] adds to the record of the world [w]. *)
Definition new_calls {A} (m : M world A) (w : world) : list call :=
  drop (length (calls w)) (calls (snd (m w))).

(** The state of a channel search with the given results. *)
Definition channel_search (channels : list item) : userState :=
  {| state := Js.lit "channel_search_results";
     searchResults := Some channels;
     channelVideos := None; selectedChannel := None |}.

(** From a state with [P], [m] returns a value [a] in a state with
    [Q a]. *)
Definition succeeds {S A} (P : S -> Prop) (m : M S A) (Q : A -> S -> Prop)
  : Prop :=
  forall s, P s -> exists a, fst (m s) = Ok a /\ Q a (snd (m s)).

(** *** Observations of the transport *)

(** What the transport delivered, without the keys. *)
Definition outbox (w : world) : list (jsstring * content) :=
  map fst (delivered w).

(** A transport that works, and has delivered [l] so far. *)
Definition delivers (l : list (jsstring * content)) : world -> Prop :=
  fun w => send_faults w = [] /\ outbox w = l.

(** The message of a result card: with the thumbnail when it could be
    fetched, text only when it could not. *)
Definition card_content (E : environment) (i : nat) (video : item) : content :=
  match downloadImage E (thumbnail video) with
  | Some image => Image image (TVideoCard i video)
  | None => Text (TVideoCard i video)
  end.

Definition content_of (data : YouTube.card) : content :=
  match YouTube.thumbnailBuffer data with
  | Some image => Image image (YouTube.videoText data)
  | None => Text (YouTube.videoText data)
  end.

(** The index of the result a card message shows, if it is a card. *)
Definition card_index (c : content) : option nat :=
  match c with
  | Text (TVideoCard i _) => Some i
  | Image _ (TVideoCard i _) => Some i
  | _ => None
  end.

(** The indices of the cards delivered between two worlds, in the order of
    delivery. *)
Definition cards_sent (before after : world) : list nat :=
  omap (fun d => card_index (snd (fst d)))
       (drop (length (delivered before)) (delivered after)).

(** Running [m] in the world [w] delivers some more messages, and the
    cards among them show the results of indices [cards], in this
    order. *)
Definition emits {A} (m : M world A) (w : world) (cards : list nat) : Prop :=
  exists extra,
    delivered (snd (m w)) = delivered w ++ extra
    /\ omap (fun d => card_index (snd (fst d))) extra = cards.

(** A transport that works, in a world that has recorded the calls [cs]. *)
Definition working_with (cs : list call) : world -> Prop :=
  fun w => send_faults w = [] /\ calls w = cs.

(** Whether a call made the transport deliver a message. *)
Definition delivered_more {T} (before after : T * world) : bool :=
  (length (delivered (snd before)) <? length (delivered (snd after)))%nat.

(** The live messages with a key from [k0] on: those sent since the key
    counter stood at [k0]. *)
Definition own_live (k0 : msgkey) (w : world) : list msgkey :=
  filter (fun k => (k0 <= k)%nat) (live w).

(** At most one message sent since [k0] is live, and it is the one the
    tracker refers to. *)
Definition tracked {T} (lastId : T -> option msgkey) (k0 : msgkey)
    (s : T * world) : Prop :=
  own_live k0 (snd s) = []
  \/ exists k, own_live k0 (snd s) = [k] /\ lastId (fst s) = Some k.

(** *** Sequences of calls on one tracker *)

(** The state after a sequence of calls, and for each call its instant,
    whether it was forced, and whether it transmitted. *)
Fixpoint run_calls {St Call} (step : Call -> St -> St) (calls : list Call)
    (s : St) : St :=
  match calls with
  | [] => s
  | c :: rest => run_calls step rest (step c s)
  end.

Fixpoint log_calls {St Call} (time : Call -> Z) (force : Call -> bool)
    (step : Call -> St -> St) (sent : Call -> St -> bool)
    (calls : list Call) (s : St) : list (Z * bool * bool) :=
  match calls with
  | [] => []
  | c :: rest =>
      (time c, force c, sent c s) :: log_calls time force step sent rest (step c s)
  end.

(** A call [updateProgress(data)] of the optimized tracker at an instant. *)
Definition optimized_step (c : Z * sample)
    (s : Performance.OptimizedProgressTracker * world)
  : Performance.OptimizedProgressTracker * world :=
  snd (Performance.updateProgress (fst c) (snd c) s).

Definition optimized_log :=
  log_calls (St := Performance.OptimizedProgressTracker * world)
    fst (fun _ => false) optimized_step
    (fun c s => delivered_more s (optimized_step c s)).

(** A call [checkAndSendProgressUpdate(force)] of the standard tracker at
    an instant, with the progress file as it is then.  [standard_step]
    and [run_calls] apply such calls one after the other, each returned
    before the next. *)
Record check := {
  force : bool;
  instant : Z;
  progressFile : option (gmap jsstring sample)
}.

Definition standard_step (c : check) (s : Progress.ProgressTracker * world)
  : Progress.ProgressTracker * world :=
  snd (Progress.checkAndSendProgressUpdate (force c) (instant c)
         (progressFile c) s).

Definition standard_log :=
  log_calls (St := Progress.ProgressTracker * world)
    instant force standard_step
    (fun c s => delivered_more s (standard_step c s)).

(** Instants that never go back. *)
Definition ascending (times : list Z) : Prop := StronglySorted Z.le times.

(** *** Sequences of lines through a parser *)

(** The percentage recorded after each line. *)
Fixpoint recorded (lines : list (Z * jsstring)) (t : Progress.ProgressTracker)
  : list Q :=
  match lines with
  | [] => []
  | (now, line) :: rest =>
      let t' := Progress.parseYouTubeProgress now line t in
      progress (Progress.youtubeProgress t') :: recorded rest t'
  end.

Fixpoint recorded_optimized (lines : list (Z * jsstring))
    (s : Performance.OptimizedProgressTracker * world) : list Q :=
  match lines with
  | [] => []
  | (now, line) :: rest =>
      let s' := snd (YouTube.parseYouTubeProgress now line s) in
      progress (Performance.progressData (fst s')) :: recorded_optimized rest s'
  end.

Definition nondecreasing (l : list Q) : Prop := StronglySorted Qle l.

(** The line has a percentage token, of value [p]. *)
Definition hasPercentage (line : jsstring) (p : Q) : Prop :=
  exists token, Js.percentMatch line = Some token
                /\ Js.parseFloat token = Some p.

(** The line has a total-size token. *)
Definition hasTotalSize (line : jsstring) : Prop :=
  exists token, Js.sizeMatch line = Some token.

(** The line is a sub-fragment or audio-only line. *)
Definition isNoise (line : jsstring) : Prop :=
  Js.includes (Js.lit "fragment") line = true
  \/ Js.includes (Js.lit "audio only") line = true.

(** The line carries the marker of the audio conversion, and is not a
    download line with a percentage. *)
Definition isConversion (line : jsstring) : Prop :=
  Js.includes (Js.lit "[ffmpeg]") line = true
  /\ Js.includes (Js.lit "Destination:") line = true
  /\ Js.includes (Js.lit "[download]") line && Js.includes (Js.lit "%") line
     = false.

(** *** A conversation used in the examples *)

Definition chat : jsstring := Js.lit "15550100@s.whatsapp.net".

Definition video (name : string) : item :=
  {| id := Js.lit name; title := Js.lit name;
     thumbnail := Js.lit ("https://i.ytimg.com/vi/" ++ name);
     url := Js.lit ("https://www.youtube.com/watch?v=" ++ name);
     channelTitle := Js.lit "channel" |}.

Definition three_videos : list item := [video "a"; video "b"; video "c"].

(** The state the [/ys] command leaves after a search with three
    results. *)
Definition awaiting_video : userState :=
  {| state := Js.lit "video_search_results";
     searchResults := Some three_videos;
     channelVideos := None; selectedChannel := None |}.

(** The state the [/yc] command leaves after a search with three
    results. *)
Definition awaiting_channel : userState :=
  {| state := Js.lit "channel_search_results";
     searchResults := Some three_videos;
     channelVideos := None; selectedChannel := None |}.

(** Collaborators that work: yt-dlp prints two progress lines and
    succeeds, thumbnails cannot be fetched, cards settle in reverse
    order. *)
Definition working : environment :=
  {| downloadImage := fun _ => None;
     completion := fun videos => rev (seq 0 (length videos));
     channelLatestVideos := fun _ _ => Some three_videos;
     ytdlp := fun _ _ =>
       ([(3000, Js.lit "[download]  50.0% of 10.00MiB at 1.00MiB/s ETA 00:05");
         (6000, Js.lit "[download] 100% of 10.00MiB in 00:10")],
        9000,
        DownloadSucceeded (Js.lit "b_720p.mp4") (Js.lit "tmp/b_720p.mp4")
          (Js.lit "files/b_720p.mp4"));
     clock := 1000 |}.

Definition other_handlers : Bot.handlers :=
  {| Bot.handleCommand := fun _ _ => ret tt;
     Bot.handleFileSelection := fun _ _ => ret tt;
     Bot.confirmFileDelete := fun _ _ => ret tt;
     Bot.handleAnimeSelection := fun _ _ => ret tt;
     Bot.handleEpisodeSelection := fun _ _ => ret tt;
     Bot.handleQualitySelection := fun _ _ => ret tt;
     Bot.handleAutomatedAnimeConfirmation := fun _ _ => ret tt;
     Bot.handleMusicSelection := fun _ _ => ret tt;
     Bot.saveCookies := fun _ _ => ret tt |}.

(** An incoming text message of the conversation. *)
Definition reply (messageText : string) : Bot.upsert :=
  {| Bot.notify := true; Bot.hasMessage := true; Bot.fromMe := false;
     Bot.remoteJid := chat; Bot.messageText := Js.lit messageText |}.

Definition with_state (u : userState) : world :=
  set_userStates (insert chat u) quiet.

(** A world whose transport rejects the next send. *)
Definition send_fails : world :=
  set_transport quiet [] [] O [true] [].

(** A world whose transport rejects the next delete. *)
Definition delete_fails : world :=
  set_transport quiet [] [] O [] [true].

(** The conditions under which the live messages are counted: no deletion
    fails from here on, the keys from [k0] on are still to be handed out or
    belong to the tracker, and the tracker refers to the one that is live. *)
Definition tracking {T} (lastId : T -> option msgkey) (k0 : msgkey)
    (s : T * world) : Prop :=
  delete_faults (snd s) = []
  /\ (k0 <= next_key (snd s))%nat
  /\ tracked lastId k0 s.

(** A standard tracker that follows the download of one episode through
    the progress file, and the file when the download stands at a given
    percentage. *)
Definition episode_tracker : Progress.ProgressTracker :=
  Progress.with_item (Js.lit "Episode 1") (Some (Js.lit "session"))
    (Progress.new chat 1 (Js.lit "episode") 1000).

Definition file_at (percentage : Q) : option (gmap jsstring sample) :=
  Some {[ Js.lit "session" :=
            {| progress := percentage; total_size := Js.lit "100MiB";
               downloaded_size := []; speed := []; eta := [];
               time_elapsed := [] |} ]}.


(** ** Further modules and what their properties are stated with *)

(** ** Display helpers (features/utils.js) *)

Module Utils.

(** One optional group of the duration pattern: a run of digits and the
    letter of its unit.  When the letter does not follow the longest run
    it follows no shorter one either, and the group is skipped. *)
Definition component (unit : Z) (s : jsstring) : option jsstring * jsstring :=
  match Js.span Js.isDigit s with
  | ([], _) => (None, s)
  | (ds, c :: r) => if c =? unit then (Some ds, r) else (None, s)
  | (_, []) => (None, s)
  end.

(** The duration pattern at the head of [s]: [PT], then the optional
    groups of the hours, the minutes and the seconds. *)
Definition duration_at (s : jsstring)
  : option (option jsstring * option jsstring * option jsstring) :=
  match Js.literal (Js.lit "PT") s with
  | Some r =>
      let '(h, r1) := component 72 r in
      let '(m, r2) := component 77 r1 in
      let '(sec, _) := component 83 r2 in
      Some (h, m, sec)
  | None => None
  end.

(** [Number.parseInt(group || 0)]; [None] is NaN. *)
Definition groupValue (group : option jsstring) : option Z :=
  match group with
  | Some ds => Js.parseInt ds
  | None => Some 0
  end.

(** A number in a template literal, and [n > 0]. *)
Definition numberToString (n : option Z) : jsstring :=
  match n with
  | Some n => Js.toString n
  | None => Js.lit "NaN"
  end.

Definition isPositive (n : option Z) : bool :=
  match n with
  | Some n => 0 <? n
  | None => false
  end.

Definition formatDuration (duration : jsstring) : jsstring :=
  if Js.eqb duration (Js.lit "N/A") then Js.lit "N/A"
  else
    match Js.search duration_at duration with
    | None => duration
    | Some (h, m, s) =>
        let hours := groupValue h in
        let minutes := groupValue m in
        let seconds := groupValue s in
        if isPositive hours
        then numberToString hours ++ Js.lit ":"
             ++ Js.padStart2 (numberToString minutes) ++ Js.lit ":"
             ++ Js.padStart2 (numberToString seconds)
        else numberToString minutes ++ Js.lit ":"
             ++ Js.padStart2 (numberToString seconds)
    end.

End Utils.

(** ** Batches of messages (features/performance.js) *)

(** The console lines and the texts of the functions modelled from here
    on, each standing for the template literal it is named after. *)
Record templates := {
  failedToSendMessage : exn -> console_entry;
  noSavedChatsToBroadcast : console_entry;
  broadcastingTo : nat -> console_entry;
  broadcastComplete : nat -> nat -> console_entry;
  broadcastFailed : exn -> console_entry;
  welcomeText : text
}.

Module Batches.

(** [array.slice(start, end)] *)
Definition slice {A} (start end_ : Z) (array : list A) : list A :=
  let len := Z.of_nat (length array) in
  let from := if start <? 0 then Z.max (len + start) 0 else Z.min start len in
  let to := if end_ <? 0 then Z.max (len + end_) 0 else Z.min end_ len in
  take (Z.to_nat (to - from)) (drop (Z.to_nat from) array).

(** The loop of [chunkArray(array, size)], for at most [fuel] tests of its
    condition; [None] when they do not suffice. *)
Fixpoint chunk_loop {A} (fuel : nat) (array : list A) (size i : Z)
    (chunks : list (list A)) : option (list (list A)) :=
  match fuel with
  | O => None
  | S fuel' =>
      if i <? Z.of_nat (length array)
      then chunk_loop fuel' array size (i + size)
             (chunks ++ [slice i (i + size) array])
      else Some chunks
  end.

Definition chunkArray {A} (fuel : nat) (array : list A) (size : Z)
  : option (list (list A)) :=
  chunk_loop fuel array size 0 [].

Section Sending.

Context (T : templates).

(** The [async] arrow of [processBatch] on one message, an object
    [{remoteJid, content}]: the message the socket returns, here its key,
    or [null] when the send threw. *)
Definition send_or_null (messageData : jsstring * content)
  : M world (option msgkey) :=
  try_catch
    (key <- sendMessage (fst messageData) (snd messageData) ;; ret (Some key))
    (fun error => console_log (failedToSendMessage T error) ;;; ret None).

(** [processBatch(sock, batch)].  The arrows are started in the order of
    the array, each up to its send, within one turn of the event loop, and
    the transport is taken to handle the sends in the order they were
    started.  No arrow rejects, so every settled result is fulfilled: what
    is kept of it is its value. *)
Fixpoint processBatch (batch : list (jsstring * content))
  : M world (list (option msgkey)) :=
  match batch with
  | [] => ret []
  | messageData :: rest =>
      value <- send_or_null messageData ;;
      values <- processBatch rest ;;
      ret (value :: values)
  end.

(** [batches.map((batch) => this.processBatch(sock, batch))] under
    [Promise.all]. *)
Fixpoint processBatches (batches : list (list (jsstring * content)))
  : M world (list (list (option msgkey))) :=
  match batches with
  | [] => ret []
  | batch :: rest =>
      values <- processBatch batch ;;
      more <- processBatches rest ;;
      ret (values :: more)
  end.

(** [sendMessagesBatch(sock, messages)].  The loop of [chunkArray] tests
    its condition once more than it has chunks, which are no more than
    the messages; when that many tests do not end it, nothing does. *)
Definition sendMessagesBatch (manager : Performance.PerformanceManager)
    (messages : list (jsstring * content))
  : M world (list (list (option msgkey))) :=
  match chunkArray (S (length messages)) messages
          (Performance.batchSize manager) with
  | Some batches => processBatches batches
  | None => never
  end.

End Sending.

End Batches.

(** ** The broadcast of the command handler (features/commands.js) *)

Module Commands.

Section Broadcast.

Context (T : templates).

(** [broadcastWelcomeMessage(sock, force)]; [savedChats] is the set of
    storage.js, in the order of insertion. *)
Definition broadcastWelcomeMessage (savedChats : list jsstring) (force : bool)
  : M world unit :=
  if negb force && (length savedChats =? 0)%nat
  then console_log (noSavedChatsToBroadcast T)
  else
    console_log (broadcastingTo T (length savedChats)) ;;;
    let messages :=
      map (fun jid => (jid, Text (welcomeText T))) savedChats in
    try_catch
      (results <- Batches.sendMessagesBatch T Performance.newPerformanceManager
                    messages ;;
       let successCount := length (List.filter isSome (concat results)) in
       let failCount := (length (concat results) - successCount)%nat in
       console_log (broadcastComplete T successCount failCount))
      (fun error => console_log (broadcastFailed T error)).

End Broadcast.

End Commands.

(** A message that is not the deletion of another one. *)
Definition plain (messageData : jsstring * content) : Prop :=
  forall key, snd messageData <> Delete key.

(** The messages of a batch whose send returned a message. *)
Definition accepted (messages : list (jsstring * content))
    (values : list (option msgkey)) : list (jsstring * content) :=
  omap (fun mv => match snd mv with
                  | Some _ => Some (fst mv)
                  | None => None
                  end) (zip messages values).

(** Templates for the examples: the console lines are stood for by
    entries that carry the same values, the welcome by another text. *)
Definition example_templates : templates :=
  {| failedToSendMessage := ErrorProcessingMessage;
     noSavedChatsToBroadcast := ErrorProcessingMessage (JsError (Js.lit "none"));
     broadcastingTo := fun n =>
       ErrorProcessingMessage (JsError (Js.toString (Z.of_nat n)));
     broadcastComplete := fun sent failed =>
       ErrorProcessingMessage
         (JsError (Js.toString (Z.of_nat sent) ++ Js.lit "/"
                   ++ Js.toString (Z.of_nat failed)));
     broadcastFailed := ErrorProcessingMessage;
     welcomeText := TDefaultAutoReply |}.

(** Two digits at least, as [padStart(2, "0")] writes a number. *)
Definition two_digits (n : Z) : jsstring :=
  if n <? 10 then 48 :: Js.toString n else Js.toString n.

(** A duration of less than a day as the YouTube API writes it: [PT], then
    the hours, the minutes and the seconds that it has. *)
Definition unit_part (n : option Z) (unit : string) : jsstring :=
  match n with
  | Some n => Js.toString n ++ Js.lit unit
  | None => []
  end.

Definition iso8601 (h m s : option Z) : jsstring :=
  Js.lit "PT" ++ unit_part h "H" ++ unit_part m "M" ++ unit_part s "S".

(** The text of a duration on a result card. *)
Definition clock_text (hours minutes seconds : Z) : jsstring :=
  if 0 <? hours
  then Js.toString hours ++ Js.lit ":" ++ two_digits minutes ++ Js.lit ":"
       ++ two_digits seconds
  else Js.toString minutes ++ Js.lit ":" ++ two_digits seconds.

(** A component of a duration: absent, or a natural number that a
    JavaScript number holds exactly. *)
Definition counted (n : option Z) : Prop :=
  match n with Some n => 0 <= n < 2 ^ 53 | None => True end.

(** ** The search commands (features/youtube.js, features/music.js,
       features/pinterest.js) *)

Module Query.

(** [parts.join(sep)] *)
Fixpoint join (sep : jsstring) (parts : list jsstring) : jsstring :=
  match parts with
  | [] => []
  | part :: rest =>
      match rest with
      | [] => part
      | _ => part ++ sep ++ join sep rest
      end
  end.

(** What [.] does not match: the line terminators. *)
Definition isLineTerminator (c : Z) : bool :=
  (c =? 10) || (c =? 13) || (c =? 8232) || (c =? 8233).

Definition isQuote (c : Z) : bool := (c =? 34) || (c =? 39).

(** The lazy group [(.+?)] at the start of the text, before a
    continuation [tail]: one character, then one more for as long as the
    continuation does not match what follows; [group] holds the characters
    taken so far, the last one first. *)
Fixpoint lazy_group {A} (tail : jsstring -> option A) (group s : jsstring)
  : option (jsstring * A) :=
  match s with
  | [] => None
  | c :: r =>
      if isLineTerminator c then None
      else match tail r with
           | Some a => Some (rev (c :: group), a)
           | None => lazy_group tail (c :: group) r
           end
  end.

(** White space, a hyphen, digits, the end: the digits. *)
Definition dash_tail (s : jsstring) : option jsstring :=
  match Js.spaces1 s with
  | Some (c :: ds) => if (c =? 45) && Bot.isNumber ds then Some ds else None
  | _ => None
  end.

(** The match of the pattern: start, lazy group, white space, hyphen,
    digits, end. *)
Definition dashMatch (fullCommand : jsstring) : option (jsstring * jsstring) :=
  lazy_group dash_tail [] fullCommand.

(** A quote, white space, digits, the end: the digits. *)
Definition quoted_tail (s : jsstring) : option jsstring :=
  match s with
  | c :: r =>
      if isQuote c
      then match Js.spaces1 r with
           | Some ds => if Bot.isNumber ds then Some ds else None
           | None => None
           end
      else None
  | [] => None
  end.

(** The match of the pattern: start, a quote, lazy group, a quote, white
    space, digits, end. *)
Definition quotedMatch (fullCommand : jsstring)
  : option (jsstring * jsstring) :=
  match fullCommand with
  | c :: r => if isQuote c then lazy_group quoted_tail [] r else None
  | [] => None
  end.

(** [s.replace(pattern, "")] with the global pattern of a quote at the
    start or a quote at the end. *)
Definition strip_quotes (s : jsstring) : jsstring :=
  let s1 := match s with
            | c :: r => if isQuote c then r else s
            | [] => []
            end in
  match rev s1 with
  | c :: r => if isQuote c then rev r else s1
  | [] => s1
  end.

(** The object [{query, maxResults}]; [None] is NaN. *)
Record parsed := {
  query : jsstring;
  maxResults : option Z
}.

(** [parseYouTubeCommand(commandParts)]; [parseYouTubeChannelCommand] calls
    it, and [parseMusicCommand] has the same body. *)
Definition parseYouTubeCommand (commandParts : list jsstring) : parsed :=
  let fullCommand := join (Js.lit " ") (tail commandParts) in
  match dashMatch fullCommand with
  | Some (group, number) =>
      {| query := Js.trim (strip_quotes group);
         maxResults := Js.parseInt number |}
  | None =>
      match quotedMatch fullCommand with
      | Some (group, number) =>
          {| query := Js.trim group; maxResults := Js.parseInt number |}
      | None =>
          let parts := Js.split_ws fullCommand in
          let lastPart := List.last parts [] in
          if Bot.isNumber lastPart && (1 <? length parts)%nat
          then {| query := Js.trim (strip_quotes
                             (join (Js.lit " ") (removelast parts)));
                  maxResults := Js.parseInt lastPart |}
          else {| query := Js.trim (strip_quotes fullCommand);
                  maxResults := Some 5 |}
      end
  end.

(** [command.split(" ")] of [handleCommand]. *)
Definition commandPartsOf (command : jsstring) : list jsstring :=
  Js.split_char 32 command.

End Query.

(** ** The image search command (features/pinterest.js) *)

Module Pinterest.

(** The object [{query, count}]; [None] is NaN. *)
Record parsed := {
  query : jsstring;
  count : option Z
}.

(** [PinterestSearcher.parseCommand(commandParts)] *)
Definition parseCommand (commandParts : list jsstring) : parsed :=
  let fullCommand := Query.join (Js.lit " ") (tail commandParts) in
  let parts := Js.split_ws fullCommand in
  let lastPart := List.last parts [] in
  if Bot.isNumber lastPart && (1 <? length parts)%nat
  then {| query := Js.trim (Query.strip_quotes
                     (Query.join (Js.lit " ") (removelast parts)));
          count := option_map (fun n => Z.min n 50) (Js.parseInt lastPart) |}
  else {| query := Js.trim (Query.strip_quotes fullCommand);
          count := Some 10 |}.

End Pinterest.

(** A word: characters, one at least, none of them white space. *)
Definition word (s : jsstring) : Prop :=
  s <> [] /\ forallb (fun c => negb (Js.isSpace c)) s = true.

(** A text that neither starts nor ends with a quote. *)
Definition unquoted (s : jsstring) : Prop :=
  match head s with Some c => Query.isQuote c = false | None => True end
  /\ match last s with Some c => Query.isQuote c = false | None => True end.

(** *** A download on a transport that works *)

(** A transport that works: no send and no deletion fails from here on. *)
Definition healthy (w : world) : Prop :=
  send_faults w = [] /\ delete_faults w = [].

(** The keys of the live messages have all been handed out. *)
Definition issued (w : world) : Prop :=
  Forall (fun k => (k < next_key w)%nat) (live w).

(** Two states of an optimized tracker that count for the same job. *)
Definition same_job (a b : Performance.OptimizedProgressTracker) : Prop :=
  Performance.remoteJid a = Performance.remoteJid b
  /\ Performance.totalItems a = Performance.totalItems b
  /\ Performance.itemType a = Performance.itemType b
  /\ Performance.completed a = Performance.completed b
  /\ Performance.failed a = Performance.failed b
  /\ Performance.startTime a = Performance.startTime b
  /\ Performance.updateThreshold a = Performance.updateThreshold b.

(** A status text of the optimized tracker: the start, or a sample. *)
Definition isStatus (t : text) : Prop :=
  (exists itemType totalItems, t = TStarting itemType totalItems)
  \/ (exists itemType data, t = TProcessing itemType data).

(** The optimized tracker at work for [job] on a transport that works: of
    the messages sent since the key counter stood at [k0], only its latest
    status message is live, and it is the last one delivered. *)
Definition supervising (k0 : msgkey) (job : Performance.OptimizedProgressTracker)
    (s : Performance.OptimizedProgressTracker * world) : Prop :=
  healthy (snd s) /\ same_job job (fst s)
  /\ exists k earlier status,
       (k0 <= k < next_key (snd s))%nat
       /\ own_live k0 (snd s) = [k]
       /\ Performance.lastProgressMessageId (fst s) = Some k
       /\ delivered (snd s)
          = earlier ++ [(Performance.remoteJid job, Text status, k)]
       /\ isStatus status.

(** The summary the tracker posts when a one-item job ends. *)
Definition summary (t : Performance.OptimizedProgressTracker) (closed : Z)
    (outcome : download_result) : text :=
  match outcome with
  | DownloadSucceeded _ _ _ =>
      TCompleted (Performance.completed t + 1) (Performance.totalItems t)
        ((closed - Performance.startTime t) / 1000) (Performance.failed t)
  | _ =>
      TCompleted (Performance.completed t) (Performance.totalItems t)
        ((closed - Performance.startTime t) / 1000) (Performance.failed t + 1)
  end.



(** The messages [downloadAndSendVideo] ends with after a download that
    returned. *)
Definition report (E : environment) (remoteJid : jsstring) (video : item)
    (closed : Z) (outcome : download_result) : list content :=
  Text (summary (Performance.new remoteJid 1 (Js.lit "video") (clock E))
          closed outcome)
  :: match outcome with
     | DownloadSucceeded filename tempPath finalPath =>
         [Text (TDownloadCompleted filename);
          Document finalPath filename (TVideoCaption video);
          Text TVideoSent]
     | _ => [Text TDownloadFailed]
     end.

(** Messages to one chat with consecutive keys from [k] on. *)
Fixpoint keyed (remoteJid : jsstring) (k : msgkey) (cs : list content)
  : list (jsstring * content * msgkey) :=
  match cs with
  | [] => []
  | c :: cs => (remoteJid, c, k) :: keyed remoteJid (S k) cs
  end.

(** The world after one more message [c] went out to [remoteJid] and
    nothing else happened. *)
Definition answered (remoteJid : jsstring) (c : content) (w : world) : world :=
  set_transport w (delivered w ++ [(remoteJid, c, next_key w)])
    (live w ++ [next_key w]) (S (next_key w)) [] (delete_faults w).

(** The results a chat can choose a video from. *)
Definition choices (w : world) (remoteJid : jsstring) : option (list item) :=
  match userStates w !! remoteJid with
  | Some userState =>
      YouTube.or_else (searchResults userState) (channelVideos userState)
  | None => None
  end.

(** The state [handleChannelSelection] stores once it has the videos of
    a channel. *)
Definition channel_videos (videos : list item) (channel : item) : userState :=
  {| state := Js.lit "channel_videos_results"; searchResults := None;
     channelVideos := Some videos; selectedChannel := Some channel |}.

(** Collaborators whose YouTube API returns no videos. *)
Definition without_videos : environment :=
  {| downloadImage := downloadImage working;
     completion := completion working;
     channelLatestVideos := fun _ _ => Some [];
     ytdlp := ytdlp working;
     clock := clock working |}.

(** A text that the dispatcher does not take as a reply: the chat has no
    state, or it is in a state of the video or channel search and the text
    does not have the form awaited there. *)
Definition unexpected (userState : option userState) (trimmedText : jsstring)
  : Prop :=
  match userState with
  | None => True
  | Some u =>
      ((state u = Js.lit "video_search_results"
        \/ state u = Js.lit "channel_videos_results")
       /\ Bot.isVideoReply trimmedText = false)
      \/ (state u = Js.lit "channel_search_results"
          /\ Bot.isChannelReply trimmedText = false)
  end.

(** Handlers of the other modules of which the command handler throws. *)
Definition failing_handlers : Bot.handlers :=
  {| Bot.handleCommand := fun _ _ => throw (JsError (Js.lit "ENOENT"));
     Bot.handleFileSelection := Bot.handleFileSelection other_handlers;
     Bot.confirmFileDelete := Bot.confirmFileDelete other_handlers;
     Bot.handleAnimeSelection := Bot.handleAnimeSelection other_handlers;
     Bot.handleEpisodeSelection := Bot.handleEpisodeSelection other_handlers;
     Bot.handleQualitySelection := Bot.handleQualitySelection other_handlers;
     Bot.handleAutomatedAnimeConfirmation :=
       Bot.handleAutomatedAnimeConfirmation other_handlers;
     Bot.handleMusicSelection := Bot.handleMusicSelection other_handlers;
     Bot.saveCookies := Bot.saveCookies other_handlers |}.

(** ** Calls that overlap (features/progress.js) *)

(** The methods of [Progress] and [Performance] above are calls that
    run without interruption: nothing else touches the tracker between
    their first statement and their return.  That is what a caller gets
    who awaits each call before making the next.  The timer of the
    standard tracker and the monitoring sweep do not wait for each other:
    here a call is cut at its awaits on the transport, and calls on one
    tracker are interleaved there. *)

Module Overlap.

(** A call after its synchronous start: [Settled] when its promise has
    settled, [Awaiting resume] while it waits for the transport or a timer;
    [resume] runs from the moment the awaited promise settles to the next
    such await.  What a send or a deletion does to the chat is taken to
    happen at that moment.  An [await] on a promise that has settled
    already (the result of [getPythonProgress], a [sendProgressUpdate] that
    returned before its first send) lets no timer or transport event in
    and does not cut the call. *)
#[warnings="-register-all"] Inductive task (S : Type) : Type :=
| Settled
| Awaiting (resume : M S (task S)).

Arguments Settled {S}.
Arguments Awaiting {S} resume.

(** The state the calls share, and the calls made so far, oldest first. *)
Record pool (S : Type) := {
  shared : S;
  inflight : list (task S)
}.

Arguments shared {S} p.
Arguments inflight {S} p.

(** What the event loop runs next: a new call, up to its first await, or
    the continuation of the [i]-th call, whose awaited promise has
    settled. *)
Inductive event (C : Type) : Type :=
| Starts (c : C)
| Resumes (i : nat).

Arguments Starts {C} c.
Arguments Resumes {C} i.

Definition step {S C} (start : C -> M S (task S)) (e : event C) (p : pool S)
  : option (pool S) :=
  match e with
  | Starts c =>
      match start c (shared p) with
      | (Ok t, s') => Some {| shared := s'; inflight := inflight p ++ [t] |}
      | (Throw _, s') =>
          Some {| shared := s'; inflight := inflight p ++ [Settled] |}
      | (Pending, s') =>
          Some {| shared := s'; inflight := inflight p ++ [Awaiting never] |}
      end
  | Resumes i =>
      match inflight p !! i with
      | Some (Awaiting resume) =>
          match resume (shared p) with
          | (Ok t, s') =>
              Some {| shared := s'; inflight := <[i := t]> (inflight p) |}
          | (Throw _, s') =>
              Some {| shared := s'; inflight := <[i := Settled]> (inflight p) |}
          | (Pending, s') => Some {| shared := s'; inflight := inflight p |}
          end
      | _ => None
      end
  end.

(** A schedule; [None] when it resumes a call that is not waiting. *)
Fixpoint run {S C} (start : C -> M S (task S)) (es : list (event C))
    (p : pool S) : option (pool S) :=
  match es with
  | [] => Some p
  | e :: es' =>
      match step start e p with
      | Some p' => run start es' p'
      | None => None
      end
  end.

(** The calls a schedule starts, in their order. *)
Definition calls {C} (es : list (event C)) : list C :=
  omap (fun e => match e with Starts c => Some c | Resumes _ => None end) es.

(** A call that nothing interrupts: its continuations run one after the
    other, at most [fuel] of them. *)
Fixpoint settle {S} (fuel : nat) (t : task S) (s : S) : S :=
  match fuel, t with
  | S fuel', Awaiting resume =>
      match resume s with
      | (Ok t', s') => settle fuel' t' s'
      | (_, s') => s'
      end
  | _, _ => s
  end.

Definition uninterrupted {S} (fuel : nat) (start : M S (task S)) (s : S) : S :=
  match start s with
  | (Ok t, s') => settle fuel t s'
  | (_, s') => s'
  end.

Import Progress.

Abbreviation state := (ProgressTracker * world)%type.

(** [this.lastUpdate = now], the last statement of
    [checkAndSendProgressUpdate], after [sendProgressUpdate] has
    returned. *)
Definition stamp (now : Z) : M state (task state) :=
  set_this (with_lastUpdate now) ;;; ret Settled.

(** From the settlement of the send of [sendProgressUpdate] on: the
    message is recorded, or the error is logged by the [catch]. *)
Definition awaitedSend (now : Z) (jid : jsstring) (progressText : text)
    (pct : Q) : task state :=
  Awaiting
    (try_catch
       (sentKey <- onWorld (sendMessage jid (Text progressText)) ;;
        set_this (with_sent sentKey progressText pct))
       (fun error => onWorld (console_log (ProgressUpdateFailed error))) ;;;
     stamp now).

(** The pause of 100 ms after a deletion that succeeded. *)
Definition awaitedPause (now : Z) (jid : jsstring) (progressText : text)
    (pct : Q) : task state :=
  Awaiting (ret (awaitedSend now jid progressText pct)).

(** From the settlement of the deletion on: a deletion that failed is
    ignored and skips the pause. *)
Definition awaitedDelete (now : Z) (jid : jsstring) (key : msgkey)
    (progressText : text) (pct : Q) : task state :=
  Awaiting
    (try_catch
       (_ <- onWorld (sendMessage jid (Delete key)) ;;
        ret (awaitedPause now jid progressText pct))
       (fun _ => ret (awaitedSend now jid progressText pct))).

(** [checkAndSendProgressUpdate(force)] at the instant [now], up to its
    first await on the transport: the test of the timer, and of
    [sendProgressUpdate] the choice of the sample, the two early returns,
    the text and the read of [lastProgressMessageId]. *)
Definition checkAndSendProgressUpdate (force : bool) (now : Z)
    (progressFile : option (gmap jsstring sample)) : M state (task state) :=
  t <- this ;;
  if force || (now - lastUpdate t >=? 5000)
  then
    match currentSample progressFile t with
    | None => stamp now
    | Some data =>
        if Qeq_bool (progress data) 0 then stamp now
        else if isSome (lastProgressMessage t)
                && Qltb (Qabs (progress data - lastProgressPercentage t)) 1
        then stamp now
        else
          let progressText := TDownloading (isYouTube t) (currentItem t) data in
          match lastProgressMessageId t with
          | Some key =>
              ret (awaitedDelete now (remoteJid t) key progressText
                     (progress data))
          | None =>
              ret (awaitedSend now (remoteJid t) progressText (progress data))
          end
    end
  else ret Settled.

(** The calls of [check] on one tracker. *)
Definition start (c : check) : M state (task state) :=
  checkAndSendProgressUpdate (force c) (instant c) (progressFile c).

End Overlap.

(** *** A sweep and a timer on one tracker, and a tracker from its start *)

(** The entry of the progress file at a percentage. *)
Definition at_percent (percentage : Q) : sample :=
  {| progress := percentage; total_size := Js.lit "100MiB";
     downloaded_size := []; speed := []; eta := []; time_elapsed := [] |}.

(** The progress message of the first episode at a percentage. *)
Definition episode_progress (percentage : Q) : content :=
  Text (TDownloading false (Some (Js.lit "Episode 1")) (at_percent percentage)).

(** The forced update of the monitoring sweep at 10000 ms, and the
    unforced one of the tracker's timer 40 ms later: the sweep runs every
    5000 ms from 0 on, the timer of the tracker every 5000 ms from the end
    of its [start] on, here 40 ms. *)
Definition sweep_call : check :=
  {| force := true; instant := 10000; progressFile := file_at (10 # 1) |}.
Definition timer_call : check :=
  {| force := false; instant := 10040; progressFile := file_at (12 # 1) |}.

(** A tracker of one episode, created at 0 ms, on a transport that
    works.  The sweep at 5000 ms found no entry in the progress file and
    sent nothing, so [lastUpdate] is 5000 and there is no progress message
    yet; no call is in flight. *)
Definition between_updates : Overlap.pool Overlap.state :=
  {| Overlap.shared :=
       (Progress.with_lastUpdate 5000
          (Progress.with_item (Js.lit "Episode 1") (Some (Js.lit "session"))
             (Progress.new chat 1 (Js.lit "episode") 0)),
        quiet);
     Overlap.inflight := [] |}.

(** What the chat got, and which calls still wait. *)
Definition transmitted (p : option (Overlap.pool Overlap.state))
  : option (list (jsstring * content)) :=
  option_map (fun p => outbox (snd (Overlap.shared p))) p.

Definition still_live (p : option (Overlap.pool Overlap.state))
  : option (list msgkey) :=
  option_map (fun p => live (snd (Overlap.shared p))) p.

(** The standard tracker of one episode as [startAutomatedDownload] drives
    it: [start] at 1000 ms, whose send takes 40 ms, then
    [updateCurrentItem] with the session of the download at 1500 ms, while
    the progress file has no entry for it yet, then the first call of the
    timer that passes its test, at 11040 ms. *)
Definition started : Progress.ProgressTracker * world :=
  snd (Progress.start (Progress.new chat 1 (Js.lit "episode") 1000, quiet)).

Definition named : Progress.ProgressTracker * world :=
  snd (Progress.updateCurrentItem (Js.lit "Episode 1")
         (Some (Js.lit "session")) 1500 None started).

Definition updated : Progress.ProgressTracker * world :=
  standard_step
    {| force := false; instant := 11040; progressFile := file_at (10 # 1) |}
    named.


(** ** Events without a first message or a key (bot.js) *)

Module Events.

(** The event [m] as [messagesUpsertHandler] meets it before its [try]:
    [m.messages] may be missing or empty, and the first message may lack
    its [key].  [WithFirstMessage] is the event that has both, which
    [Bot.upsert] describes. *)
Inductive event :=
| NoMessages (notify : bool)
| NoFirstMessage (notify : bool)
| NoKey (notify hasMessage : bool)
| WithFirstMessage (m : Bot.upsert).

(** The [TypeError] of reading a property of [undefined], in the words of
    V8. *)
Definition typeError (property : string) : exn :=
  JsError
    (Js.lit ("Cannot read properties of undefined (reading '"
             ++ property ++ "')")).

(** [messagesUpsertHandler(m)]; [botRunning] is the constant [true].
    [m.messages[0]], [message.message] and [message.key.remoteJid] are
    read before the [try], so the error of reading them leaves the
    handler. *)
Definition messagesUpsertHandler (E : environment) (H : Bot.handlers)
    (e : event) : M world unit :=
  match e with
  | NoMessages notify =>
      if negb notify then ret tt else throw (typeError "0")
  | NoFirstMessage notify =>
      if negb notify then ret tt else throw (typeError "message")
  | NoKey notify hasMessage =>
      if negb notify then ret tt
      else if negb hasMessage then ret tt
      else throw (typeError "remoteJid")
  | WithFirstMessage m => Bot.messagesUpsertHandler E H m
  end.

End Events.

(** ** Updates that nobody awaits (features/youtube.js) *)

(** [parseYouTubeProgress] calls [updateProgress] and drops its promise:
    the update goes on while further lines are handled, and may still be
    waiting for the transport when yt-dlp closes and
    [downloadAndSendVideo] finishes the tracker.  Here the update and the
    rest of [downloadAndSendVideo] are cut at their awaits on the
    transport, as the calls of [Overlap]. *)

Module Unawaited.

Import Performance.

Abbreviation state := (OptimizedProgressTracker * world)%type.
Abbreviation task := (Overlap.task state).

(** [updateProgress] while it awaits its send: [message.key] is recorded
    when the send has settled. *)
Definition awaitedSend (jid : jsstring) (progressText : text) : task :=
  Overlap.Awaiting
    (key <- onWorld (sendMessage jid (Text progressText)) ;;
     set_this (with_messageId key) ;;;
     ret Overlap.Settled).

(** [updateProgress] while it awaits the deletion of the message it found
    recorded; an error of the deletion is ignored, the text is formatted
    from the sample the tracker has by then, and the send is started. *)
Definition awaitedDelete (jid : jsstring) (key : msgkey) : task :=
  Overlap.Awaiting
    (try_catch
       (_ <- onWorld (sendMessage jid (Delete key)) ;; ret tt)
       (fun _ => ret tt) ;;;
     t' <- this ;;
     ret (awaitedSend jid (formatProgressText t'))).

(** [updateProgress(progressData)] up to its first await. *)
Definition updateProgress (now : Z) (data : sample) : M state task :=
  t <- this ;;
  if now - lastUpdate t <? updateThreshold t then ret Overlap.Settled
  else
    set_this (with_progress data now) ;;;
    match lastProgressMessageId t with
    | Some key => ret (awaitedDelete (remoteJid t) key)
    | None =>
        t' <- this ;;
        ret (awaitedSend (remoteJid t) (formatProgressText t'))
    end.

(** [parseYouTubeProgress(line, progressTracker)] of youtube.js: the call
    of [updateProgress] runs to its first await and throws nothing; what
    is left of it is the task returned here, which nobody awaits. *)
Definition parseYouTubeProgress (now : Z) (line : jsstring) : M state task :=
  progressTracker <- this ;;
  if Js.includes (Js.lit "[download]") line && Js.includes (Js.lit "%") line
  then
    if Js.includes (Js.lit "fragment") line
       || Js.includes (Js.lit "audio only") line
    then ret Overlap.Settled
    else
      match Js.percentMatch line with
      | Some percent =>
          match Js.parseFloat percent with
          | Some parsed =>
              if Qgeb parsed 100
                 && Qgeb (progress (progressData progressTracker)) 100
              then ret Overlap.Settled
              else
                let total_size := Js.group_or_empty (Js.sizeMatch line) in
                let downloaded_size :=
                  Js.group_or_empty (Js.downloadedMatch line) in
                let speed := Js.group_or_empty (Js.speedMatch line) in
                let eta := Js.group_or_empty (Js.etaMatch line) in
                let time_elapsed :=
                  Js.time_elapsed_label now (startTime progressTracker) in
                if Js.truthy total_size
                   && Qltb (progress (progressData progressTracker)) parsed
                then updateProgress now
                       {| progress := parsed; total_size := total_size;
                          downloaded_size := downloaded_size;
                          speed := speed; eta := eta;
                          time_elapsed := time_elapsed |}
                else ret Overlap.Settled
          | None => ret Overlap.Settled
          end
      | None => ret Overlap.Settled
      end
  else ret Overlap.Settled.

(** The lines for which the [data] handlers of [downloadYouTubeVideo]
    call [parseYouTubeProgress], with the instants they arrive at.  The
    two variables the handlers share depend on the lines only. *)
Fixpoint handled (lines : list (Z * jsstring)) (lastProgressUpdate : Z)
    (downloadCompleted : bool) : list (Z * jsstring) :=
  match lines with
  | [] => []
  | (now, line) :: rest =>
      if Js.truthy (Js.trim line) && negb downloadCompleted
      then
        if (now - lastProgressUpdate >=? 2000)
           || Js.includes (Js.lit "[download] 100%") line
        then
          (now, line)
          :: handled rest now
               (Js.includes (Js.lit "[download] 100%") line
                && negb (Js.includes (Js.lit "fragment") line))
        else handled rest lastProgressUpdate downloadCompleted
      else handled rest lastProgressUpdate downloadCompleted
  end.

(** What the event loop starts during a download: the handling of a line
    of yt-dlp, and at its close the rest of [downloadAndSendVideo]. *)
Inductive call :=
| Line (now : Z) (line : jsstring)
| Close.

Section Download.

Context (E : environment) (remoteJid : jsstring) (video : item)
  (quality : jsstring).


(** The [catch] of [downloadAndSendVideo]. *)
Definition caught (error : exn) : M state task :=
  onWorld (console_log (ErrorInDownloadAndSendVideo error)) ;;;
  ret (Overlap.Awaiting
         (_ <- onWorld (sendMessage remoteJid (Text TDownloadError)) ;;
          ret (Overlap.Awaiting
                 (onWorld sendPresenceUpdate ;;; ret Overlap.Settled)))).

(** [downloadAndSendVideo] while it awaits the last presence update. *)
Definition awaitedPresence : task :=
  Overlap.Awaiting
    (try_catch (onWorld sendPresenceUpdate ;;; ret Overlap.Settled) caught).

(** ... while it awaits the confirmation. *)
Definition awaitedConfirmation : task :=
  Overlap.Awaiting
    (try_catch
       (_ <- onWorld (sendMessage remoteJid (Text TVideoSent)) ;;
        ret awaitedPresence)
       caught).

(** ... while it awaits the notice and the document, which
    [Promise.all] sends together, or the failure notice. *)
Definition awaitedReport (outcome : download_result) : task :=
  match outcome with
  | DownloadSucceeded filename tempPath finalPath =>
      Overlap.Awaiting
        (try_catch
           (onWorld
              (YouTube.both
                 (_ <- sendMessage remoteJid
                         (Text (TDownloadCompleted filename)) ;;
                  ret tt)
                 (_ <- sendMessage remoteJid
                         (Document finalPath filename (TVideoCaption video)) ;;
                  ret tt)) ;;;
            ret awaitedConfirmation)
           caught)
  | _ =>
      Overlap.Awaiting
        (try_catch
           (_ <- onWorld (sendMessage remoteJid (Text TDownloadFailed)) ;;
            ret awaitedPresence)
           caught)
  end.

(** [finish()] while it awaits the send of its summary. *)
Definition awaitedSummary (jid : jsstring) (summaryText : text)
    (outcome : download_result) : task :=
  Overlap.Awaiting
    (try_catch
       (_ <- onWorld (sendMessage jid (Text summaryText)) ;;
        ret (awaitedReport outcome))
       caught).

(** [finish()] from its deletion to the start of its send; [finished] is
    [Date.now()] there. *)
Definition summarise (finished : Z) (outcome : download_result)
  : M state task :=
  t <- this ;;
  let elapsed := (finished - startTime t) / 1000 in
  ret (awaitedSummary (Performance.remoteJid t)
         (TCompleted (completed t) (totalItems t) elapsed (failed t))
         outcome).

(** [finish()] while it awaits the deletion of the message it found
    recorded. *)
Definition awaitedFinish (jid : jsstring) (key : msgkey) (finished : Z)
    (outcome : download_result) : task :=
  Overlap.Awaiting
    (try_catch
       (try_catch
          (_ <- onWorld (sendMessage jid (Delete key)) ;; ret tt)
          (fun _ => ret tt) ;;;
        summarise finished outcome)
       caught).





End Download.

End Unawaited.

(** *** A download whose updates overlap with its end *)



(** How far [downloadAndSendVideo] has come. *)
Inductive stage :=
| Downloading
| Finishing
| Summarising
| Reporting
| Confirming
| Leaving
| Returned.

Definition succeeded (outcome : download_result) : bool :=
  match outcome with DownloadSucceeded _ _ _ => true | _ => false end.

(** How many messages of its report it has sent by then. *)
Definition sent (outcome : download_result) (st : stage) : nat :=
  match st with
  | Downloading | Finishing | Summarising => 0
  | Reporting => 1
  | Confirming => 3
  | Leaving | Returned => if succeeded outcome then 4 else 2
  end.



Section Invariant.

Context (E : environment) (remoteJid : jsstring) (video : item)
  (w0 : world) (finished : Z) (outcome : download_result).


(** A key the tracker may still delete: not one of the report, and the
    key of the start message as long as that message is live. *)
Definition owned (w : world) (sentKeys : list msgkey) (key : msgkey) : Prop :=
  (key < next_key w)%nat /\ (key ∉ sentKeys)
  /\ (next_key w0 ∈ live w -> key = next_key w0).



(** What is left of [downloadAndSendVideo] at a stage. *)
Definition rest (st : stage) (w : world) (sentKeys : list msgkey)
    (ms : list Unawaited.task) : Prop :=
  match st with
  | Downloading => ms = []
  | Finishing =>
      exists key,
        ms = [Unawaited.awaitedFinish remoteJid video remoteJid key finished
                outcome]
        /\ owned w sentKeys key
  | Summarising =>
      ms = [Unawaited.awaitedSummary remoteJid video remoteJid
              (summary (Performance.new remoteJid 1 (Js.lit "video") (clock E))
                 finished outcome)
              outcome]
      /\ (next_key w0 ∉ live w)
  | Reporting =>
      ms = [Unawaited.awaitedReport remoteJid video outcome]
      /\ (next_key w0 ∉ live w)
  | Confirming =>
      ms = [Unawaited.awaitedConfirmation remoteJid]
      /\ (next_key w0 ∉ live w) /\ succeeded outcome = true
  | Leaving =>
      ms = [Unawaited.awaitedPresence remoteJid] /\ (next_key w0 ∉ live w)
  | Returned => ms = [Overlap.Settled] /\ (next_key w0 ∉ live w)
  end.


End Invariant.



(** * Properties *)

(** ** Episode ranges *)

Lemma collect_range_filter n i episodeNumbers acc :
  Anime.collect_range n i episodeNumbers acc =
  acc ++ filter (fun k => k ∈ episodeNumbers) (seqZ i (Z.of_nat n)).
Proof.
  revert i acc. induction n as [|n IH]; intros i acc.
  - simpl. by rewrite app_nil_r.
  - cbn [Anime.collect_range]. rewrite IH.
    replace (Z.of_nat (S n)) with (Z.succ (Z.of_nat n)) by lia.
    rewrite (seqZ_cons i (Z.succ (Z.of_nat n))) by lia. rewrite Z.pred_succ.
    rewrite filter_cons. replace (Z.succ i) with (i + 1) by lia.
    destruct (decide (i ∈ episodeNumbers)) as [Hin|Hin].
    + rewrite bool_decide_eq_true_2 by done. by rewrite <- app_assoc.
    + by rewrite bool_decide_eq_false_2 by done.
Qed.

(** C5: with the episodes 1, 2, 3, 5 and 8 available, the selection "2-6"
    resolves to exactly 2, 3 and 5 and is marked valid, the selection
    "10-20" is a validation error (not valid, with the message that no
    episode lies in the range 10-20); a valid range always resolves to the
    available numbers of its closed interval, and no valid result has an
    empty list of episodes. *)
Theorem parseEpisodeSelection_range (availableEpisodes : list Anime.episode) :
  map Anime.number availableEpisodes = [1; 2; 3; 5; 8] ->
  Anime.parseEpisodeSelection (Js.lit "2-6") availableEpisodes
    = Anime.Valid true [2; 3; 5] (Some (2, 6))
  /\ Anime.parseEpisodeSelection (Js.lit "10-20") availableEpisodes
    = Anime.Invalid (Anime.NoEpisodesInRange 10 20)
  /\ Anime.valid (Anime.parseEpisodeSelection (Js.lit "10-20") availableEpisodes)
    = false
  /\ (forall selection eps start end_ episodes,
        Anime.parseEpisodeSelection selection eps
          = Anime.Valid true episodes (Some (start, end_)) ->
        episodes = filter (fun k => k ∈ map Anime.number eps)
                          (seqZ start (end_ + 1 - start)))
  /\ (forall selection eps isRange episodes range,
        Anime.parseEpisodeSelection selection eps
          = Anime.Valid isRange episodes range ->
        episodes <> []).
Proof.
  intros Hnum. split; [|split; [|split; [|split]]].
  - unfold Anime.parseEpisodeSelection. rewrite Hnum. reflexivity.
  - unfold Anime.parseEpisodeSelection. rewrite Hnum. reflexivity.
  - unfold Anime.parseEpisodeSelection. rewrite Hnum. reflexivity.
  - intros selection eps start end_ episodes.
    unfold Anime.parseEpisodeSelection.
    destruct (Js.includes _ selection).
    + destruct (map _ (Js.split_char 45 selection)) as [|[a|] [|[b|] l]];
        try discriminate.
      destruct (a >? b) eqn:Hab; [discriminate|].
      rewrite collect_range_filter. simpl app.
      destruct (length _ =? 0)%nat; [discriminate|].
      intros [= <- <- <-]. f_equal. f_equal. lia.
    + destruct (Js.parseInt _); [|discriminate].
      destruct (bool_decide _); discriminate.
  - intros selection eps isRange episodes range.
    unfold Anime.parseEpisodeSelection.
    destruct (Js.includes _ selection).
    + destruct (map _ (Js.split_char 45 selection)) as [|[a|] [|[b|] l]];
        try discriminate.
      destruct (a >? b); [discriminate|].
      destruct (length _ =? 0)%nat eqn:Hlen; [discriminate|].
      intros [= <- <- <-] Hnil. rewrite Hnil in Hlen. discriminate.
    + destruct (Js.parseInt _); [|discriminate].
      destruct (bool_decide _); [|discriminate].
      intros [= <- <- <-]. discriminate.
Qed.

Lemma parseEpisodeSelection_range_witness :
  map Anime.number
      (map (fun n => {| Anime.number := n; Anime.url := [] |}) [1; 2; 3; 5; 8])
    = [1; 2; 3; 5; 8]
  /\ Anime.parseEpisodeSelection (Js.lit "2-6")
       (map (fun n => {| Anime.number := n; Anime.url := [] |}) [1; 2; 3; 5; 8])
     = Anime.Valid true [2; 3; 5] (Some (2, 6)).
Proof.
  split; [reflexivity|].
  apply (parseEpisodeSelection_range
           (map (fun n => {| Anime.number := n; Anime.url := [] |})
                [1; 2; 3; 5; 8])).
  reflexivity.
Defined.

(** ** The throttle *)

Section Throttle.

Import Performance.

Lemma active_insert (l : list place) i p q :
  l !! i = Some q ->
  (length (List.filter running (<[i := p]> l)) + (if running q then 1 else 0)
   = length (List.filter running l) + (if running p then 1 else 0))%nat.
Proof.
  revert i. induction l as [|x l IH]; intros [|i] Hi; try discriminate.
  - injection Hi as ->. simpl. destruct (running q), (running p); simpl; lia.
  - simpl in Hi. simpl. specialize (IH i Hi).
    destruct (running x); simpl; lia.
Qed.

Lemma active_app (l : list place) p :
  length (List.filter running (l ++ [p]))
  = (length (List.filter running l) + (if running p then 1 else 0))%nat.
Proof.
  rewrite List.filter_app, length_app. simpl. by destruct (running p).
Qed.

Lemma step_inv limit e s s' :
  throttle_inv limit s -> step e s = Some s' -> throttle_inv limit s'.
Proof.
  intros (Hmax & Hact & Hle) Hstep. destruct s as [m ts].
  unfold throttle_inv, active in *. simpl in *.
  destruct e as [|i|i o]; simpl in Hstep.
  - unfold enter in Hstep.
    destruct (activeOperations m >=? maxConcurrency m) eqn:Hfull;
      injection Hstep as <-; simpl; rewrite active_app; simpl.
    + repeat split; lia.
    + repeat split; lia.
  - destruct (ts !! i) as [[| |o]|] eqn:Hi; try discriminate.
    pose proof (active_insert ts i) as Hins.
    unfold enter in Hstep.
    destruct (activeOperations m >=? maxConcurrency m) eqn:Hfull;
      injection Hstep as <-; simpl.
    + specialize (Hins Sleeping Sleeping Hi). simpl in Hins.
      repeat split; lia.
    + specialize (Hins InOperation Sleeping Hi). simpl in Hins.
      repeat split; lia.
  - destruct (ts !! i) as [[| |o']|] eqn:Hi; try discriminate.
    injection Hstep as <-. simpl.
    pose proof (active_insert ts i (Settled o) InOperation Hi) as Hins.
    simpl in Hins. repeat split; lia.
Qed.

Lemma run_inv limit es s s' :
  throttle_inv limit s -> run es s = Some s' -> throttle_inv limit s'.
Proof.
  revert s. induction es as [|e es IH]; intros s Hinv Hrun; simpl in Hrun.
  - by injection Hrun as <-.
  - destruct (step e s) as [s1|] eqn:Hstep; [|discriminate].
    eapply IH; [|exact Hrun]. eapply step_inv; eauto.
Qed.

Lemma active_settled (l : list place) :
  Forall (fun p => exists o, p = Settled o) l ->
  length (List.filter running l) = 0%nat.
Proof.
  induction 1 as [|p l [o ->] _ IH]; simpl; auto.
Qed.

(** C6: starting from a manager with no active operation, after any
    interleaving of calls of [throttleOperation], timer wake-ups and
    operations that return or throw, the counter [activeOperations] equals
    the number of operations in flight and never exceeds [maxConcurrency];
    an operation that settles, by returning or by throwing, takes the
    counter down by one, so that once every call has settled the counter
    is back at zero.  The manager the program creates starts with no
    active operation and a maximum of 10. *)
Theorem throttle_ceiling (m0 : PerformanceManager) (es : list event)
    (s : system) :
  activeOperations m0 = 0 ->
  0 <= maxConcurrency m0 ->
  run es (idle m0) = Some s ->
  activeOperations (manager s) = Z.of_nat (active s)
  /\ Z.of_nat (active s) <= maxConcurrency m0
  /\ (forall i o, tasks s !! i = Some InOperation ->
        exists s', step (OperationSettles i o) s = Some s'
          /\ activeOperations (manager s') = activeOperations (manager s) - 1
          /\ tasks s' !! i = Some (Settled o))
  /\ (Forall (fun p => exists o, p = Settled o) (tasks s) ->
        activeOperations (manager s) = 0)
  /\ maxConcurrency newPerformanceManager = 10
  /\ activeOperations newPerformanceManager = 0.
Proof.
  intros H0 Hmax Hrun.
  assert (Hinv : throttle_inv (maxConcurrency m0) s).
  { eapply run_inv; [|exact Hrun].
    unfold throttle_inv, idle, active. simpl. repeat split; lia. }
  destruct Hinv as (_ & Hact & Hle).
  split; [exact Hact|]. split; [exact Hle|]. split; [|split; [|done]].
  - intros i o Hi. simpl. rewrite Hi. eexists. split; [reflexivity|].
    simpl. split; [reflexivity|].
    apply list_lookup_insert_eq. by eapply lookup_lt_Some.
  - intros Hall. rewrite Hact. unfold active.
    by rewrite active_settled.
Qed.

Lemma throttle_ceiling_witness :
  exists s,
    run (replicate 20 Call ++ [OperationSettles 3 Thrown; TimerFires 12])
        (idle newPerformanceManager) = Some s
    /\ maxConcurrency newPerformanceManager = 10
    /\ activeOperations (manager s) = 10
    /\ Z.of_nat (active s) <= 10.
Proof.
  eexists. split; [vm_compute; reflexivity|].
  split; [reflexivity|]. split; [vm_compute; reflexivity|].
  apply (throttle_ceiling newPerformanceManager
           (replicate 20 Call ++ [OperationSettles 3 Thrown; TimerFires 12])).
  - reflexivity.
  - vm_compute. discriminate.
  - vm_compute. reflexivity.
Defined.

End Throttle.

(** ** Reasoning about computations *)

Section Logic.

Context {S : Type}.

Lemma safe_finite {A} (m : M S A) : safe m -> finite m.
Proof. intros H s. destruct (H s) as [a ->]. discriminate. Qed.

Lemma finite_ret {A} (a : A) : finite (ret (S := S) a).
Proof. intros s. discriminate. Qed.

Lemma finite_throw {A} e : finite (throw (S := S) (A := A) e).
Proof. intros s. discriminate. Qed.

Lemma finite_gets {A} (f : S -> A) : finite (gets f).
Proof. intros s. discriminate. Qed.

Lemma finite_modify (f : S -> S) : finite (modify f).
Proof. intros s. discriminate. Qed.

Lemma finite_bind {A B} (m : M S A) (k : A -> M S B) :
  finite m -> (forall a, finite (k a)) -> finite (bind m k).
Proof.
  intros Hm Hk s. unfold bind. specialize (Hm s).
  destruct (m s) as [[a|e|] s']; simpl in *; try done. apply Hk.
Qed.

Lemma finite_try_catch {A} (m : M S A) h :
  finite m -> (forall e, finite (h e)) -> finite (try_catch m h).
Proof.
  intros Hm Hh s. unfold try_catch. specialize (Hm s).
  destruct (m s) as [[a|e|] s']; simpl in *; try done. apply Hh.
Qed.

Lemma safe_ret {A} (a : A) : safe (ret (S := S) a).
Proof. intros s. by exists a. Qed.

Lemma safe_gets {A} (f : S -> A) : safe (gets f).
Proof. intros s. by eexists. Qed.

Lemma safe_modify (f : S -> S) : safe (modify f).
Proof. intros s. by eexists. Qed.

Lemma safe_bind {A B} (m : M S A) (k : A -> M S B) :
  safe m -> (forall a, safe (k a)) -> safe (bind m k).
Proof.
  intros Hm Hk s. unfold bind. destruct (Hm s) as [a Ha].
  destruct (m s) as [r s']; simpl in Ha; subst r. apply Hk.
Qed.

Lemma safe_try_catch {A} (m : M S A) h :
  finite m -> (forall e, safe (h e)) -> safe (try_catch m h).
Proof.
  intros Hm Hh s. unfold try_catch. specialize (Hm s).
  destruct (m s) as [[a|e|] s']; simpl in *; try done.
  - by exists a.
  - apply Hh.
Qed.

Lemma keeps_ret {A} (I : S -> Prop) (a : A) : keeps I (ret a).
Proof. intros s Hs. exact Hs. Qed.

Lemma keeps_throw {A} (I : S -> Prop) e : keeps I (throw (A := A) e).
Proof. intros s Hs. exact Hs. Qed.

Lemma keeps_never {A} (I : S -> Prop) : keeps I (never (A := A)).
Proof. intros s Hs. exact Hs. Qed.

Lemma keeps_gets {A} (I : S -> Prop) (f : S -> A) : keeps I (gets f).
Proof. intros s Hs. exact Hs. Qed.

Lemma keeps_bind {A B} (I : S -> Prop) (m : M S A) (k : A -> M S B) :
  keeps I m -> (forall a, keeps I (k a)) -> keeps I (bind m k).
Proof.
  intros Hm Hk s Hs. unfold bind. specialize (Hm s Hs).
  destruct (m s) as [[a|e|] s']; simpl in *; try done. by apply Hk.
Qed.

Lemma keeps_try_catch {A} (I : S -> Prop) (m : M S A) h :
  keeps I m -> (forall e, keeps I (h e)) -> keeps I (try_catch m h).
Proof.
  intros Hm Hh s Hs. unfold try_catch. specialize (Hm s Hs).
  destruct (m s) as [[a|e|] s']; simpl in *; try done. by apply Hh.
Qed.

End Logic.

Lemma finite_onWorld {T W A} (m : M W A) :
  finite m -> finite (onWorld (T := T) m).
Proof.
  intros Hm [t w]. unfold onWorld. simpl. specialize (Hm w).
  by destruct (m w) as [r w'].
Qed.

Lemma safe_onWorld {T W A} (m : M W A) :
  safe m -> safe (onWorld (T := T) m).
Proof.
  intros Hm [t w]. unfold onWorld. simpl. destruct (Hm w) as [a Ha].
  exists a. by destruct (m w) as [r w'].
Qed.

Lemma keeps_onWorld {T A} (I : world -> Prop) (m : M world A) :
  keeps I m -> keeps (ofWorld (T := T) I) (onWorld m).
Proof.
  intros Hm [t w] Hs. unfold onWorld, ofWorld in *. simpl in *.
  specialize (Hm w Hs). by destruct (m w) as [r w'].
Qed.

Lemma keeps_set_this {T} (I : world -> Prop) (f : T -> T) :
  keeps (ofWorld I) (set_this f).
Proof. intros [t w] Hs. exact Hs. Qed.

Lemma keeps_withObject {T A} (I : world -> Prop) (t : T)
    (m : M (T * world) A) :
  keeps (ofWorld I) m -> keeps I (withObject t m).
Proof.
  intros Hm w Hw. unfold withObject. specialize (Hm (t, w) Hw).
  unfold ofWorld in Hm. by destruct (m (t, w)) as [r s'].
Qed.

Lemma finite_sendMessage remoteJid c : finite (sendMessage remoteJid c).
Proof.
  intros w. unfold sendMessage.
  destruct c; try destruct (send_faults w) as [|[] ?];
    try destruct (delete_faults w) as [|[] ?]; discriminate.
Qed.

Lemma finite_sendPresenceUpdate : finite sendPresenceUpdate.
Proof.
  intros w. unfold sendPresenceUpdate.
  destruct (send_faults w) as [|[] ?]; discriminate.
Qed.

Lemma safe_console_log e : safe (console_log e).
Proof. apply safe_modify. Qed.

Lemma safe_record_call c : safe (record_call c).
Proof. apply safe_modify. Qed.

Create HintDb effects.

#[local] Hint Resolve finite_ret finite_throw finite_gets finite_modify
  finite_sendMessage finite_sendPresenceUpdate finite_onWorld
  safe_ret safe_gets safe_modify safe_console_log safe_record_call
  safe_onWorld safe_finite : effects.

(** Goes through the binds, the handlers and the branches of a
    computation. *)
Ltac effects :=
  repeat first
    [ progress (auto with effects)
    | apply finite_bind; [|intros ?]
    | apply finite_try_catch; [|intros ?]
    | apply safe_bind; [|intros ?]
    | apply safe_try_catch; [|intros ?]
    | match goal with
      | |- finite (match ?x with _ => _ end) => destruct x
      | |- safe (match ?x with _ => _ end) => destruct x
      | |- finite (if ?b then _ else _) => destruct b
      | |- safe (if ?b then _ else _) => destruct b
      end ].

(** ** The standard tracker never lets a progress update throw *)

Lemma sendProgressUpdate_safe progressFile :
  safe (Progress.sendProgressUpdate progressFile).
Proof. unfold Progress.sendProgressUpdate, this, set_this. effects. Qed.

Lemma checkAndSendProgressUpdate_safe force now progressFile :
  safe (Progress.checkAndSendProgressUpdate force now progressFile).
Proof.
  unfold Progress.checkAndSendProgressUpdate, this, set_this.
  pose proof (sendProgressUpdate_safe progressFile). effects.
Qed.

(** When the transport rejects the next send, [finish] rethrows the error:
    only the deletion before the summary is guarded. *)
Lemma finish_throws now t w faults :
  send_faults w = true :: faults ->
  fst (Progress.finish now (t, w)) = Throw TransportError.
Proof.
  intros Hf. unfold Progress.finish, bind, set_this, this, modify, gets,
    onWorld, try_catch, ret, sendMessage. simpl.
  destruct (Progress.lastProgressMessageId t) as [key|]; simpl.
  - destruct (delete_faults w) as [|[] df]; simpl; rewrite Hf; reflexivity.
  - rewrite Hf. reflexivity.
Qed.

(** The same holds for [finish] of the optimized tracker ... *)
Lemma optimized_finish_throws now t w faults :
  send_faults w = true :: faults ->
  fst (Performance.finish now (t, w)) = Throw TransportError.
Proof.
  intros Hf. unfold Performance.finish, bind, set_this, this, modify, gets,
    onWorld, try_catch, ret, sendMessage. simpl.
  destruct (Performance.lastProgressMessageId t) as [key|]; simpl.
  - destruct (delete_faults w) as [|[] df]; simpl; rewrite Hf; reflexivity.
  - rewrite Hf. reflexivity.
Qed.

(** ... and for its [updateProgress], once the debounce lets it through. *)
Lemma optimized_updateProgress_throws now data t w faults :
  Performance.updateThreshold t <= now - Performance.lastUpdate t ->
  send_faults w = true :: faults ->
  fst (Performance.updateProgress now data (t, w)) = Throw TransportError.
Proof.
  intros Hgate Hf. unfold Performance.updateProgress, bind, set_this, this,
    modify, gets, onWorld, try_catch, ret, sendMessage. simpl.
  destruct (Z.ltb_spec (now - Performance.lastUpdate t)
              (Performance.updateThreshold t)) as [?|_]; [lia|]. simpl.
  destruct (Performance.lastProgressMessageId t) as [key|]; simpl.
  - destruct (delete_faults w) as [|[] df]; simpl; rewrite Hf; reflexivity.
  - rewrite Hf. reflexivity.
Qed.

(** C2, at the input where it fails: a progress update on a transport that
    rejects the send returns normally and logs the error, but [finish] on
    the same transport ends with the transport error thrown to its
    caller. *)
Theorem finish_rethrows_transport_error :
  fst (Progress.sendProgressUpdate None
         (Progress.updateYouTubeProgress Music.converting
            (Progress.new chat 1 (Js.lit "episode") 1000), send_fails))
    = Ok tt
  /\ console (snd (snd (Progress.sendProgressUpdate None
         (Progress.updateYouTubeProgress Music.converting
            (Progress.new chat 1 (Js.lit "episode") 1000), send_fails))))
    = [ProgressUpdateFailed TransportError]
  /\ fst (Progress.finish 61000
            (Progress.new chat 1 (Js.lit "episode") 1000, send_fails))
    = Throw TransportError.
Proof. repeat split; reflexivity. Qed.

(** ** What the handlers leave alone *)

Section Frame.

Context {X : Type} (f : world -> X) (Hf : quiet_field f) (x : X).

Lemma keeps_sendMessage remoteJid c :
  keeps (fieldIs f x) (sendMessage remoteJid c).
Proof.
  intros w Hw. unfold fieldIs in *. destruct Hf as [Ht _].
  unfold sendMessage.
  destruct c; try destruct (send_faults w) as [|[] ?];
    try destruct (delete_faults w) as [|[] ?]; simpl; by rewrite Ht.
Qed.

Lemma keeps_sendPresenceUpdate : keeps (fieldIs f x) sendPresenceUpdate.
Proof.
  intros w Hw. unfold fieldIs in *. destruct Hf as [Ht _].
  unfold sendPresenceUpdate.
  destruct (send_faults w) as [|[] ?]; simpl; by rewrite Ht.
Qed.

Lemma keeps_console_log e : keeps (fieldIs f x) (console_log e).
Proof.
  intros w Hw. unfold fieldIs in *. destruct Hf as [_ Hc]. by rewrite Hc.
Qed.

End Frame.

Lemma userStates_quiet : quiet_field userStates.
Proof. split; reflexivity. Qed.

Lemma calls_quiet : quiet_field calls.
Proof. split; reflexivity. Qed.

Lemma keeps_record_call_userStates us c :
  keeps (fieldIs userStates us) (record_call c).
Proof. intros w Hw. exact Hw. Qed.

(** Goes through a computation that keeps a property of the world. *)
Ltac frame Hf :=
  repeat first
    [ match goal with H : _ |- _ => solve [apply H] end
    | apply keeps_ret | apply keeps_throw | apply keeps_never
    | apply keeps_gets
    | apply (keeps_sendMessage _ Hf)
    | apply (keeps_sendPresenceUpdate _ Hf)
    | apply (keeps_console_log _ Hf)
    | apply keeps_record_call_userStates
    | apply keeps_set_this
    | apply keeps_onWorld
    | apply keeps_withObject
    | apply keeps_bind; [|intros ?]
    | apply keeps_try_catch; [|intros ?]
    | match goal with
      | |- keeps _ (match ?v with _ => _ end) => destruct v
      | |- keeps _ (if ?b then _ else _) => destruct b
      | |- keeps _ (let '(_, _) := ?v in _) => destruct v
      end ].

Section VideoPath.

Context (E : environment) (us : gmap jsstring userState).

Let I : world -> Prop := fieldIs userStates us.

Lemma start_keeps_states : keeps (ofWorld I) Performance.start.
Proof. unfold Performance.start, this. frame userStates_quiet. Qed.

Lemma updateProgress_keeps_states now data :
  keeps (ofWorld I) (Performance.updateProgress now data).
Proof. unfold Performance.updateProgress, this. frame userStates_quiet. Qed.

Lemma itemCompleted_keeps_states success :
  keeps (ofWorld I) (Performance.itemCompleted success).
Proof. unfold Performance.itemCompleted. frame userStates_quiet. Qed.

Lemma finish_keeps_states now : keeps (ofWorld I) (Performance.finish now).
Proof. unfold Performance.finish, this. frame userStates_quiet. Qed.

Lemma parseYouTubeProgress_keeps_states now line :
  keeps (ofWorld I) (YouTube.parseYouTubeProgress now line).
Proof.
  unfold YouTube.parseYouTubeProgress, this.
  pose proof updateProgress_keeps_states. frame userStates_quiet.
Qed.

Lemma feed_keeps_states lines last done_ :
  keeps (ofWorld I) (YouTube.feed lines last done_).
Proof.
  revert last done_. induction lines as [|[now line] lines IH];
    intros last done_; cbn [YouTube.feed].
  - apply keeps_ret.
  - pose proof parseYouTubeProgress_keeps_states.
    frame userStates_quiet; apply IH.
Qed.

Lemma downloadAndSendVideo_keeps_states remoteJid video quality :
  keeps I (YouTube.downloadAndSendVideo E remoteJid video quality).
Proof.
  unfold YouTube.downloadAndSendVideo, YouTube.supervise,
    YouTube.downloadYouTubeVideo.
  pose proof start_keeps_states. pose proof itemCompleted_keeps_states.
  pose proof finish_keeps_states. pose proof feed_keeps_states.
  assert (Hboth : forall a b : M world unit,
             keeps I a -> keeps I b -> keeps I (YouTube.both a b)).
  { intros a b Ha Hb w Hw. unfold YouTube.both.
    specialize (Ha w Hw). destruct (a w) as [[[]|e|] w1]; simpl in *; auto;
      specialize (Hb w1 Ha); destruct (b w1) as [[[]|e'|] w2];
      simpl in *; auto. }
  frame userStates_quiet.
  all: try (apply Hboth; frame userStates_quiet).
Qed.

(** Nothing on the path of a video selection writes the conversation
    states. *)
Lemma handleVideoSelection_keeps_states remoteJid selection :
  keeps I (YouTube.handleVideoSelection E remoteJid selection).
Proof.
  unfold YouTube.handleVideoSelection.
  pose proof downloadAndSendVideo_keeps_states.
  frame userStates_quiet.
Qed.

End VideoPath.

Lemma eqb_eq (a b : jsstring) : Js.eqb a b = true <-> a = b.
Proof.
  revert b. induction a as [|x a IH]; intros [|y b]; simpl; try done.
  rewrite andb_true_iff, IH, Z.eqb_eq. split.
  - by intros [-> ->].
  - by intros [= -> ->].
Qed.

Lemma stateIs_eq u name : Bot.stateIs u name = true -> state u = Js.lit name.
Proof. apply eqb_eq. Qed.

(** Whatever the collaborators do, a reply that the dispatcher accepts in
    the state of a video search leaves every conversation state as it
    was. *)
Lemma video_reply_keeps_states E H remoteJid trimmedText u w :
  Bot.stateIs u "video_search_results" = true ->
  Bot.isVideoReply trimmedText = true ->
  userStates (snd (Bot.dispatch E H remoteJid trimmedText u w)) = userStates w.
Proof.
  intros Hst Hre. apply stateIs_eq in Hst.
  unfold Bot.dispatch, Bot.stateIs. rewrite Hst.
  change (Js.eqb (Js.lit "video_search_results") (Js.lit "selecting_file"))
    with false.
  change (Js.eqb (Js.lit "video_search_results") (Js.lit "confirming_delete"))
    with false.
  change (Js.eqb (Js.lit "video_search_results") (Js.lit "video_search_results"))
    with true.
  cbv iota. rewrite Hre.
  apply (keeps_bind (fieldIs userStates (userStates w)));
    [|intros ?; apply keeps_ret|reflexivity].
  apply handleVideoSelection_keeps_states.
Qed.

(** C1, at the input where it fails: in the state of a video search with
    three cached results, the reply "2 720" makes the dispatcher start the
    download of the second result (index 1) in quality "720", and the
    state of the conversation is still the same entry afterwards: it is
    not cleared. *)
Theorem video_selection_state_not_cleared :
  calls (snd (Bot.messagesUpsertHandler working other_handlers
                (reply "2 720") (with_state awaiting_video)))
    = [AddSavedChat chat;
       DownloadYouTubeVideo (url (video "b")) (Js.lit "720")]
  /\ three_videos !! 1%nat = Some (video "b")
  /\ userStates (snd (Bot.messagesUpsertHandler working other_handlers
                        (reply "2 720") (with_state awaiting_video))) !! chat
     = Some awaiting_video.
Proof. vm_compute. repeat split; reflexivity. Qed.

(** ** Facts about the string primitives *)

Lemma digit_not_space c : Js.isDigit c = true -> Js.isSpace c = false.
Proof. unfold Js.isDigit, Js.isSpace. intros H. lia. Qed.

Lemma space_not_digit c : Js.isSpace c = true -> Js.isDigit c = false.
Proof. unfold Js.isDigit, Js.isSpace. intros H. lia. Qed.

Lemma span_app p (a r : jsstring) :
  forallb p a = true ->
  match r with [] => True | c :: _ => p c = false end ->
  Js.span p (a ++ r) = (a, r).
Proof.
  intros Ha Hr. induction a as [|x a IH]; simpl in *.
  - destruct r as [|c r]; [done|]. simpl. by rewrite Hr.
  - apply andb_true_iff in Ha as [Hx Ha]. by rewrite Hx, IH.
Qed.

Lemma span_all p (a : jsstring) : forallb p a = true -> Js.span p a = (a, []).
Proof. intros Ha. rewrite <- (app_nil_r a) at 1. by apply span_app. Qed.

Lemma span_spec p (s a r : jsstring) :
  Js.span p s = (a, r) ->
  s = a ++ r /\ forallb p a = true
  /\ match r with [] => True | c :: _ => p c = false end.
Proof.
  revert a r. induction s as [|c s IH]; intros a r; simpl.
  - by intros [= <- <-].
  - destruct (p c) eqn:Hc.
    + destruct (Js.span p s) as [a' r'] eqn:Hs. intros [= <- <-].
      destruct (IH a' r' eq_refl) as (-> & Ha & Hr).
      split; [done|]. split; [|done]. simpl. by rewrite Hc.
    + intros [= <- <-]. done.
Qed.

Lemma trimStart_id (s : jsstring) :
  match s with [] => True | c :: _ => Js.isSpace c = false end ->
  Js.trimStart s = s.
Proof.
  intros H. unfold Js.trimStart. destruct s as [|c s]; [done|]. simpl.
  by rewrite H.
Qed.

(** A string that neither starts nor ends with white space is its own
    trim. *)
Lemma trim_id (s : jsstring) c d :
  head s = Some c -> last s = Some d ->
  Js.isSpace c = false -> Js.isSpace d = false -> Js.trim s = s.
Proof.
  intros Hc Hd Hsc Hsd. unfold Js.trim, Js.trimEnd.
  rewrite (trimStart_id s).
  - rewrite trimStart_id; [apply rev_involutive|].
    destruct (rev s) as [|x l] eqn:Hrev; [done|].
    assert (last s = Some x) as Hx.
    { rewrite <- (rev_involutive s), Hrev. simpl. by rewrite last_snoc. }
    congruence.
  - destruct s; [done|]. simpl in Hc. congruence.
Qed.

Lemma digits_head_last (s : jsstring) :
  digits s -> exists c d, head s = Some c /\ last s = Some d
                     /\ Js.isDigit c = true /\ Js.isDigit d = true.
Proof.
  intros [Hne Hall]. rewrite forallb_forall in Hall.
  destruct s as [|c s]; [done|].
  destruct (last (c :: s)) as [d|] eqn:Hd.
  - exists c, d. repeat split; auto.
    + apply Hall. by left.
    + apply Hall. apply last_Some in Hd as [l' Hl]. rewrite Hl.
      apply in_or_app. right. by left.
  - by apply last_None in Hd.
Qed.

Lemma split_ws_word (a r cur : jsstring) in_ws :
  forallb (fun c => negb (Js.isSpace c)) a = true ->
  a <> [] \/ in_ws = false ->
  Js.split_ws_from in_ws cur (a ++ r) = Js.split_ws_from false (rev a ++ cur) r.
Proof.
  revert cur in_ws. induction a as [|x a IH]; intros cur in_ws Ha Hne.
  - destruct Hne as [?| ->]; done.
  - simpl in Ha. apply andb_true_iff in Ha as [Hx Ha].
    apply negb_true_iff in Hx. simpl. rewrite Hx.
    rewrite IH by auto. by rewrite <- app_assoc.
Qed.

Lemma split_ws_gap_more (gap r : jsstring) :
  forallb Js.isSpace gap = true ->
  Js.split_ws_from true [] (gap ++ r) = Js.split_ws_from true [] r.
Proof.
  induction gap as [|x gap IH]; intros Hg; [done|].
  simpl in Hg. apply andb_true_iff in Hg as [Hx Hg]. simpl.
  rewrite Hx. auto.
Qed.

Lemma split_ws_gap (gap r cur : jsstring) :
  blanks gap ->
  Js.split_ws_from false cur (gap ++ r) = rev cur :: Js.split_ws_from true [] r.
Proof.
  intros [Hne Hg]. destruct gap as [|x gap]; [done|].
  simpl in Hg. apply andb_true_iff in Hg as [Hx Hg]. simpl.
  rewrite Hx. by rewrite split_ws_gap_more.
Qed.

Lemma digits_no_space (s : jsstring) :
  forallb Js.isDigit s = true ->
  forallb (fun c => negb (Js.isSpace c)) s = true.
Proof.
  rewrite !forallb_forall. intros H c Hc.
  by rewrite digit_not_space by auto.
Qed.

Lemma split_ws_two (first gap second : jsstring) :
  digits first -> blanks gap -> digits second ->
  Js.split_ws (first ++ gap ++ second) = [first; second].
Proof.
  intros [Hf1 Hf2] Hg [Hs1 Hs2]. unfold Js.split_ws.
  rewrite split_ws_word by auto using digits_no_space.
  rewrite split_ws_gap by done. rewrite app_nil_r, rev_involutive.
  rewrite <- (app_nil_r second) at 1.
  rewrite split_ws_word by auto using digits_no_space.
  simpl. by rewrite app_nil_r, rev_involutive.
Qed.

Lemma split_ws_one (first : jsstring) :
  digits first -> Js.split_ws first = [first].
Proof.
  intros [Hf1 Hf2]. unfold Js.split_ws.
  rewrite <- (app_nil_r first) at 1.
  rewrite split_ws_word by auto using digits_no_space.
  simpl. by rewrite app_nil_r, rev_involutive.
Qed.

Lemma trim_digits_ends (s : jsstring) c d :
  head s = Some c -> last s = Some d ->
  Js.isDigit c = true -> Js.isDigit d = true -> Js.trim s = s.
Proof.
  intros. eapply trim_id; eauto using digit_not_space.
Qed.

Lemma trim_two (first gap second : jsstring) :
  digits first -> digits second ->
  Js.trim (first ++ gap ++ second) = first ++ gap ++ second.
Proof.
  intros Hf Hs.
  destruct (digits_head_last first Hf) as (c & _ & Hc & _ & Hdc & _).
  destruct (digits_head_last second Hs) as (_ & d & _ & Hd & _ & Hdd).
  apply (trim_digits_ends _ c d); auto.
  - destruct first; [done|]. exact Hc.
  - rewrite app_assoc. rewrite last_app. by rewrite Hd.
Qed.

Lemma trim_one (first : jsstring) : digits first -> Js.trim first = first.
Proof.
  intros Hf.
  destruct (digits_head_last first Hf) as (c & d & Hc & Hd & Hdc & Hdd).
  by apply (trim_digits_ends _ c d).
Qed.

(** [parseInt] of a run of digits is the number they spell. *)
Lemma parseInt_digits (s : jsstring) :
  digits s -> Js.parseInt s = Some (Js.decimal s).
Proof.
  intros Hs. pose proof Hs as [Hne Hall].
  destruct (digits_head_last s Hs) as (c & _ & Hc & _ & Hdc & _).
  unfold Js.parseInt. rewrite trimStart_id.
  2:{ destruct s; [done|]. injection Hc as ->. by apply digit_not_space. }
  destruct s as [|c0 s]; [done|]. injection Hc as ->.
  assert ((c =? 45) = false) as -> by (unfold Js.isDigit in Hdc; lia).
  assert ((c =? 43) = false) as -> by (unfold Js.isDigit in Hdc; lia).
  assert ((let '(hex, s3) :=
             match c :: s with
             | c0 :: c1 :: r =>
                 if (c0 =? 48) && ((c1 =? 120) || (c1 =? 88)) then (true, r)
                 else (false, c :: s)
             | _ => (false, c :: s)
             end in
           if hex
           then match fst (Js.span Js.isHexDigit s3) with
                | [] => None
                | ds => Some (1 * Js.hexadecimal ds)
                end
           else match fst (Js.span Js.isDigit s3) with
                | [] => None
                | ds => Some (1 * Js.decimal ds)
                end) = Some (Js.decimal (c :: s))) as Hgoal; [|exact Hgoal].
  assert (match c :: s with
          | c0 :: c1 :: r =>
              if (c0 =? 48) && ((c1 =? 120) || (c1 =? 88)) then (true, r)
              else (false, c :: s)
          | _ => (false, c :: s)
          end = (false, c :: s)) as ->.
  { destruct s as [|c1 r]; [done|].
    simpl in Hall. apply andb_true_iff in Hall as [_ Hall].
    apply andb_true_iff in Hall as [H1 _].
    assert (((c1 =? 120) || (c1 =? 88)) = false) as ->
      by (unfold Js.isDigit in H1; lia).
    by rewrite andb_false_r. }
  rewrite span_all by done. simpl fst.
  f_equal. destruct (Js.decimal (c :: s)); reflexivity.
Qed.

(** ** Channel selection *)

Lemma digits1_app (a r : jsstring) :
  digits a ->
  match r with [] => True | c :: _ => Js.isDigit c = false end ->
  Bot.digits1 (a ++ r) = Some r.
Proof.
  intros [Hne Ha] Hr. unfold Bot.digits1. rewrite span_app by done.
  by destruct a.
Qed.

Lemma isNumber_digits (a : jsstring) : digits a -> Bot.isNumber a = true.
Proof.
  intros Ha. unfold Bot.isNumber. rewrite <- (app_nil_r a).
  by rewrite digits1_app.
Qed.

Lemma isNumber_spec (s : jsstring) : Bot.isNumber s = true -> digits s.
Proof.
  unfold Bot.isNumber, Bot.digits1.
  destruct (Js.span Js.isDigit s) as [a r] eqn:Hspan.
  apply span_spec in Hspan as (-> & Ha & _).
  destruct a as [|c a]; [done|]. destruct r; [|done].
  intros _. rewrite app_nil_r. by split.
Qed.

Lemma isChannelReply_one (first : jsstring) :
  digits first -> Bot.isChannelReply first = true.
Proof.
  intros Hf. unfold Bot.isChannelReply. rewrite <- (app_nil_r first).
  by rewrite digits1_app.
Qed.

Lemma isChannelReply_two (first gap second : jsstring) :
  digits first -> blanks gap -> digits second ->
  Bot.isChannelReply (first ++ gap ++ second) = true.
Proof.
  intros Hf [Hg1 Hg2] Hs. unfold Bot.isChannelReply.
  destruct gap as [|g gap]; [done|].
  rewrite digits1_app; [|done|].
  2:{ simpl in *. apply andb_true_iff in Hg2 as [Hg _].
      by apply space_not_digit. }
  change ((g :: gap) ++ second) with (g :: (gap ++ second)).
  change (g :: (gap ++ second)) with ((g :: gap) ++ second).
  unfold Js.spaces1. rewrite span_app; [|done|].
  2:{ destruct Hs as [Hs1 Hs2]. destruct second as [|c second]; [done|].
      simpl in Hs2. apply andb_true_iff in Hs2 as [Hc _].
      by apply digit_not_space. }
  simpl. by apply isNumber_digits.
Qed.

(** What the dispatcher accepts in the state of a channel search is one
    number, or two numbers with white space between them. *)
Lemma isChannelReply_spec (text : jsstring) :
  Bot.isChannelReply text = true ->
  digits text
  \/ exists first gap second,
       text = first ++ gap ++ second
       /\ digits first /\ blanks gap /\ digits second.
Proof.
  unfold Bot.isChannelReply, Bot.digits1.
  destruct (Js.span Js.isDigit text) as [a r] eqn:Hspan.
  apply span_spec in Hspan as (-> & Ha & _).
  destruct a as [|c a]; [done|]. destruct r as [|x r].
  - intros _. left. rewrite app_nil_r. by split.
  - unfold Js.spaces1.
    destruct (Js.span Js.isSpace (x :: r)) as [g q] eqn:Hgap.
    apply span_spec in Hgap as (Hxr & Hg & _).
    destruct g as [|y g]; simpl; [discriminate|]. intros Hq%isNumber_spec.
    right. exists (c :: a), (y :: g), q. rewrite Hxr.
    split; [done|]. split; [by split|]. split; [by split|done].
Qed.

Lemma videoCountOf_one (first : jsstring) :
  digits first ->
  YouTube.videoCountOf (Js.split_ws (Js.trim first)) = Some 10.
Proof. intros Hf. by rewrite trim_one, split_ws_one. Qed.

Lemma videoCountOf_two (first gap second : jsstring) :
  digits first -> blanks gap -> digits second ->
  YouTube.videoCountOf (Js.split_ws (Js.trim (first ++ gap ++ second)))
  = Some (Z.min (Js.decimal second) 20).
Proof.
  intros Hf Hg Hs. rewrite trim_two, split_ws_two by done.
  simpl. by rewrite parseInt_digits.
Qed.

Section Leads.

Context {S : Type}.

Lemma leads_bind {A B} (P R Q : S -> Prop) (m : M S A) (k : A -> M S B) :
  leads P m R -> (forall s, R s -> Q s) -> (forall a, leads R (k a) Q) ->
  leads P (bind m k) Q.
Proof.
  intros Hm HRQ Hk s Hs. unfold bind. specialize (Hm s Hs).
  destruct (m s) as [[a|e|] s']; simpl in *; auto. by apply Hk.
Qed.

Lemma leads_try_catch {A} (P R Q : S -> Prop) (m : M S A) h :
  leads P m R -> (forall s, R s -> Q s) -> (forall e, leads R (h e) Q) ->
  leads P (try_catch m h) Q.
Proof.
  intros Hm HRQ Hh s Hs. unfold try_catch. specialize (Hm s Hs).
  destruct (m s) as [[a|e|] s']; simpl in *; auto. by apply Hh.
Qed.

Lemma keeps_leads {A} (I Q : S -> Prop) (m : M S A) :
  keeps I m -> (forall s, I s -> Q s) -> leads I m Q.
Proof. intros Hm HIQ s Hs. apply HIQ. by apply Hm. Qed.

End Leads.

(** A computation that keeps every value of a component keeps every
    property of that component. *)
Lemma keeps_field {X A} (f : world -> X) (m : M world A) (P : X -> Prop) :
  (forall x, keeps (fieldIs f x) m) -> keeps (fun w => P (f w)) m.
Proof.
  intros Hm w Hw. specialize (Hm (f w) w eq_refl). unfold fieldIs in Hm.
  by rewrite Hm.
Qed.

Section BatchFrame.

Context {X : Type} (f : world -> X) (Hf : quiet_field f) (x : X).
Context (E : environment).

Lemma send_cards_keeps remoteJid videoData :
  keeps (fieldIs f x) (YouTube.send_cards remoteJid videoData).
Proof.
  induction videoData as [|data rest IH]; cbn [YouTube.send_cards].
  - apply keeps_ret.
  - unfold YouTube.send_card. frame Hf.
Qed.

Lemma promise_all_keeps {A} (promises : list A) order :
  keeps (fieldIs f x) (YouTube.promise_all promises order).
Proof. unfold YouTube.promise_all. frame Hf. Qed.

Lemma sendVideoSearchResults_keeps remoteJid videos :
  keeps (fieldIs f x) (YouTube.sendVideoSearchResults E remoteJid videos).
Proof.
  unfold YouTube.sendVideoSearchResults.
  pose proof send_cards_keeps. pose proof (@promise_all_keeps YouTube.card).
  frame Hf.
Qed.

Lemma sendChannelLatestVideos_keeps remoteJid videos channelTitle count :
  keeps (fieldIs f x)
    (YouTube.sendChannelLatestVideos E remoteJid videos channelTitle count).
Proof.
  unfold YouTube.sendChannelLatestVideos.
  pose proof send_cards_keeps. pose proof (@promise_all_keeps YouTube.card).
  frame Hf.
Qed.

End BatchFrame.

(** The only request [handleChannelSelection] makes is one call of
    [getChannelLatestVideos], and it asks for the number of videos that
    [videoCountOf] computes from the reply. *)
Lemma handleChannelSelection_calls E remoteJid selection w :
  new_calls (YouTube.handleChannelSelection E remoteJid selection) w = []
  \/ exists channelId,
       new_calls (YouTube.handleChannelSelection E remoteJid selection) w
       = [GetChannelLatestVideos channelId
            (YouTube.videoCountOf (Js.split_ws (Js.trim selection)))].
Proof.
  set (count := YouTube.videoCountOf (Js.split_ws (Js.trim selection))).
  set (Q := fun cs : list call =>
              cs = calls w
              \/ exists channelId,
                   cs = calls w ++ [GetChannelLatestVideos channelId count]).
  assert (HQ : leads (fieldIs calls (calls w))
                 (YouTube.handleChannelSelection E remoteJid selection)
                 (fun w' => Q (calls w'))).
  { assert (Hleft : forall s, fieldIs calls (calls w) s -> Q (calls s))
      by (intros s Hs; left; exact Hs).
    unfold YouTube.handleChannelSelection.
    apply (leads_bind _ (fieldIs calls (calls w))); [|exact Hleft|].
    { apply keeps_leads; [apply keeps_gets|auto]. }
    intros [u|]; [|apply keeps_leads; [frame calls_quiet|exact Hleft]].
    destruct (negb _); [apply keeps_leads; [frame calls_quiet|exact Hleft]|].
    destruct (searchResults u) as [channels|];
      [|apply keeps_leads; [frame calls_quiet|exact Hleft]].
    destruct (negb _); [apply keeps_leads; [frame calls_quiet|exact Hleft]|].
    destruct (option_map _ _) as [i|];
      [|apply keeps_leads; [frame calls_quiet|exact Hleft]].
    destruct (channels !! Z.to_nat i) as [channel|];
      [|apply keeps_leads; [frame calls_quiet|exact Hleft]].
    apply (leads_try_catch _ (fun w' => Q (calls w'))); [|auto|].
    2:{ intros e. apply keeps_leads; [|auto].
        apply keeps_field. intros cs. frame calls_quiet. }
    apply (leads_bind _ (fieldIs calls (calls w))); [|exact Hleft|intros _].
    { apply keeps_leads; [frame calls_quiet|auto]. }
    apply (leads_bind _ (fieldIs calls (calls w))); [|exact Hleft|intros _].
    { apply keeps_leads; [frame calls_quiet|auto]. }
    assert (Hright : forall s,
      fieldIs calls (calls w ++ [GetChannelLatestVideos (id channel) count]) s
      -> Q (calls s)) by (intros s Hs; right; eexists; exact Hs).
    apply (leads_bind _ (fieldIs calls
             (calls w ++ [GetChannelLatestVideos (id channel) count])));
      [|exact Hright|intros videosResult].
    { intros s Hs. unfold fieldIs in *. simpl. by rewrite Hs. }
    apply keeps_leads; [|exact Hright].
    pose proof (sendChannelLatestVideos_keeps calls calls_quiet
                  (calls w ++ [GetChannelLatestVideos (id channel) count]) E).
    assert (forall v vs, keeps
              (fieldIs calls
                 (calls w ++ [GetChannelLatestVideos (id channel) count]))
              (modify (YouTube.with_channel_videos remoteJid (v :: vs) channel)))
      by (intros v vs s Hs; exact Hs).
    frame calls_quiet. }
  specialize (HQ w eq_refl). unfold new_calls.
  destruct HQ as [-> | [channelId ->]].
  - left. by rewrite drop_all.
  - right. exists channelId. by rewrite drop_app_length.
Qed.

Lemma sendMessage_text_works remoteJid t w :
  send_faults w = [] ->
  sendMessage remoteJid (Text t) w
  = (Ok (next_key w),
     set_transport w (delivered w ++ [(remoteJid, Text t, next_key w)])
       (live w ++ [next_key w]) (Datatypes.S (next_key w)) []
       (delete_faults w)).
Proof. intros Hf. unfold sendMessage. by rewrite Hf. Qed.

Lemma succeeds_leads {S A B} (P : S -> Prop) (R : A -> S -> Prop)
    (Q : S -> Prop) (m : M S A) (k : A -> M S B) :
  (forall s, P s -> exists a, fst (m s) = Ok a /\ R a (snd (m s))) ->
  (forall a, leads (R a) (k a) Q) ->
  leads P (bind m k) Q.
Proof.
  intros Hm Hk s Hs. unfold bind. destruct (Hm s Hs) as (a & Ha & HR).
  destruct (m s) as [r s']. simpl in *. subst r. by apply Hk.
Qed.

Lemma sendPresenceUpdate_works cs w :
  working_with cs w ->
  exists a, fst (sendPresenceUpdate w) = Ok a
            /\ working_with cs (snd (sendPresenceUpdate w)).
Proof.
  intros [Hf Hc]. unfold sendPresenceUpdate, working_with. rewrite Hf.
  by exists tt.
Qed.

Lemma sendMessage_text_working cs remoteJid t w :
  working_with cs w ->
  exists a, fst (sendMessage remoteJid (Text t) w) = Ok a
            /\ working_with cs (snd (sendMessage remoteJid (Text t) w)).
Proof.
  intros [Hf Hc]. rewrite sendMessage_text_works by done.
  by eexists.
Qed.

(** With a valid channel number and a working transport, the request is
    made, for the selected channel and with the count computed from the
    reply. *)
Lemma handleChannelSelection_requests E remoteJid selection w channels i
    channel :
  userStates w !! remoteJid = Some (channel_search channels) ->
  Js.parseInt (hd [] (Js.split_ws (Js.trim selection)))
    = Some (Z.of_nat i + 1) ->
  channels !! i = Some channel ->
  send_faults w = [] ->
  new_calls (YouTube.handleChannelSelection E remoteJid selection) w
  = [GetChannelLatestVideos (id channel)
       (YouTube.videoCountOf (Js.split_ws (Js.trim selection)))].
Proof.
  intros Hstate Hparse Hchannel Hf.
  set (count := YouTube.videoCountOf (Js.split_ws (Js.trim selection))).
  set (request := GetChannelLatestVideos (id channel) count).
  assert (Hcalls : calls (snd (YouTube.handleChannelSelection E remoteJid
                                 selection w))
                   = calls w ++ [request]).
  2:{ unfold new_calls. rewrite Hcalls. by rewrite drop_app_length. }
  unfold YouTube.handleChannelSelection.
  unfold bind at 1. unfold gets. cbv beta iota. rewrite Hstate.
  cbn [state searchResults channel_search].
  rewrite (proj2 (eqb_eq _ _) eq_refl). cbn [negb].
  rewrite Hparse. cbn [option_map]. unfold YouTube.validIndex.
  assert (Hi : (i < length channels)%nat) by (by eapply lookup_lt_Some).
  replace (Z.of_nat i + 1 - 1 <? 0) with false by lia.
  replace (Z.of_nat i + 1 - 1 >=? Z.of_nat (length channels)) with false
    by lia.
  cbn [negb andb].
  replace (Z.to_nat (Z.of_nat i + 1 - 1)) with i by lia.
  rewrite Hchannel. fold count.
  apply (leads_try_catch (working_with (calls w))
           (fieldIs calls (calls w ++ [request]))
           (fieldIs calls (calls w ++ [request]))); [|auto| |done].
  2:{ intros e. apply keeps_leads; [frame calls_quiet|auto]. }
  apply (succeeds_leads (working_with (calls w))
           (fun _ => working_with (calls w)));
    [apply sendPresenceUpdate_works|intros ?].
  apply (succeeds_leads (working_with (calls w))
           (fun _ => working_with (calls w)));
    [apply sendMessage_text_working|intros ?].
  apply (leads_bind _ (fieldIs calls (calls w ++ [request])));
    [|auto|intros videosResult].
  { intros s [_ Hs]. unfold fieldIs. simpl. by rewrite Hs. }
  apply keeps_leads; [|auto].
  pose proof (sendChannelLatestVideos_keeps calls calls_quiet
                (calls w ++ [request]) E).
  assert (forall v vs, keeps (fieldIs calls (calls w ++ [request]))
            (modify (YouTube.with_channel_videos remoteJid (v :: vs) channel)))
    by (intros v vs s Hs; exact Hs).
  frame calls_quiet.
Qed.

Lemma requests_with_count E remoteJid selection w count :
  YouTube.videoCountOf (Js.split_ws (Js.trim selection)) = count ->
  Forall (fun c => exists channelId,
            c = GetChannelLatestVideos channelId count)
    (new_calls (YouTube.handleChannelSelection E remoteJid selection) w).
Proof.
  intros <-.
  destruct (handleChannelSelection_calls E remoteJid selection w)
    as [-> | [channelId ->]]; [constructor|].
  constructor; [by exists channelId|constructor].
Qed.

(** C10: a reply that the dispatcher accepts in the state of a channel
    search is one number, or two numbers separated by white space.  For
    one number the handler asks for 10 videos; for two it asks for the
    smaller of the second number and 20.  Every request for the latest
    videos of a channel that the handler makes carries that count, and
    with a valid channel number and a working transport the request is
    made. *)
Theorem channel_selection_video_count (E : environment)
    (remoteJid : jsstring) (w : world) :
  (forall first, digits first ->
     Bot.isChannelReply first = true
     /\ YouTube.videoCountOf (Js.split_ws (Js.trim first)) = Some 10
     /\ Forall (fun c => exists channelId,
                  c = GetChannelLatestVideos channelId (Some 10))
          (new_calls (YouTube.handleChannelSelection E remoteJid first) w))
  /\ (forall first gap second,
        digits first -> blanks gap -> digits second ->
        Bot.isChannelReply (first ++ gap ++ second) = true
        /\ YouTube.videoCountOf (Js.split_ws (Js.trim (first ++ gap ++ second)))
           = Some (Z.min (Js.decimal second) 20)
        /\ Forall (fun c => exists channelId,
                     c = GetChannelLatestVideos channelId
                           (Some (Z.min (Js.decimal second) 20)))
             (new_calls (YouTube.handleChannelSelection E remoteJid
                           (first ++ gap ++ second)) w))
  /\ (forall text, Bot.isChannelReply text = true ->
        digits text
        \/ exists first gap second,
             text = first ++ gap ++ second
             /\ digits first /\ blanks gap /\ digits second)
  /\ (forall selection channels i channel,
        userStates w !! remoteJid = Some (channel_search channels) ->
        Js.parseInt (hd [] (Js.split_ws (Js.trim selection)))
          = Some (Z.of_nat i + 1) ->
        channels !! i = Some channel ->
        send_faults w = [] ->
        new_calls (YouTube.handleChannelSelection E remoteJid selection) w
        = [GetChannelLatestVideos (id channel)
             (YouTube.videoCountOf (Js.split_ws (Js.trim selection)))]).
Proof.
  split; [|split; [|split]].
  - intros first Hf. split; [by apply isChannelReply_one|].
    split; [by apply videoCountOf_one|].
    apply requests_with_count. by apply videoCountOf_one.
  - intros first gap second Hf Hg Hs.
    split; [by apply isChannelReply_two|].
    split; [by apply videoCountOf_two|].
    apply requests_with_count. by apply videoCountOf_two.
  - apply isChannelReply_spec.
  - intros selection channels i channel.
    apply handleChannelSelection_requests.
Qed.

Lemma channel_selection_video_count_witness :
  digits (Js.lit "2") /\ blanks (Js.lit " ") /\ digits (Js.lit "35")
  /\ new_calls (YouTube.handleChannelSelection working chat (Js.lit "2 35"))
       (with_state awaiting_channel)
     = [GetChannelLatestVideos (Js.lit "b") (Some 20)]
  /\ new_calls (YouTube.handleChannelSelection working chat (Js.lit "2"))
       (with_state awaiting_channel)
     = [GetChannelLatestVideos (Js.lit "b") (Some 10)]
  /\ Forall (fun c => exists channelId,
               c = GetChannelLatestVideos channelId
                     (Some (Z.min (Js.decimal (Js.lit "35")) 20)))
       (new_calls (YouTube.handleChannelSelection working chat
                     (Js.lit "2" ++ Js.lit " " ++ Js.lit "35"))
          (with_state awaiting_channel)).
Proof.
  assert (H2 : digits (Js.lit "2")) by (split; [discriminate|reflexivity]).
  assert (Hb : blanks (Js.lit " ")) by (split; [discriminate|reflexivity]).
  assert (H35 : digits (Js.lit "35")) by (split; [discriminate|reflexivity]).
  split; [exact H2|]. split; [exact Hb|]. split; [exact H35|].
  split; [vm_compute; reflexivity|]. split; [vm_compute; reflexivity|].
  exact (proj2 (proj2 (proj1 (proj2
    (channel_selection_video_count working chat (with_state awaiting_channel)))
    (Js.lit "2") (Js.lit " ") (Js.lit "35") H2 Hb H35))).
Defined.

(** ** Monotonic progress *)

Lemma Qltb_lt (a b : Q) : Qltb a b = true -> (a < b)%Q.
Proof.
  unfold Qltb. intros H. apply negb_true_iff in H.
  apply Qnot_le_lt. intros Hle. apply Qle_bool_iff in Hle. congruence.
Qed.

(** One line through the parser of progress.js: the tracker is left as it
    was, or the line has a percentage above the recorded one and a total
    size, and that percentage is recorded. *)
Lemma parseYouTubeProgress_step now line t :
  Progress.parseYouTubeProgress now line t = t
  \/ exists p, hasPercentage line p /\ hasTotalSize line
       /\ (progress (Progress.youtubeProgress t) < p)%Q
       /\ ~ isNoise line
       /\ progress (Progress.youtubeProgress
                      (Progress.parseYouTubeProgress now line t)) = p.
Proof.
  unfold Progress.parseYouTubeProgress.
  destruct (_ && _); [|by left].
  destruct (Js.includes (Js.lit "fragment") line) eqn:Hfr; [by left|].
  destruct (Js.includes (Js.lit "audio only") line) eqn:Hau; [by left|].
  simpl orb. cbv iota.
  destruct (Js.percentMatch line) as [token|] eqn:Htok; [|by left].
  destruct (Js.parseFloat token) as [p|] eqn:Hp; [|by left].
  destruct (Qgeb p 100 && _); [by left|].
  destruct (Js.sizeMatch line) as [size|] eqn:Hsize; [|by left].
  simpl Js.group_or_empty.
  destruct (Js.truthy size); [|by left]. simpl andb.
  destruct (Qltb _ p) eqn:Hlt; [|by left].
  right. exists p. split; [by exists token|]. split; [by exists size|].
  split; [by apply Qltb_lt|]. split; [|reflexivity].
  intros [H|H]; congruence.
Qed.

Lemma parseYouTubeProgress_noise now line t :
  isNoise line -> Progress.parseYouTubeProgress now line t = t.
Proof.
  intros Hn. unfold Progress.parseYouTubeProgress.
  destruct (_ && _); [|done].
  destruct Hn as [-> | ->]; [done|]. by rewrite orb_true_r.
Qed.

Lemma parseYouTubeProgress_le now line t :
  (progress (Progress.youtubeProgress t)
   <= progress (Progress.youtubeProgress
                  (Progress.parseYouTubeProgress now line t)))%Q.
Proof.
  destruct (parseYouTubeProgress_step now line t)
    as [-> | (p & _ & _ & Hlt & _ & ->)].
  - apply Qle_refl.
  - by apply Qlt_le_weak.
Qed.

Lemma recorded_above lines t x :
  (x <= progress (Progress.youtubeProgress t))%Q ->
  Forall (Qle x) (recorded lines t).
Proof.
  revert t. induction lines as [|[now line] lines IH]; intros t Hx; simpl.
  - constructor.
  - assert (x <= progress (Progress.youtubeProgress
                             (Progress.parseYouTubeProgress now line t)))%Q
      by (eapply Qle_trans; [exact Hx|apply parseYouTubeProgress_le]).
    constructor; auto.
Qed.

Lemma recorded_nondecreasing lines t :
  nondecreasing (progress (Progress.youtubeProgress t) :: recorded lines t).
Proof.
  unfold nondecreasing. constructor.
  - revert t. induction lines as [|[now line] lines IH]; intros t; simpl.
    + constructor.
    + constructor; [apply IH|]. apply recorded_above, Qle_refl.
  - apply recorded_above, Qle_refl.
Qed.

(** [updateProgress] leaves the sample of the tracker as it was, or
    replaces it by its argument. *)
Lemma updateProgress_sample now data s :
  Performance.progressData (fst (snd (Performance.updateProgress now data s)))
    = Performance.progressData (fst s)
  \/ Performance.progressData (fst (snd (Performance.updateProgress now data s)))
    = data.
Proof.
  destruct s as [t w].
  unfold Performance.updateProgress, bind, this, gets, set_this, modify,
    try_catch, onWorld, ret.
  cbn -[sendMessage Z.ltb].
  destruct (_ <? _); [by left|]. right.
  destruct (Performance.lastProgressMessageId t) as [key|];
    cbn -[sendMessage];
    repeat match goal with
           | |- context [sendMessage ?j ?c ?w0] =>
               destruct (sendMessage j c w0) as [[?|?|] ?];
               cbn -[sendMessage]
           end; done.
Qed.

(** One line through the parser of youtube.js: nothing happens, or the
    line has a percentage above the recorded one and a total size, and a
    sample with that percentage is handed to [updateProgress]. *)
Lemma parseYouTubeProgress_optimized_cases now line s :
  YouTube.parseYouTubeProgress now line s = (Ok tt, s)
  \/ exists p data, hasPercentage line p /\ hasTotalSize line
       /\ (progress (Performance.progressData (fst s)) < p)%Q
       /\ ~ isNoise line
       /\ progress data = p
       /\ YouTube.parseYouTubeProgress now line s
          = try_catch (Performance.updateProgress now data)
              (fun _ => ret tt) s.
Proof.
  unfold YouTube.parseYouTubeProgress, bind, this, gets. simpl.
  destruct (_ && _); [|left; reflexivity].
  destruct (Js.includes (Js.lit "fragment") line) eqn:Hfr; [left; reflexivity|].
  destruct (Js.includes (Js.lit "audio only") line) eqn:Hau; [left; reflexivity|].
  change (false || false) with false. cbv iota.
  destruct (Js.percentMatch line) as [token|] eqn:Htok; [|left; reflexivity].
  destruct (Js.parseFloat token) as [p|] eqn:Hp; [|left; reflexivity].
  destruct (Qgeb p 100 && _); [left; reflexivity|].
  destruct (Js.sizeMatch line) as [size|] eqn:Hsize; [|left; reflexivity].
  change (Js.group_or_empty (Some size)) with size.
  destruct (Js.truthy size); [|left; reflexivity].
  rewrite andb_true_l.
  destruct (Qltb _ p) eqn:Hlt; [|left; reflexivity].
  right. exists p. eexists.
  split; [by exists token|]. split; [by exists size|].
  split; [by apply Qltb_lt|].
  split; [intros [H|H]; congruence|].
  split; [|reflexivity]. reflexivity.
Qed.

(** The same, seen on the sample of the tracker. *)
Lemma parseYouTubeProgress_optimized_step now line s :
  Performance.progressData (fst (snd (YouTube.parseYouTubeProgress now line s)))
    = Performance.progressData (fst s)
  \/ exists p, hasPercentage line p /\ hasTotalSize line
       /\ (progress (Performance.progressData (fst s)) < p)%Q
       /\ ~ isNoise line
       /\ progress (Performance.progressData
                      (fst (snd (YouTube.parseYouTubeProgress now line s)))) = p.
Proof.
  destruct (parseYouTubeProgress_optimized_cases now line s)
    as [-> | (p & data & Hp & Hs & Hlt & Hn & Hd & ->)]; [by left|].
  assert (Heq : fst (snd (try_catch (Performance.updateProgress now data)
                            (fun _ => ret tt) s))
                = fst (snd (Performance.updateProgress now data s))).
  { unfold try_catch.
    by destruct (Performance.updateProgress now data s) as [[[]|e|] s']. }
  rewrite Heq.
  destruct (updateProgress_sample now data s) as [Hup|Hup]; [by left|].
  right. exists p. rewrite Hup. by repeat split.
Qed.

Lemma parseYouTubeProgress_optimized_noise now line s :
  isNoise line -> YouTube.parseYouTubeProgress now line s = (Ok tt, s).
Proof.
  intros Hn. unfold YouTube.parseYouTubeProgress, bind, this, gets. simpl.
  destruct (_ && _); [|done].
  destruct Hn as [-> | ->]; [done|]. by rewrite orb_true_r.
Qed.

Lemma parseYouTubeProgress_optimized_le now line s :
  (progress (Performance.progressData (fst s))
   <= progress (Performance.progressData
                  (fst (snd (YouTube.parseYouTubeProgress now line s)))))%Q.
Proof.
  destruct (parseYouTubeProgress_optimized_step now line s)
    as [-> | (p & _ & _ & Hlt & _ & ->)].
  - apply Qle_refl.
  - by apply Qlt_le_weak.
Qed.

Lemma recorded_optimized_above lines s x :
  (x <= progress (Performance.progressData (fst s)))%Q ->
  Forall (Qle x) (recorded_optimized lines s).
Proof.
  revert s. induction lines as [|[now line] lines IH]; intros s Hx; simpl.
  - constructor.
  - assert (x <= progress (Performance.progressData
              (fst (snd (YouTube.parseYouTubeProgress now line s)))))%Q
      by (eapply Qle_trans; [exact Hx|apply parseYouTubeProgress_optimized_le]).
    constructor; auto.
Qed.

Lemma recorded_optimized_nondecreasing lines s :
  nondecreasing (progress (Performance.progressData (fst s))
                 :: recorded_optimized lines s).
Proof.
  unfold nondecreasing. constructor.
  - revert s. induction lines as [|[now line] lines IH]; intros s; simpl.
    + constructor.
    + constructor; [apply IH|]. apply recorded_optimized_above, Qle_refl.
  - apply recorded_optimized_above, Qle_refl.
Qed.

(** C4: for every sequence of lines given to the progress parser of a
    job, the percentages the tracker records form a non-decreasing
    sequence; a line changes the recorded sample only if it has a
    percentage token and a total-size token and its percentage is strictly
    above the recorded one; and a line that contains "fragment" or "audio
    only" leaves the tracker as it was.  This holds for the parser of
    progress.js on the standard tracker and for the parser of youtube.js
    on the optimized tracker. *)
Theorem progress_monotonic :
  (forall lines t,
     nondecreasing (progress (Progress.youtubeProgress t) :: recorded lines t))
  /\ (forall now line t,
        Progress.parseYouTubeProgress now line t = t
        \/ exists p, hasPercentage line p /\ hasTotalSize line
             /\ (progress (Progress.youtubeProgress t) < p)%Q
             /\ ~ isNoise line
             /\ progress (Progress.youtubeProgress
                            (Progress.parseYouTubeProgress now line t)) = p)
  /\ (forall now line t,
        isNoise line -> Progress.parseYouTubeProgress now line t = t)
  /\ (forall lines s,
        nondecreasing (progress (Performance.progressData (fst s))
                       :: recorded_optimized lines s))
  /\ (forall now line s,
        Performance.progressData
          (fst (snd (YouTube.parseYouTubeProgress now line s)))
          = Performance.progressData (fst s)
        \/ exists p, hasPercentage line p /\ hasTotalSize line
             /\ (progress (Performance.progressData (fst s)) < p)%Q
             /\ ~ isNoise line
             /\ progress (Performance.progressData
                  (fst (snd (YouTube.parseYouTubeProgress now line s)))) = p)
  /\ (forall now line s,
        isNoise line -> YouTube.parseYouTubeProgress now line s = (Ok tt, s)).
Proof.
  split; [exact recorded_nondecreasing|].
  split; [exact parseYouTubeProgress_step|].
  split; [exact parseYouTubeProgress_noise|].
  split; [exact recorded_optimized_nondecreasing|].
  split; [exact parseYouTubeProgress_optimized_step|].
  exact parseYouTubeProgress_optimized_noise.
Qed.

Lemma progress_monotonic_witness :
  isNoise (Js.lit "[download]  12.0% of 3.00MiB (fragment 2/9)")
  /\ Progress.parseYouTubeProgress 4000
       (Js.lit "[download]  12.0% of 3.00MiB (fragment 2/9)")
       (Progress.new chat 1 (Js.lit "episode") 1000)
     = Progress.new chat 1 (Js.lit "episode") 1000
  /\ recorded [(3000, Js.lit "[download]  40.0% of 3.00MiB at 1.00MiB/s");
               (6000, Js.lit "[download]  12.0% of 3.00MiB at 1.00MiB/s");
               (9000, Js.lit "[download]  70.5% of 3.00MiB at 1.00MiB/s")]
       (Progress.new chat 1 (Js.lit "episode") 1000)
     = [400 # 10; 400 # 10; 705 # 10]%Q.
Proof.
  assert (Hn : isNoise (Js.lit "[download]  12.0% of 3.00MiB (fragment 2/9)"))
    by (left; reflexivity).
  split; [exact Hn|]. split; [|reflexivity].
  exact (proj1 (proj2 (proj2 progress_monotonic)) 4000 _ _ Hn).
Defined.

(** ** The converting sample *)

Lemma conversion_branch_fires now line s :
  isConversion line ->
  Music.conversion_branch now line s
  = try_catch (Performance.updateProgress now Music.converting)
      (fun _ => ret tt) s.
Proof.
  intros (Hf & Hd & _). unfold Music.conversion_branch. by rewrite Hf, Hd.
Qed.

Lemma sendMessage_delete_faults remoteJid c w :
  send_faults (snd (sendMessage remoteJid (Delete c) w)) = send_faults w.
Proof.
  unfold sendMessage. by destruct (delete_faults w) as [|[] ?].
Qed.

(** When the debounce lets it through, [updateProgress] records its
    argument; on a transport that works it also delivers the text of that
    sample as the last message. *)
Lemma updateProgress_records now data t w :
  Performance.updateThreshold t <= now - Performance.lastUpdate t ->
  Performance.progressData
    (fst (snd (Performance.updateProgress now data (t, w)))) = data
  /\ (send_faults w = [] ->
      last (outbox (snd (snd (Performance.updateProgress now data (t, w)))))
      = Some (Performance.remoteJid t,
              Text (TProcessing (Performance.itemType t) data))).
Proof.
  intros Hgate.
  unfold Performance.updateProgress, bind, this, gets, set_this, modify,
    try_catch, onWorld, ret.
  cbn -[sendMessage Z.ltb].
  destruct (Z.ltb_spec (now - Performance.lastUpdate t)
              (Performance.updateThreshold t)) as [?|_]; [lia|].
  destruct (Performance.lastProgressMessageId t) as [key|];
    cbn -[sendMessage].
  - pose proof (sendMessage_delete_faults (Performance.remoteJid t) key w)
      as Hdf.
    destruct (sendMessage _ (Delete key) w) as [[?|?|] w1] eqn:Hdel;
      cbn -[sendMessage] in *.
    + split.
      * by destruct (sendMessage _ _ w1) as [[?|?|] ?].
      * intros Hf. rewrite sendMessage_text_works by congruence.
        cbn. unfold outbox. cbn. rewrite map_app. apply last_snoc.
    + split.
      * by destruct (sendMessage _ _ w1) as [[?|?|] ?].
      * intros Hf. rewrite sendMessage_text_works by congruence.
        cbn. unfold outbox. cbn. rewrite map_app. apply last_snoc.
    + exfalso. revert Hdel. unfold sendMessage.
      by destruct (delete_faults w) as [|[] ?].
  - split.
    + by destruct (sendMessage _ _ w) as [[?|?|] ?].
    + intros Hf. rewrite sendMessage_text_works by congruence.
      cbn. unfold outbox. cbn. rewrite map_app. apply last_snoc.
Qed.

Lemma try_catch_state {S A} (m : M S A) (a : A) (s : S) :
  snd (try_catch m (fun _ => ret a) s) = snd (m s).
Proof. unfold try_catch. by destruct (m s) as [[?|?|] ?]. Qed.

(** C3, as the code has it: on a line with the marker of the audio
    conversion (it contains "[ffmpeg]" and "Destination:" and is not a
    download line with a percentage), the music progress parser hands the
    tracker the synthetic sample with progress 95 and total size
    "Converting..."; when the debounce of the tracker lets the update
    through, the tracker records that sample, and on a working transport
    its text is the message delivered last.  The two video progress
    parsers have no such branch: they leave the tracker and the transport
    as they were. *)
Theorem music_parser_converting_sample now line
    (t : Performance.OptimizedProgressTracker) (w : world)
    (st : Progress.ProgressTracker) :
  isConversion line ->
  (progress Music.converting == 95)%Q
  /\ total_size Music.converting = Js.lit "Converting..."
  /\ Music.parseMusicProgress now line (t, w)
     = try_catch (Performance.updateProgress now Music.converting)
         (fun _ => ret tt) (t, w)
  /\ (Performance.updateThreshold t <= now - Performance.lastUpdate t ->
      Performance.progressData
        (fst (snd (Music.parseMusicProgress now line (t, w))))
      = Music.converting
      /\ (send_faults w = [] ->
          last (outbox (snd (snd (Music.parseMusicProgress now line (t, w)))))
          = Some (Performance.remoteJid t,
                  Text (TProcessing (Performance.itemType t) Music.converting))))
  /\ YouTube.parseYouTubeProgress now line (t, w) = (Ok tt, (t, w))
  /\ Progress.parseYouTubeProgress now line st = st.
Proof.
  intros Hc. pose proof Hc as (Hf & Hd & Hnd).
  assert (Hparse : Music.parseMusicProgress now line (t, w)
                   = try_catch (Performance.updateProgress now Music.converting)
                       (fun _ => ret tt) (t, w)).
  { unfold Music.parseMusicProgress. unfold bind at 1. unfold this, gets.
    cbv beta iota. rewrite Hnd. by apply conversion_branch_fires. }
  split; [reflexivity|]. split; [reflexivity|]. split; [exact Hparse|].
  split; [|split].
  - intros Hgate. rewrite Hparse, try_catch_state.
    by apply updateProgress_records.
  - unfold YouTube.parseYouTubeProgress. unfold bind at 1. unfold this, gets.
    cbv beta iota. by rewrite Hnd.
  - unfold Progress.parseYouTubeProgress. by rewrite Hnd.
Qed.

Lemma music_parser_converting_sample_witness :
  isConversion (Js.lit "[ffmpeg] Destination: downloads/song.mp3")
  /\ Performance.progressData
       (fst (snd (Music.parseMusicProgress 9000
                    (Js.lit "[ffmpeg] Destination: downloads/song.mp3")
                    (Performance.new chat 1 (Js.lit "music") 1000, quiet))))
     = Music.converting.
Proof.
  assert (Hc : isConversion (Js.lit "[ffmpeg] Destination: downloads/song.mp3"))
    by (repeat split; reflexivity).
  split; [exact Hc|].
  apply (music_parser_converting_sample 9000 _
           (Performance.new chat 1 (Js.lit "music") 1000) quiet
           (Progress.new chat 1 (Js.lit "episode") 1000) Hc).
  vm_compute. discriminate.
Defined.

(** C3 as stated fails on the video parsers: the line with the conversion
    marker goes through both of them without any sample: the recorded
    progress stays 0, not 95, and nothing is sent. *)
Lemma video_parsers_ignore_conversion_marker :
  YouTube.parseYouTubeProgress 9000
    (Js.lit "[ffmpeg] Destination: downloads/song.mp3")
    (Performance.new chat 1 (Js.lit "video") 1000, quiet)
  = (Ok tt, (Performance.new chat 1 (Js.lit "video") 1000, quiet))
  /\ ~ (progress (Performance.progressData
                    (fst (snd (YouTube.parseYouTubeProgress 9000
                       (Js.lit "[ffmpeg] Destination: downloads/song.mp3")
                       (Performance.new chat 1 (Js.lit "video") 1000, quiet)))))
        == 95)%Q
  /\ ~ (progress (Progress.youtubeProgress
                    (Progress.parseYouTubeProgress 9000
                       (Js.lit "[Merger] Merging formats into video.mp4")
                       (Progress.new chat 1 (Js.lit "episode") 1000)))
        == 95)%Q.
Proof.
  split; [reflexivity|]. split; vm_compute; discriminate.
Qed.

(** ** Debounce *)

Section Debounce.

Context {St Call : Type}.
Context (time : Call -> Z) (forced : Call -> bool)
        (step : Call -> St -> St) (sent : Call -> St -> bool)
        (lastSent : St -> Z) (interval : Z) (Inv : St -> Prop).

Hypothesis Inv_step : forall c s, Inv s -> Inv (step c s).

Hypothesis gate : forall c s,
  Inv s -> lastSent s <= time c ->
  lastSent s <= lastSent (step c s) /\ lastSent (step c s) <= time c
  /\ (sent c s = true ->
      lastSent (step c s) = time c
      /\ (forced c = false -> interval <= time c - lastSent s)).

Lemma ascending_step c rest s :
  Inv s ->
  ascending (lastSent s :: map time (c :: rest)) ->
  lastSent s <= time c
  /\ ascending (lastSent (step c s) :: map time rest).
Proof.
  intros Hs Hasc. unfold ascending in *. simpl in Hasc.
  apply StronglySorted_inv in Hasc as [Hrest Hfirst].
  apply Forall_cons in Hfirst as [Hc Hfirst].
  apply StronglySorted_inv in Hrest as [Hrest Hc_rest].
  split; [exact Hc|]. constructor; [exact Hrest|].
  destruct (gate c s Hs Hc) as (_ & Hle & _).
  eapply Forall_impl; [exact Hc_rest|]. simpl. intros. lia.
Qed.

(** An unforced call that transmits comes at least the interval after
    the instant the state remembers. *)
Lemma log_after calls s j tj :
  Inv s ->
  ascending (lastSent s :: map time calls) ->
  log_calls time forced step sent calls s !! j = Some (tj, false, true) ->
  interval <= tj - lastSent s.
Proof.
  revert s j. induction calls as [|c rest IH]; intros s j Hs Hasc Hj;
    [done|].
  destruct (ascending_step c rest s Hs Hasc) as [Hc Hasc'].
  destruct (gate c s Hs Hc) as (Hlo & _ & Hsent).
  destruct j as [|j]; simpl in Hj.
  - injection Hj as <- Hf Hsend. destruct (Hsent Hsend) as [_ Hgap]. auto.
  - specialize (IH (step c s) j (Inv_step c s Hs) Hasc' Hj). lia.
Qed.

(** Of two calls that transmit, the later one, when it is not forced,
    comes at least the interval after the earlier one. *)
Lemma log_debounced calls s i j ti fi tj :
  Inv s ->
  ascending (lastSent s :: map time calls) ->
  (i < j)%nat ->
  log_calls time forced step sent calls s !! i = Some (ti, fi, true) ->
  log_calls time forced step sent calls s !! j = Some (tj, false, true) ->
  interval <= tj - ti.
Proof.
  revert s i j. induction calls as [|c rest IH]; intros s i j Hs Hasc Hij Hi Hj;
    [done|].
  destruct (ascending_step c rest s Hs Hasc) as [Hc Hasc'].
  destruct j as [|j]; [lia|]. simpl in Hj.
  destruct i as [|i]; simpl in Hi.
  - injection Hi as <- _ Hsend.
    destruct (gate c s Hs Hc) as (_ & _ & Hsent).
    destruct (Hsent Hsend) as [Hlast _]. rewrite <- Hlast.
    eapply log_after; eauto.
  - eapply (IH (step c s) i j); eauto. lia.
Qed.

End Debounce.

Lemma updateProgress_closed now data t w :
  now - Performance.lastUpdate t < Performance.updateThreshold t ->
  Performance.updateProgress now data (t, w) = (Ok tt, (t, w)).
Proof.
  intros Hgate. unfold Performance.updateProgress, bind, this, gets.
  cbn -[Z.ltb].
  by destruct (Z.ltb_spec (now - Performance.lastUpdate t)
                 (Performance.updateThreshold t)) as [_|?]; [|lia].
Qed.

Lemma updateProgress_open now data t w :
  Performance.updateThreshold t <= now - Performance.lastUpdate t ->
  Performance.lastUpdate
    (fst (snd (Performance.updateProgress now data (t, w)))) = now
  /\ Performance.updateThreshold
       (fst (snd (Performance.updateProgress now data (t, w))))
     = Performance.updateThreshold t.
Proof.
  intros Hgate.
  unfold Performance.updateProgress, bind, this, gets, set_this, modify,
    try_catch, onWorld, ret.
  cbn -[sendMessage Z.ltb].
  destruct (Z.ltb_spec (now - Performance.lastUpdate t)
              (Performance.updateThreshold t)) as [?|_]; [lia|].
  destruct (Performance.lastProgressMessageId t) as [key|];
    cbn -[sendMessage];
    repeat match goal with
           | |- context [sendMessage ?j ?c ?w0] =>
               destruct (sendMessage j c w0) as [[?|?|] ?];
               cbn -[sendMessage]
           end; done.
Qed.

Lemma length_delivered_delete remoteJid key w :
  delivered (snd (sendMessage remoteJid (Delete key) w)) = delivered w.
Proof.
  unfold sendMessage. by destruct (delete_faults w) as [|[] ?].
Qed.

Lemma sendMessage_delete_finite remoteJid key w :
  fst (sendMessage remoteJid (Delete key) w) <> Pending.
Proof. apply finite_sendMessage. Qed.

(** On a transport that works, an update that the debounce lets through
    is transmitted, and the transport still works. *)
Lemma updateProgress_open_works now data t w :
  Performance.updateThreshold t <= now - Performance.lastUpdate t ->
  send_faults w = [] ->
  delivered_more (t, w) (snd (Performance.updateProgress now data (t, w)))
    = true
  /\ send_faults (snd (snd (Performance.updateProgress now data (t, w)))) = [].
Proof.
  intros Hgate Hf.
  unfold Performance.updateProgress, bind, this, gets, set_this, modify,
    try_catch, onWorld, ret, delivered_more.
  cbn -[sendMessage Z.ltb Nat.ltb].
  destruct (Z.ltb_spec (now - Performance.lastUpdate t)
              (Performance.updateThreshold t)) as [?|_]; [lia|].
  assert (Hsend : forall jid txt w1,
            send_faults w1 = [] -> delivered w1 = delivered w ->
            (length (delivered w)
             <? length (delivered (snd (sendMessage jid (Text txt) w1))))%nat
            = true
            /\ send_faults (snd (sendMessage jid (Text txt) w1)) = []
            /\ exists k, fst (sendMessage jid (Text txt) w1) = Ok k).
  { intros jid txt w1 Hf1 Hd1. rewrite sendMessage_text_works by done.
    cbn. rewrite Hd1, length_app. simpl. split; [|eauto].
    apply Nat.ltb_lt. lia. }
  destruct (Performance.lastProgressMessageId t) as [key|];
    cbn -[sendMessage Nat.ltb].
  - pose proof (sendMessage_delete_faults (Performance.remoteJid t) key w)
      as Hdf.
    pose proof (length_delivered_delete (Performance.remoteJid t) key w)
      as Hdd.
    pose proof (sendMessage_delete_finite (Performance.remoteJid t) key w)
      as Hfin.
    destruct (sendMessage _ (Delete key) w) as [[?|?|] w1];
      cbn -[sendMessage Nat.ltb] in *; [| |done].
    + destruct (Hsend (Performance.remoteJid t)
                  (Performance.formatProgressText
                     (Performance.with_progress data now t)) w1)
        as (Hlen & Hfs & k & Hk); [congruence|done|].
      destruct (sendMessage _ (Text _) w1) as [r w2].
      simpl in Hk. subst r. by cbn.
    + destruct (Hsend (Performance.remoteJid t)
                  (Performance.formatProgressText
                     (Performance.with_progress data now t)) w1)
        as (Hlen & Hfs & k & Hk); [congruence|done|].
      destruct (sendMessage _ (Text _) w1) as [r w2].
      simpl in Hk. subst r. by cbn.
  - destruct (Hsend (Performance.remoteJid t)
                (Performance.formatProgressText
                   (Performance.with_progress data now t)) w)
      as (Hlen & Hfs & k & Hk); [done|done|].
    destruct (sendMessage _ (Text _) w) as [r w2].
    simpl in Hk. subst r. by cbn.
Qed.

Lemma sendProgressUpdate_returns file s :
  Progress.sendProgressUpdate file s
  = (Ok tt, snd (Progress.sendProgressUpdate file s)).
Proof.
  destruct (sendProgressUpdate_safe file s) as [[] Ha].
  destruct (Progress.sendProgressUpdate file s) as [r s']. simpl in *.
  by subst r.
Qed.

Lemma checkAndSend_open force now file t w :
  force || (now - Progress.lastUpdate t >=? 5000) = true ->
  Progress.checkAndSendProgressUpdate force now file (t, w)
  = (Ok tt,
     (Progress.with_lastUpdate now
        (fst (snd (Progress.sendProgressUpdate file (t, w)))),
      snd (snd (Progress.sendProgressUpdate file (t, w))))).
Proof.
  intros Hgate. unfold Progress.checkAndSendProgressUpdate.
  unfold bind at 1. unfold this, gets. cbv beta iota. cbn [fst].
  rewrite Hgate. unfold bind. rewrite sendProgressUpdate_returns.
  by destruct (snd (Progress.sendProgressUpdate file (t, w))).
Qed.

Lemma checkAndSend_closed force now file t w :
  force || (now - Progress.lastUpdate t >=? 5000) = false ->
  Progress.checkAndSendProgressUpdate force now file (t, w) = (Ok tt, (t, w)).
Proof.
  intros Hgate. unfold Progress.checkAndSendProgressUpdate.
  unfold bind at 1. unfold this, gets. cbv beta iota. cbn [fst].
  by rewrite Hgate.
Qed.

Lemma delivered_more_same {T} (s : T * world) : delivered_more s s = false.
Proof. unfold delivered_more. apply Nat.ltb_irrefl. Qed.

Lemma standard_gate c s :
  Progress.lastUpdate (fst s) <= instant c ->
  Progress.lastUpdate (fst s) <= Progress.lastUpdate (fst (standard_step c s))
  /\ Progress.lastUpdate (fst (standard_step c s)) <= instant c
  /\ (delivered_more s (standard_step c s) = true ->
      Progress.lastUpdate (fst (standard_step c s)) = instant c
      /\ (force c = false ->
          5000 <= instant c - Progress.lastUpdate (fst s))).
Proof.
  intros Hle. destruct s as [t w]. unfold standard_step.
  destruct (force c || (instant c - Progress.lastUpdate t >=? 5000))
    eqn:Hgate.
  - rewrite checkAndSend_open by done. simpl.
    split; [done|]. split; [lia|]. intros _. split; [done|].
    intros Hf. rewrite Hf in Hgate. simpl in Hgate. lia.
  - rewrite checkAndSend_closed by done. simpl.
    split; [lia|]. split; [done|]. by rewrite delivered_more_same.
Qed.

Lemma optimized_gate thr c s :
  Performance.updateThreshold (fst s) = thr ->
  Performance.lastUpdate (fst s) <= fst c ->
  Performance.lastUpdate (fst s)
    <= Performance.lastUpdate (fst (optimized_step c s))
  /\ Performance.lastUpdate (fst (optimized_step c s)) <= fst c
  /\ (delivered_more s (optimized_step c s) = true ->
      Performance.lastUpdate (fst (optimized_step c s)) = fst c
      /\ (false = false -> thr <= fst c - Performance.lastUpdate (fst s))).
Proof.
  intros Hthr Hle. destruct s as [t w], c as [now data].
  unfold optimized_step. simpl in *.
  destruct (Z.lt_ge_cases (now - Performance.lastUpdate t)
              (Performance.updateThreshold t)) as [Hclosed|Hopen].
  - rewrite updateProgress_closed by done. simpl.
    split; [lia|]. split; [done|]. by rewrite delivered_more_same.
  - destruct (updateProgress_open now data t w Hopen) as [-> _].
    split; [done|]. split; [lia|]. intros _. split; [done|]. lia.
Qed.

Lemma optimized_threshold c s :
  Performance.updateThreshold (fst (optimized_step c s))
  = Performance.updateThreshold (fst s).
Proof.
  destruct s as [t w], c as [now data]. unfold optimized_step. simpl.
  destruct (Z.lt_ge_cases (now - Performance.lastUpdate t)
              (Performance.updateThreshold t)) as [Hclosed|Hopen].
  - by rewrite updateProgress_closed.
  - by destruct (updateProgress_open now data t w Hopen) as [_ ->].
Qed.

Lemma Qltb_true (a b : Q) : (a < b)%Q -> Qltb a b = true.
Proof.
  intros Hlt. unfold Qltb. apply negb_true_iff.
  destruct (Qle_bool b a) eqn:Hle; [|done].
  apply Qle_bool_iff in Hle. by apply Qle_not_lt in Hle.
Qed.

Lemma Qltb_false (a b : Q) : (b <= a)%Q -> Qltb a b = false.
Proof.
  intros Hle. unfold Qltb. apply negb_false_iff. by apply Qle_bool_iff.
Qed.

(** A sample within one point of the percentage sent last is not sent,
    forced or not. *)
Lemma sendProgressUpdate_suppressed file t w data lastText :
  Progress.currentSample file t = Some data ->
  Progress.lastProgressMessage t = Some lastText ->
  (Qabs (progress data - Progress.lastProgressPercentage t) < 1)%Q ->
  Progress.sendProgressUpdate file (t, w) = (Ok tt, (t, w)).
Proof.
  intros Hdata Hlast Hnear. unfold Progress.sendProgressUpdate, try_catch.
  unfold bind at 1. unfold this, gets. cbv beta iota. cbn [fst].
  rewrite Hdata, Hlast. simpl isSome. rewrite (Qltb_true _ _ Hnear).
  by destruct (Qeq_bool (progress data) 0).
Qed.

Lemma optimized_log_debounced calls s i j ti fi tj :
  ascending (Performance.lastUpdate (fst s) :: map fst calls) ->
  (i < j)%nat ->
  optimized_log calls s !! i = Some (ti, fi, true) ->
  optimized_log calls s !! j = Some (tj, false, true) ->
  Performance.updateThreshold (fst s) <= tj - ti.
Proof.
  intros Hasc Hij Hi Hj.
  eapply (log_debounced fst (fun _ => false) optimized_step
            (fun c s => delivered_more s (optimized_step c s))
            (fun s => Performance.lastUpdate (fst s))
            (Performance.updateThreshold (fst s))
            (fun s' => Performance.updateThreshold (fst s')
                       = Performance.updateThreshold (fst s)));
    [| |reflexivity|exact Hasc|exact Hij|exact Hi|exact Hj].
  - intros c s' Hs'. by rewrite optimized_threshold.
  - intros c s' Hs' Hle. by apply optimized_gate.
Qed.

Lemma standard_log_debounced calls s i j ti fi tj :
  ascending (Progress.lastUpdate (fst s) :: map instant calls) ->
  (i < j)%nat ->
  standard_log calls s !! i = Some (ti, fi, true) ->
  standard_log calls s !! j = Some (tj, false, true) ->
  5000 <= tj - ti.
Proof.
  intros Hasc Hij Hi Hj.
  eapply (log_debounced instant force standard_step
            (fun c s => delivered_more s (standard_step c s))
            (fun s => Progress.lastUpdate (fst s)) 5000 (fun _ => True));
    [| |exact I|exact Hasc|exact Hij|exact Hi|exact Hj].
  - done.
  - intros c s' _ Hle. by apply standard_gate.
Qed.

(** Updates at t0, t0 + 500 ms and t0 + 2100 ms on a fresh optimized
    tracker and a working transport: the first and the third are
    transmitted. *)
Lemma optimized_three_updates remoteJid totalItems itemType start w t0
    d1 d2 d3 :
  2000 <= t0 -> send_faults w = [] ->
  map snd (optimized_log [(t0, d1); (t0 + 500, d2); (t0 + 2100, d3)]
             (Performance.new remoteJid totalItems itemType start, w))
  = [true; false; true].
Proof.
  intros Ht0 Hf. unfold optimized_log. cbn [log_calls map snd fst].
  unfold optimized_step. cbn [fst snd].
  set (t := Performance.new remoteJid totalItems itemType start).
  assert (Hopen0 : Performance.updateThreshold t
                   <= t0 - Performance.lastUpdate t) by (simpl; lia).
  destruct (updateProgress_open_works t0 d1 t w Hopen0 Hf) as [Hsent1 Hf1].
  destruct (updateProgress_open t0 d1 t w Hopen0) as [Hlast1 Hthr1].
  rewrite Hsent1.
  destruct (snd (Performance.updateProgress t0 d1 (t, w))) as [t1 w1].
  cbn [fst snd] in *.
  assert (Hclosed : t0 + 500 - Performance.lastUpdate t1
                    < Performance.updateThreshold t1)
    by (rewrite Hlast1, Hthr1; simpl; lia).
  rewrite (updateProgress_closed _ d2 t1 w1 Hclosed). cbn [snd].
  rewrite delivered_more_same.
  assert (Hopen2 : Performance.updateThreshold t1
                   <= t0 + 2100 - Performance.lastUpdate t1)
    by (rewrite Hlast1, Hthr1; simpl; lia).
  destruct (updateProgress_open_works _ d3 t1 w1 Hopen2 Hf1) as [Hsent3 _].
  by rewrite Hsent3.
Qed.

(** Calls made one after the other, each returned before the next, are
    debounced.  Of two updates of the optimized tracker that are
    transmitted, the later comes at least its threshold (2000 ms for a new
    tracker) after the earlier; of two calls of
    [checkAndSendProgressUpdate] of the standard tracker that transmit,
    the later, when it is not forced, comes at least 5000 ms after the
    earlier.  Updates at t0, t0 + 500 ms and t0 + 2100 ms with the
    2000 ms threshold transmit at t0 and at t0 + 2100 ms only.  A forced
    update is not held back by the timer, but it is still suppressed,
    leaving the transport untouched, when its percentage, taken as the
    exact number, is less than one point away from the percentage
    transmitted last.  For calls that overlap see
    [Overlap]. *)
Theorem progress_updates_debounced :
  (forall calls s i j ti fi tj,
     ascending (Performance.lastUpdate (fst s) :: map fst calls) ->
     (i < j)%nat ->
     optimized_log calls s !! i = Some (ti, fi, true) ->
     optimized_log calls s !! j = Some (tj, false, true) ->
     Performance.updateThreshold (fst s) <= tj - ti)
  /\ (forall remoteJid totalItems itemType start,
        Performance.updateThreshold
          (Performance.new remoteJid totalItems itemType start) = 2000)
  /\ (forall calls s i j ti fi tj,
        ascending (Progress.lastUpdate (fst s) :: map instant calls) ->
        (i < j)%nat ->
        standard_log calls s !! i = Some (ti, fi, true) ->
        standard_log calls s !! j = Some (tj, false, true) ->
        5000 <= tj - ti)
  /\ (forall remoteJid totalItems itemType start w t0 d1 d2 d3,
        2000 <= t0 -> send_faults w = [] ->
        map snd (optimized_log [(t0, d1); (t0 + 500, d2); (t0 + 2100, d3)]
                   (Performance.new remoteJid totalItems itemType start, w))
        = [true; false; true])
  /\ (forall now file t w data lastText,
        Progress.currentSample file t = Some data ->
        Progress.lastProgressMessage t = Some lastText ->
        (Qabs (progress data - Progress.lastProgressPercentage t) < 1)%Q ->
        Progress.checkAndSendProgressUpdate true now file (t, w)
        = (Ok tt, (Progress.with_lastUpdate now t, w))).
Proof.
  split; [exact optimized_log_debounced|]. split; [reflexivity|].
  split; [exact standard_log_debounced|].
  split; [exact optimized_three_updates|].
  intros now file t w data lastText Hdata Hlast Hnear.
  rewrite checkAndSend_open by done.
  by rewrite (sendProgressUpdate_suppressed file t w data lastText).
Qed.

Lemma progress_updates_debounced_witness :
  2000 <= 1700000000000
  /\ map snd (optimized_log
                [(1700000000000, Music.converting);
                 (1700000000000 + 500, Music.converting);
                 (1700000000000 + 2100, Music.converting)]
                (Performance.new chat 1 (Js.lit "video") 1699999999000, quiet))
     = [true; false; true].
Proof.
  split; [vm_compute; discriminate|].
  apply (proj1 (proj2 (proj2 (proj2 progress_updates_debounced)))).
  - vm_compute. discriminate.
  - reflexivity.
Defined.

(** ** The live progress message *)

Lemma sendMessage_delete_works remoteJid key w :
  delete_faults w = [] ->
  sendMessage remoteJid (Delete key) w
  = (Ok (next_key w),
     set_transport w (delivered w) (filter (fun k' => k' <> key) (live w))
       (Datatypes.S (next_key w)) (send_faults w) []).
Proof. intros Hd. unfold sendMessage. by rewrite Hd. Qed.

Lemma sendMessage_text_cases remoteJid t w :
  (exists sf,
     sendMessage remoteJid (Text t) w
     = (Throw TransportError,
        set_transport w (delivered w) (live w) (next_key w) sf
          (delete_faults w)))
  \/ (exists sf,
        sendMessage remoteJid (Text t) w
        = (Ok (next_key w),
           set_transport w (delivered w ++ [(remoteJid, Text t, next_key w)])
             (live w ++ [next_key w]) (Datatypes.S (next_key w)) sf
             (delete_faults w))).
Proof.
  unfold sendMessage. destruct (send_faults w) as [|[] sf]; eauto.
Qed.

Lemma filter_swap k0 key (l : list msgkey) :
  filter (fun k => (k0 <= k)%nat) (filter (fun k' => k' <> key) l)
  = filter (fun k' => k' <> key) (filter (fun k => (k0 <= k)%nat) l).
Proof.
  induction l as [|x l IH]; [done|].
  rewrite !filter_cons.
  destruct (decide (x <> key)), (decide (k0 <= x)%nat);
    rewrite ?filter_cons; repeat case_decide; try done; by rewrite IH.
Qed.

Lemma own_live_deleted k0 key l :
  filter (fun k => (k0 <= k)%nat) l = []
  \/ filter (fun k => (k0 <= k)%nat) l = [key] ->
  filter (fun k => (k0 <= k)%nat) (filter (fun k' => k' <> key) l) = [].
Proof.
  intros Hl. rewrite filter_swap.
  destruct Hl as [-> | ->]; [done|].
  rewrite filter_cons. by destruct (decide (key <> key)).
Qed.

Lemma own_live_sent k0 nk l :
  (k0 <= nk)%nat ->
  filter (fun k => (k0 <= k)%nat) l = [] ->
  filter (fun k => (k0 <= k)%nat) (l ++ [nk]) = [nk].
Proof.
  intros Hk Hl. rewrite filter_app, Hl. simpl.
  rewrite filter_cons. by destruct (decide (k0 <= nk)%nat).
Qed.

(** One update of the standard tracker keeps the live messages
    tracked. *)
Lemma sendProgressUpdate_tracking k0 file s :
  tracking Progress.lastProgressMessageId k0 s ->
  tracking Progress.lastProgressMessageId k0
    (snd (Progress.sendProgressUpdate file s)).
Proof.
  destruct s as [t w]. intros (Hdf & Hk0 & Htr).
  remember (Progress.sendProgressUpdate file (t, w)) as r eqn:Hr.
  revert Hr.
  unfold tracking, tracked, own_live in *. cbn [fst snd] in *.
  unfold Progress.sendProgressUpdate, try_catch.
  unfold bind at 1. unfold this, gets. cbv beta iota. cbn [fst].
  destruct (Progress.currentSample file t) as [data|]; [|by intros ->].
  destruct (Qeq_bool _ _); [by intros ->|].
  destruct (_ && _); [by intros ->|].
  unfold bind, set_this, modify, try_catch, onWorld, ret, console_log.
  destruct (Progress.lastProgressMessageId t) as [key|] eqn:Hid.
  - rewrite sendMessage_delete_works by done. cbn -[sendMessage].
    match goal with
    | |- context [sendMessage ?j (Text ?x) ?w1] =>
        destruct (sendMessage_text_cases j x w1) as [[sf ->]|[sf ->]]
    end; intros ->; cbn.
    + split; [done|]. split; [lia|]. left.
      apply own_live_deleted.
      destruct Htr as [->|(k & -> & [= ->])]; auto.
    + split; [done|]. split; [lia|]. right. eexists. split; [|done].
      apply own_live_sent; [lia|]. apply own_live_deleted.
      destruct Htr as [->|(k & -> & [= ->])]; auto.
  - assert (Hnone : filter (fun k => (k0 <= k)%nat) (live w) = [])
      by (destruct Htr as [?|(k & _ & ?)]; done).
    cbn -[sendMessage].
    match goal with
    | |- context [sendMessage ?j (Text ?x) ?w1] =>
        destruct (sendMessage_text_cases j x w1) as [[sf ->]|[sf ->]]
    end; intros ->; cbn.
    + split; [done|]. split; [done|]. by left.
    + split; [done|]. split; [lia|]. right. eexists. split; [|done].
      by apply own_live_sent.
Qed.

Lemma standard_step_tracking k0 c s :
  tracking Progress.lastProgressMessageId k0 s ->
  tracking Progress.lastProgressMessageId k0 (standard_step c s).
Proof.
  destruct s as [t w]. intros Hs. unfold standard_step.
  destruct (force c || (instant c - Progress.lastUpdate t >=? 5000))
    eqn:Hgate.
  - rewrite checkAndSend_open by done. cbn [snd].
    apply (sendProgressUpdate_tracking k0 (progressFile c)) in Hs.
    destruct (snd (Progress.sendProgressUpdate (progressFile c) (t, w)))
      as [t' w'].
    exact Hs.
  - by rewrite checkAndSend_closed.
Qed.

(** One update of the optimized tracker does so too. *)
Lemma optimized_step_tracking k0 c s :
  tracking Performance.lastProgressMessageId k0 s ->
  tracking Performance.lastProgressMessageId k0 (optimized_step c s).
Proof.
  destruct s as [t w], c as [now data]. intros (Hdf & Hk0 & Htr).
  unfold optimized_step. cbn [fst snd].
  destruct (Z.lt_ge_cases (now - Performance.lastUpdate t)
              (Performance.updateThreshold t)) as [Hclosed|Hopen].
  { by rewrite updateProgress_closed. }
  remember (Performance.updateProgress now data (t, w)) as r eqn:Hr.
  revert Hr.
  unfold tracking, tracked, own_live in *. cbn [fst snd] in *.
  unfold Performance.updateProgress.
  unfold bind at 1. unfold this, gets. cbv beta iota. cbn [fst].
  destruct (Z.ltb_spec (now - Performance.lastUpdate t)
              (Performance.updateThreshold t)) as [?|_]; [lia|].
  unfold bind, set_this, modify, try_catch, onWorld, ret, gets.
  destruct (Performance.lastProgressMessageId t) as [key|] eqn:Hid.
  - cbn -[sendMessage]. rewrite sendMessage_delete_works by done.
    cbn -[sendMessage].
    match goal with
    | |- context [sendMessage ?j (Text ?x) ?w1] =>
        destruct (sendMessage_text_cases j x w1) as [[sf ->]|[sf ->]]
    end; intros ->; cbn.
    + split; [done|]. split; [lia|]. left.
      apply own_live_deleted.
      destruct Htr as [->|(k & -> & [= ->])]; auto.
    + split; [done|]. split; [lia|]. right. eexists. split; [|done].
      apply own_live_sent; [lia|]. apply own_live_deleted.
      destruct Htr as [->|(k & -> & [= ->])]; auto.
  - assert (Hnone : filter (fun k => (k0 <= k)%nat) (live w) = [])
      by (destruct Htr as [?|(k & _ & ?)]; done).
    cbn -[sendMessage].
    match goal with
    | |- context [sendMessage ?j (Text ?x) ?w1] =>
        destruct (sendMessage_text_cases j x w1) as [[sf ->]|[sf ->]]
    end; intros ->; cbn.
    + split; [done|]. split; [done|]. by left.
    + split; [done|]. split; [lia|]. right. eexists. split; [|done].
      by apply own_live_sent.
Qed.

Lemma run_calls_keeps {St Call} (step : Call -> St -> St) (I : St -> Prop) :
  (forall c s, I s -> I (step c s)) ->
  forall calls s, I s -> I (run_calls step calls s).
Proof.
  intros Hstep calls. induction calls as [|c rest IH]; intros s Hs; simpl.
  - exact Hs.
  - apply IH, Hstep, Hs.
Qed.

(** The message [start] of the optimized tracker sends becomes the
    tracked one. *)
Lemma optimized_start_tracking t w :
  delete_faults w = [] ->
  Forall (fun k => (k < next_key w)%nat) (live w) ->
  tracking Performance.lastProgressMessageId (next_key w)
    (snd (Performance.start (t, w))).
Proof.
  intros Hdf Hlive.
  assert (Hnone : filter (fun k => (next_key w <= k)%nat) (live w) = []).
  { induction Hlive as [|k l Hk _ IH]; [done|].
    rewrite filter_cons. destruct (decide (next_key w <= k)%nat); [lia|done]. }
  remember (Performance.start (t, w)) as r eqn:Hr. revert Hr.
  unfold Performance.start, tracking, tracked, own_live.
  unfold bind at 1. unfold this, gets. cbv beta iota. cbn [fst].
  unfold bind, set_this, modify, onWorld. cbn -[sendMessage].
  match goal with
  | |- context [sendMessage ?j (Text ?x) ?w1] =>
      destruct (sendMessage_text_cases j x w1) as [[sf ->]|[sf ->]]
  end; intros ->; cbn.
  - split; [done|]. split; [done|]. by left.
  - split; [done|]. split; [lia|]. right. eexists. split; [|done].
    by apply own_live_sent.
Qed.

(** Update calls made one after the other, each returned before the
    next: as long as no deletion fails, at most one of the messages the
    updates of a tracker have sent is live, and it is the one the tracker
    refers to: every transmitted update deletes the message recorded
    before it, then sends and records the new one.  The [start] message of
    the optimized tracker is the first one recorded; that of the standard
    tracker is never recorded, and is not among the messages counted
    here. *)
Theorem live_message_tracked :
  (forall k0 calls s,
     tracking Progress.lastProgressMessageId k0 s ->
     tracking Progress.lastProgressMessageId k0
       (run_calls standard_step calls s))
  /\ (forall k0 calls s,
        tracking Performance.lastProgressMessageId k0 s ->
        tracking Performance.lastProgressMessageId k0
          (run_calls optimized_step calls s))
  /\ (forall t w,
        delete_faults w = [] ->
        Forall (fun k => (k < next_key w)%nat) (live w) ->
        tracking Performance.lastProgressMessageId (next_key w)
          (snd (Performance.start (t, w))))
  /\ (forall T (lastId : T -> option msgkey) k0 (s : T * world),
        tracking lastId k0 s -> (length (own_live k0 (snd s)) <= 1)%nat).
Proof.
  split; [|split; [|split]].
  - intros k0 calls s. apply run_calls_keeps. intros c s'.
    apply standard_step_tracking.
  - intros k0 calls s. apply run_calls_keeps. intros c s'.
    apply optimized_step_tracking.
  - exact optimized_start_tracking.
  - intros T lastId k0 s (_ & _ & [-> | (k & -> & _)]); simpl; lia.
Qed.

Lemma live_message_tracked_witness :
  tracking Progress.lastProgressMessageId 0 (episode_tracker, quiet)
  /\ own_live 0
       (snd (run_calls standard_step
               [{| force := true; instant := 3000;
                   progressFile := file_at (10 # 1) |};
                {| force := false; instant := 9000;
                   progressFile := file_at (50 # 1) |}]
               (episode_tracker, quiet)))
     = [2%nat]
  /\ tracking Progress.lastProgressMessageId 0
       (run_calls standard_step
          [{| force := true; instant := 3000;
              progressFile := file_at (10 # 1) |};
           {| force := false; instant := 9000;
              progressFile := file_at (50 # 1) |}]
          (episode_tracker, quiet)).
Proof.
  assert (H0 : tracking Progress.lastProgressMessageId 0
                 (episode_tracker, quiet)).
  { split; [reflexivity|]. split; [apply Nat.le_refl|]. left. reflexivity. }
  split; [exact H0|]. split; [vm_compute; reflexivity|].
  exact (proj1 live_message_tracked 0%nat _ _ H0).
Defined.

(** When a deletion fails the error is ignored, the new message is sent
    all the same, and two progress messages of the tracker are live. *)
Lemma two_live_messages_after_failed_delete :
  own_live 0
    (snd (run_calls standard_step
            [{| force := true; instant := 3000;
                progressFile := file_at (10 # 1) |};
             {| force := false; instant := 9000;
                progressFile := file_at (50 # 1) |}]
            (episode_tracker, delete_fails)))
  = [0%nat; 1%nat]
  /\ ~ (length (own_live 0
           (snd (run_calls standard_step
                   [{| force := true; instant := 3000;
                       progressFile := file_at (10 # 1) |};
                    {| force := false; instant := 9000;
                       progressFile := file_at (50 # 1) |}]
                   (episode_tracker, delete_fails)))) <= 1)%nat
  /\ own_live 0
       (snd (run_calls optimized_step
               [(3000, Music.converting); (6000, Music.converting)]
               (Performance.new chat 1 (Js.lit "video") 1000, delete_fails)))
     = [0%nat; 1%nat].
Proof.
  split; [vm_compute; reflexivity|]. split; [|vm_compute; reflexivity].
  vm_compute. intros H. inversion H as [|? H1]. inversion H1.
Qed.

(** ** Ordered delivery of a batch *)

Section Succeeds.

Context {S : Type}.

Lemma succeeds_ret {A} (P : S -> Prop) (a : A) (Q : A -> S -> Prop) :
  (forall s, P s -> Q a s) -> succeeds P (ret a) Q.
Proof. intros HPQ s Hs. exists a. split; [reflexivity|]. by apply HPQ. Qed.

Lemma succeeds_bind {A B} (P : S -> Prop) (R : A -> S -> Prop)
    (Q : B -> S -> Prop) (m : M S A) (k : A -> M S B) :
  succeeds P m R -> (forall a, succeeds (R a) (k a) Q) ->
  succeeds P (bind m k) Q.
Proof.
  intros Hm Hk s Hs. unfold bind. destruct (Hm s Hs) as (a & Ha & HR).
  destruct (m s) as [r s']. simpl in *. subst r. by apply Hk.
Qed.

Lemma succeeds_try_catch {A} (P : S -> Prop) (Q : A -> S -> Prop)
    (m : M S A) h :
  succeeds P m Q -> succeeds P (try_catch m h) Q.
Proof.
  intros Hm s Hs. unfold try_catch. destruct (Hm s Hs) as (a & Ha & HQ).
  destruct (m s) as [r s']. simpl in *. subst r. by exists a.
Qed.

End Succeeds.

(** On a transport that works, a message that is not a deletion is
    delivered. *)
Lemma sendMessage_delivers l remoteJid c :
  (forall key, c <> Delete key) ->
  succeeds (delivers l) (sendMessage remoteJid c)
    (fun _ => delivers (l ++ [(remoteJid, c)])).
Proof.
  intros Hc w [Hf Hl]. unfold sendMessage, delivers, outbox in *.
  destruct c as [t|image caption|path fileName caption|key];
    [| | |by destruct (Hc key)];
    rewrite Hf; eexists; (split; [reflexivity|]); cbn;
    by rewrite map_app, Hl.
Qed.

Lemma send_card_delivers l remoteJid data :
  succeeds (delivers l) (YouTube.send_card remoteJid data)
    (fun _ => delivers (l ++ [(remoteJid, content_of data)])).
Proof.
  unfold YouTube.send_card, content_of. apply succeeds_try_catch.
  destruct (YouTube.thumbnailBuffer data) as [image|];
    (eapply succeeds_bind; [by apply sendMessage_delivers|]);
    intros ?; by apply succeeds_ret.
Qed.

Lemma send_cards_deliver l remoteJid videoData :
  succeeds (delivers l) (YouTube.send_cards remoteJid videoData)
    (fun _ => delivers
                (l ++ map (fun data => (remoteJid, content_of data)) videoData)).
Proof.
  revert l. induction videoData as [|data rest IH]; intros l;
    cbn [YouTube.send_cards map].
  - apply succeeds_ret. intros s. by rewrite app_nil_r.
  - eapply succeeds_bind; [apply send_card_delivers|]. intros ?.
    intros s Hs. destruct (IH _ s Hs) as (u & Hu & Hd).
    exists u. split; [done|]. by rewrite <- app_assoc in Hd.
Qed.

(** [Promise.all] hands over the results in the order of the promises,
    in whatever order they settle. *)
Lemma settle_lookup {A} (promises : list A) order values i v :
  length values = length promises ->
  promises !! i = Some v ->
  let settled :=
    foldl (fun values i =>
             match promises !! i with
             | Some v => <[i := Some v]> values
             | None => values
             end) values order in
  length settled = length promises
  /\ (i ∈ order -> settled !! i = Some (Some v))
  /\ (i ∉ order -> settled !! i = values !! i).
Proof.
  revert values. induction order as [|j order IH]; intros values Hlen Hi;
    cbn [foldl].
  - split; [done|]. split; [by intros ?%elem_of_nil|done].
  - set (values' := match promises !! j with
                    | Some v0 => <[j := Some v0]> values
                    | None => values
                    end).
    assert (Hlen' : length values' = length promises).
    { unfold values'. destruct (promises !! j); [|done].
      by rewrite length_insert. }
    destruct (IH values' Hlen' Hi) as (Hl & Hin & Hout).
    split; [exact Hl|]. split.
    + intros Hmem. destruct (decide (i ∈ order)) as [?|Hno]; [auto|].
      apply elem_of_cons in Hmem as [->|?]; [|done].
      rewrite (Hout Hno). unfold values'. rewrite Hi.
      apply list_lookup_insert_eq. rewrite Hlen. by eapply lookup_lt_Some.
    + intros Hno. apply not_elem_of_cons in Hno as [Hne Hno].
      rewrite (Hout Hno). unfold values'.
      destruct (promises !! j); [|done]. by rewrite list_lookup_insert_ne.
Qed.

Lemma settle_all {A} (promises : list A) order :
  order ≡ₚ seq 0 (length promises) ->
  YouTube.settle promises order = Some <$> promises.
Proof.
  intros Hperm. apply list_eq. intros i. unfold YouTube.settle.
  rewrite list_lookup_fmap.
  destruct (promises !! i) as [v|] eqn:Hi; simpl.
  - destruct (settle_lookup promises order
                (replicate (length promises) None) i v) as (_ & Hin & _);
      [by rewrite length_replicate|done|].
    apply Hin. rewrite Hperm. apply elem_of_seq.
    apply lookup_lt_Some in Hi. lia.
  - apply lookup_ge_None. apply lookup_ge_None in Hi.
    assert (Hlen : forall values,
              length (foldl (fun values i =>
                               match promises !! i with
                               | Some v => <[i := Some v]> values
                               | None => values
                               end) values order) = length values).
    { induction order as [|j order' IH] in |- *; intros values; [done|].
      cbn [foldl]. rewrite IH. destruct (promises !! j); [|done].
      by rewrite length_insert. }
    rewrite Hlen, length_replicate. exact Hi.
Qed.

Lemma promise_all_settled {S A} (promises : list A) order :
  order ≡ₚ seq 0 (length promises) ->
  YouTube.promise_all (S := S) promises order = ret promises.
Proof.
  intros Hperm. unfold YouTube.promise_all. rewrite settle_all by done.
  by rewrite mapM_fmap_Some.
Qed.

(** The cards come out of the preparation in the order of their index, so
    the sort leaves them in place. *)
Lemma sort_prepared E (videos : list item) k :
  YouTube.sort_by_index (imap (fun i => YouTube.prepare E (k + i)) videos)
  = imap (fun i => YouTube.prepare E (k + i)) videos.
Proof.
  revert k. induction videos as [|video rest IH]; intros k; [done|].
  rewrite imap_cons. unfold YouTube.sort_by_index in *. cbn [foldr].
  assert (Hext : imap ((fun i => YouTube.prepare E (k + i)) ∘ Datatypes.S) rest
                 = imap (fun i => YouTube.prepare E (Datatypes.S k + i)) rest).
  { apply imap_ext. intros i x _. simpl. f_equal. lia. }
  rewrite Hext, IH. destruct rest as [|next rest]; [done|].
  rewrite imap_cons. cbn [YouTube.insert_card YouTube.prepare YouTube.index].
  by destruct (Nat.leb_spec (k + 0) (Datatypes.S k + 0)); [|lia].
Qed.

Lemma cards_of_prepared E (remoteJid : jsstring) (videos : list item) :
  map (fun data => (remoteJid, content_of data))
      (imap (YouTube.prepare E) videos)
  = imap (fun i video => (remoteJid, card_content E i video)) videos.
Proof. change map with (@fmap list _). by rewrite fmap_imap. Qed.

Lemma succeeds_ret_bind {S A B} (P : S -> Prop) (Q : B -> S -> Prop)
    (a : A) (k : A -> M S B) :
  succeeds P (k a) Q -> succeeds P (bind (ret a) k) Q.
Proof. intros H s Hs. exact (H s Hs). Qed.

Lemma batch_delivers E remoteJid (videos : list item) header footer l :
  completion E videos ≡ₚ seq 0 (length videos) ->
  succeeds (delivers l)
    (_ <- sendMessage remoteJid (Text header) ;;
     videoData <- YouTube.promise_all (imap (YouTube.prepare E) videos)
                    (completion E videos) ;;
     YouTube.send_cards remoteJid (YouTube.sort_by_index videoData) ;;;
     _ <- sendMessage remoteJid (Text footer) ;;
     ret tt)
    (fun _ => delivers
                (l ++ (remoteJid, Text header)
                   :: imap (fun i video => (remoteJid, card_content E i video))
                        videos
                   ++ [(remoteJid, Text footer)])).
Proof.
  intros Hperm.
  eapply succeeds_bind; [by apply sendMessage_delivers|]. intros ?.
  rewrite promise_all_settled by (by rewrite length_imap).
  apply succeeds_ret_bind.
  pose proof (sort_prepared E videos 0) as Hsort.
  change (fun i => YouTube.prepare E (0 + i)) with (YouTube.prepare E)
    in Hsort.
  rewrite Hsort.
  eapply succeeds_bind; [apply send_cards_deliver|]. intros ?.
  eapply succeeds_bind; [by apply sendMessage_delivers|]. intros ?.
  apply succeeds_ret. intros s Hs.
  rewrite cards_of_prepared in Hs.
  by rewrite <- !app_assoc in Hs.
Qed.

(** *** Under any behaviour of the transport *)

Lemma emits_cards_sent {A} (m : M world A) w cards :
  emits m w cards -> cards_sent w (snd (m w)) = cards.
Proof.
  intros (extra & Hd & Hc). unfold cards_sent. rewrite Hd.
  by rewrite drop_app_length.
Qed.

Lemma emits_ret {A} (a : A) w : emits (ret a) w [].
Proof. exists []. by rewrite app_nil_r. Qed.

(** What [m] emits, then what [k] emits from where [m] returned, or
    nothing when [m] did not return. *)
Lemma emits_bind {A B} (m : M world A) (k : A -> M world B) w c1 c2 :
  emits m w c1 ->
  (forall a, fst (m w) = Ok a -> emits (k a) (snd (m w)) c2) ->
  ((forall a, fst (m w) <> Ok a) -> c2 = []) ->
  emits (bind m k) w (c1 ++ c2).
Proof.
  intros (e1 & Hd1 & Hc1) Hk Hno. unfold emits, bind.
  destruct (m w) as [[a|e|] w1]; simpl in *.
  - destruct (Hk a eq_refl) as (e2 & Hd2 & Hc2).
    exists (e1 ++ e2). rewrite Hd2, Hd1, <- app_assoc. split; [done|].
    by rewrite omap_app, Hc1, Hc2.
  - rewrite Hno by done. exists e1. by rewrite app_nil_r.
  - rewrite Hno by done. exists e1. by rewrite app_nil_r.
Qed.

(** The same for a handler that takes over when [m] throws. *)
Lemma emits_try_catch {A} (m : M world A) h w c1 c2 :
  emits m w c1 ->
  (forall e, fst (m w) = Throw e -> emits (h e) (snd (m w)) c2) ->
  ((forall e, fst (m w) <> Throw e) -> c2 = []) ->
  emits (try_catch m h) w (c1 ++ c2).
Proof.
  intros (e1 & Hd1 & Hc1) Hh Hno. unfold emits, try_catch.
  destruct (m w) as [[a|e|] w1]; simpl in *.
  - rewrite Hno by done. exists e1. by rewrite app_nil_r.
  - destruct (Hh e eq_refl) as (e2 & Hd2 & Hc2).
    exists (e1 ++ e2). rewrite Hd2, Hd1, <- app_assoc. split; [done|].
    by rewrite omap_app, Hc1, Hc2.
  - rewrite Hno by done. exists e1. by rewrite app_nil_r.
Qed.

(** A send delivers its message or throws. *)
Lemma sendMessage_emits remoteJid c w :
  (forall key, c <> Delete key) ->
  (exists key, fst (sendMessage remoteJid c w) = Ok key
               /\ emits (sendMessage remoteJid c) w
                    (option_list (card_index c)))
  \/ (exists e, fst (sendMessage remoteJid c w) = Throw e
                /\ emits (sendMessage remoteJid c) w []).
Proof.
  intros Hc.
  assert (Hsend : sendMessage remoteJid c w
    = match send_faults w with
      | true :: sf =>
          (Throw TransportError,
           set_transport w (delivered w) (live w) (next_key w)
             sf (delete_faults w))
      | sf =>
          (Ok (next_key w),
           set_transport w (delivered w ++ [(remoteJid, c, next_key w)])
             (live w ++ [next_key w]) (Datatypes.S (next_key w))
             (tail sf) (delete_faults w))
      end).
  { destruct c as [t|image caption|path fileName caption|key]; try done.
    by destruct (Hc key). }
  unfold emits. rewrite Hsend.
  destruct (send_faults w) as [|[] sf].
  - left. eexists. split; [reflexivity|]. eexists. split; [reflexivity|].
    cbn. by destruct (card_index c).
  - right. eexists. split; [reflexivity|]. exists []. cbn.
    by rewrite app_nil_r.
  - left. eexists. split; [reflexivity|]. eexists. split; [reflexivity|].
    cbn. by destruct (card_index c).
Qed.

Lemma sendMessage_plain_emits remoteJid t w :
  card_index (Text t) = None ->
  emits (_ <- sendMessage remoteJid (Text t) ;; ret tt) w [].
Proof.
  intros Hplain.
  destruct (sendMessage_emits remoteJid (Text t) w) as
    [(key & Hok & Hem)|(e & Hth & Hem)]; [done| |].
  - rewrite Hplain in Hem.
    apply (emits_bind _ _ w [] []); [done|intros; apply emits_ret|done].
  - apply (emits_bind _ _ w [] []); [done|intros; apply emits_ret|done].
Qed.

(** One card: it is delivered and the loop goes on, or both sends threw
    and nothing was delivered. *)
Lemma send_card_emits remoteJid data i video w :
  YouTube.videoText data = TVideoCard i video ->
  (fst (YouTube.send_card remoteJid data w) = Ok tt
   /\ emits (YouTube.send_card remoteJid data) w [i])
  \/ (exists e, fst (YouTube.send_card remoteJid data w) = Throw e
                /\ emits (YouTube.send_card remoteJid data) w []).
Proof.
  intros Htext. unfold YouTube.send_card, try_catch, bind, ret, emits.
  rewrite Htext.
  assert (Hfallback : forall w1 extra,
    delivered w1 = delivered w ++ extra ->
    omap (fun d => card_index (snd (fst d))) extra = [] ->
    let r := match sendMessage remoteJid (Text (TVideoCard i video)) w1 with
             | (Ok _, s') => (Ok tt, s')
             | (Throw e, s') => (Throw e, s')
             | (Pending, s') => (Pending, s')
             end in
    (fst r = Ok tt
     /\ exists extra', delivered (snd r) = delivered w ++ extra'
          /\ omap (fun d => card_index (snd (fst d))) extra' = [i])
    \/ (exists e, fst r = Throw e
          /\ exists extra', delivered (snd r) = delivered w ++ extra'
               /\ omap (fun d => card_index (snd (fst d))) extra' = [])).
  { intros w1 extra Hd Hc. cbv zeta.
    destruct (sendMessage_emits remoteJid (Text (TVideoCard i video)) w1)
      as [(key & Hok & e1 & Hd1 & Hc1)|(e & Hth & e1 & Hd1 & Hc1)]; [done| |];
      destruct (sendMessage _ _ w1) as [r w2]; cbn [fst snd] in *; subst r.
    - left. split; [done|]. exists (extra ++ e1). cbn [snd].
      rewrite Hd1, Hd, <- app_assoc. split; [done|].
      by rewrite omap_app, Hc, Hc1.
    - right. exists e. split; [done|]. exists (extra ++ e1). cbn [snd].
      rewrite Hd1, Hd, <- app_assoc. split; [done|].
      by rewrite omap_app, Hc, Hc1. }
  destruct (YouTube.thumbnailBuffer data) as [image|].
  - destruct (sendMessage_emits remoteJid (Image image (TVideoCard i video)) w)
      as [(key & Hok & e1 & Hd1 & Hc1)|(e & Hth & e1 & Hd1 & Hc1)]; [done| |];
      destruct (sendMessage _ (Image _ _) w) as [r w1];
      cbn [fst snd] in *; subst r.
    + left. split; [done|]. by exists e1.
    + by apply (Hfallback w1 e1).
  - destruct (sendMessage_emits remoteJid (Text (TVideoCard i video)) w)
      as [(key & Hok & e1 & Hd1 & Hc1)|(e & Hth & e1 & Hd1 & Hc1)]; [done| |];
      destruct (sendMessage _ (Text _) w) as [r w1];
      cbn [fst snd] in *; subst r.
    + left. split; [done|]. by exists e1.
    + by apply (Hfallback w1 e1).
Qed.

(** The cards of a list that is in the order of its indices: a prefix of
    them is delivered, in that order; all of them when the loop
    returns. *)
Lemma send_cards_emits E remoteJid (videos : list item) k w :
  exists j, (j <= length videos)%nat
    /\ emits (YouTube.send_cards remoteJid
                (imap (fun i => YouTube.prepare E (k + i)) videos)) w
         (seq k j)
    /\ fst (YouTube.send_cards remoteJid
              (imap (fun i => YouTube.prepare E (k + i)) videos) w) <> Pending.
Proof.
  revert k w. induction videos as [|video rest IH]; intros k w.
  - exists 0%nat. split; [done|]. split; [apply emits_ret|done].
  - rewrite imap_cons. cbn [YouTube.send_cards].
    assert (Hext : imap ((fun i => YouTube.prepare E (k + i)) ∘ Datatypes.S) rest
                   = imap (fun i => YouTube.prepare E (Datatypes.S k + i)) rest).
    { apply imap_ext. intros i x _. simpl. f_equal. lia. }
    rewrite Hext.
    destruct (send_card_emits remoteJid (YouTube.prepare E (k + 0) video)
                (k + 0) video w eq_refl) as [[Hok Hem]|(e & Hth & Hem)].
    + destruct (IH (Datatypes.S k)
                  (snd (YouTube.send_card remoteJid
                          (YouTube.prepare E (k + 0) video) w)))
        as (j & Hj & Hrest & Hfin).
      exists (Datatypes.S j). split; [simpl; lia|]. split.
      * replace (seq k (Datatypes.S j)) with ([k + 0] ++ seq (Datatypes.S k) j)%nat
          by (simpl; f_equal; lia).
        apply emits_bind; [done| |].
        -- intros []. intros _. exact Hrest.
        -- intros Hno. by destruct (Hno tt).
      * unfold bind.
        destruct (YouTube.send_card remoteJid _ w) as [[[]|?|] w1]; done.
    + exists 0%nat. split; [lia|]. split.
      * replace (seq k 0) with (@nil nat ++ []) by done.
        apply emits_bind; [done| |done].
        intros a Ha. congruence.
      * unfold bind.
        destruct (YouTube.send_card remoteJid _ w) as [[[]|?|] w1]; done.
Qed.

(** Whatever the transport does with each send, the cards that get
    delivered are those of the first results, each once, in the order of
    the list. *)
Lemma batch_emits_prefix E remoteJid (videos : list item) header footer
    (problem : exn -> console_entry) sorry w :
  completion E videos ≡ₚ seq 0 (length videos) ->
  card_index (Text header) = None ->
  card_index (Text footer) = None ->
  card_index (Text sorry) = None ->
  exists j, (j <= length videos)%nat
    /\ emits
         (try_catch
            (_ <- sendMessage remoteJid (Text header) ;;
             videoData <- YouTube.promise_all (imap (YouTube.prepare E) videos)
                            (completion E videos) ;;
             YouTube.send_cards remoteJid (YouTube.sort_by_index videoData) ;;;
             _ <- sendMessage remoteJid (Text footer) ;;
             ret tt)
            (fun error =>
               console_log (problem error) ;;;
               _ <- sendMessage remoteJid (Text sorry) ;; ret tt))
         w (seq 0 j).
Proof.
  intros Hperm Hh Hf Hs.
  rewrite promise_all_settled by (by rewrite length_imap).
  pose proof (sort_prepared E videos 0) as Hsort.
  change (fun i => YouTube.prepare E (0 + i)) with (YouTube.prepare E)
    in Hsort.
  assert (Hhandler : forall e w', emits
            (console_log (problem e) ;;;
             _ <- sendMessage remoteJid (Text sorry) ;; ret tt) w' []).
  { intros e w'.
    apply (emits_bind (console_log (problem e)) _ w' [] []).
    - exists []. by rewrite app_nil_r.
    - intros _ _. by apply sendMessage_plain_emits.
    - done. }
  set (cards := fun w1 =>
         YouTube.send_cards remoteJid
           (YouTube.sort_by_index (imap (YouTube.prepare E) videos)) w1).
  assert (Hbody : forall w1, exists j, (j <= length videos)%nat
            /\ emits
                 (YouTube.send_cards remoteJid
                    (YouTube.sort_by_index (imap (YouTube.prepare E) videos)) ;;;
                  _ <- sendMessage remoteJid (Text footer) ;; ret tt)
                 w1 (seq 0 j)).
  { intros w1. rewrite Hsort.
    destruct (send_cards_emits E remoteJid videos 0 w1) as (j & Hj & Hem & _).
    change (fun i => YouTube.prepare E (0 + i)) with (YouTube.prepare E)
      in Hem.
    exists j. split; [done|].
    rewrite <- (app_nil_r (seq 0 j)).
    apply emits_bind; [done| |done].
    intros _ _. by apply sendMessage_plain_emits. }
  destruct (sendMessage_emits remoteJid (Text header) w)
    as [(key & Hok & Hem)|(e & Hth & Hem)]; [done| |].
  - rewrite Hh in Hem. simpl in Hem.
    destruct (Hbody (snd (sendMessage remoteJid (Text header) w)))
      as (j & Hj & Hemj).
    exists j. split; [done|].
    replace (seq 0 j) with ((@nil nat ++ seq 0 j) ++ []) by (by rewrite app_nil_r).
    apply emits_try_catch; [|intros; apply Hhandler|done].
    apply emits_bind; [done| |].
    + intros a _. exact Hemj.
    + intros Hno. by destruct (Hno key).
  - exists 0%nat. split; [lia|].
    replace (seq 0 0) with ((@nil nat ++ []) ++ []) by done.
    apply emits_try_catch; [|intros; apply Hhandler|done].
    apply emits_bind; [done| |done].
    intros a Ha. congruence.
Qed.

(** C9: whatever the order in which the cards of a batch are prepared, the
    results go out one after the other in the order of the list.  On a
    working transport they go out between the heading and the
    instructions: the item of index i is the i-th card transmitted, with
    its thumbnail when the fetch succeeded and as text only when it
    failed, and no item is left out.  On a transport that fails at any of
    its sends, the cards that were delivered are still those of the first
    results, each once and in the order of the list.  This holds for the
    results of a video search and for the latest videos of a channel. *)
Theorem batch_sent_in_order (E : environment) (remoteJid : jsstring)
    (videos : list item) (channelTitle : jsstring) (count : option Z)
    (w : world) :
  completion E videos ≡ₚ seq 0 (length videos) ->
  (send_faults w = [] ->
   (fst (YouTube.sendVideoSearchResults E remoteJid videos w) = Ok tt
    /\ outbox (snd (YouTube.sendVideoSearchResults E remoteJid videos w))
       = outbox w
         ++ (remoteJid, Text (TFoundVideos (length videos)))
         :: imap (fun i video => (remoteJid, card_content E i video)) videos
         ++ [(remoteJid, Text (TQualityInstructions (length videos)))])
   /\ (fst (YouTube.sendChannelLatestVideos E remoteJid videos channelTitle
              count w) = Ok tt
       /\ outbox (snd (YouTube.sendChannelLatestVideos E remoteJid videos
                         channelTitle count w))
          = outbox w
            ++ (remoteJid, Text (TLatestVideos (length videos) channelTitle))
            :: imap (fun i video => (remoteJid, card_content E i video)) videos
            ++ [(remoteJid, Text (TQualityInstructions (length videos)))]))
  /\ (exists j, (j <= length videos)%nat
        /\ cards_sent w (snd (YouTube.sendVideoSearchResults E remoteJid
                                videos w))
           = seq 0 j)
  /\ (exists j, (j <= length videos)%nat
        /\ cards_sent w (snd (YouTube.sendChannelLatestVideos E remoteJid
                                videos channelTitle count w))
           = seq 0 j)
  /\ (forall i video,
        downloadImage E (thumbnail video) = None ->
        card_content E i video = Text (TVideoCard i video)).
Proof.
  intros Hperm.
  split; [|split; [|split]].
  - intros Hf.
    assert (Hw : delivers (outbox w) w) by done.
    split.
    + destruct (succeeds_try_catch _ _ _
                  (fun error =>
                     console_log (ErrorSendingVideoResults error) ;;;
                     _ <- sendMessage remoteJid (Text TErrorDisplayingVideos) ;;
                     ret tt)
                  (batch_delivers E remoteJid videos
                     (TFoundVideos (length videos))
                     (TQualityInstructions (length videos)) (outbox w) Hperm)
                  w Hw) as ([] & Hok & _ & Hout).
      split; [exact Hok|exact Hout].
    + destruct (succeeds_try_catch _ _ _
                  (fun error =>
                     console_log (ErrorSendingChannelVideos error) ;;;
                     _ <- sendMessage remoteJid
                            (Text TErrorDisplayingChannelVideos) ;;
                     ret tt)
                  (batch_delivers E remoteJid videos
                     (TLatestVideos (length videos) channelTitle)
                     (TQualityInstructions (length videos)) (outbox w) Hperm)
                  w Hw) as ([] & Hok & _ & Hout).
      split; [exact Hok|exact Hout].
  - destruct (batch_emits_prefix E remoteJid videos
                (TFoundVideos (length videos))
                (TQualityInstructions (length videos))
                ErrorSendingVideoResults TErrorDisplayingVideos w
                Hperm eq_refl eq_refl eq_refl) as (j & Hj & Hem).
    exists j. split; [exact Hj|]. exact (emits_cards_sent _ w _ Hem).
  - destruct (batch_emits_prefix E remoteJid videos
                (TLatestVideos (length videos) channelTitle)
                (TQualityInstructions (length videos))
                ErrorSendingChannelVideos TErrorDisplayingChannelVideos w
                Hperm eq_refl eq_refl eq_refl) as (j & Hj & Hem).
    exists j. split; [exact Hj|]. exact (emits_cards_sent _ w _ Hem).
  - intros i video Hnone. unfold card_content. by rewrite Hnone.
Qed.

Lemma batch_sent_in_order_witness :
  completion working three_videos ≡ₚ seq 0 (length three_videos)
  /\ completion working three_videos = [2; 1; 0]%nat
  /\ send_faults quiet = []
  /\ map snd (outbox (snd (YouTube.sendVideoSearchResults working chat
                             three_videos quiet)))
     = [Text (TFoundVideos 3);
        Text (TVideoCard 0 (video "a"));
        Text (TVideoCard 1 (video "b"));
        Text (TVideoCard 2 (video "c"));
        Text (TQualityInstructions 3)].
Proof.
  assert (Hperm : completion working three_videos
                  ≡ₚ seq 0 (length three_videos)).
  { change ([2; 1; 0]%nat ≡ₚ [0; 1; 2]%nat).
    change ([2; 1; 0]%nat) with (reverse [0; 1; 2]%nat).
    apply reverse_Permutation. }
  split; [exact Hperm|]. split; [reflexivity|]. split; [reflexivity|].
  rewrite (proj2 (proj1 (proj1 (batch_sent_in_order working chat three_videos
                                  (Js.lit "channel") None quiet Hperm)
                           eq_refl))).
  reflexivity.
Defined.

(** * Properties of the further modules *)

(** ** Numbers as text *)

Lemma decimal_snoc (ds : jsstring) d :
  Js.decimal (ds ++ [d]) = 10 * Js.decimal ds + Js.digitValue d.
Proof. unfold Js.decimal. by rewrite fold_left_app. Qed.

Lemma digit_of_mod n : 0 <= n -> Js.isDigit (48 + n mod 10) = true.
Proof.
  intros Hn. unfold Js.isDigit.
  pose proof (Z.mod_pos_bound n 10 ltac:(lia)). lia.
Qed.

Lemma digits_of_S fuel n acc :
  Js.digits_of (S fuel) n acc
  = if n / 10 =? 0 then (48 + n mod 10) :: acc
    else Js.digits_of fuel (n / 10) ((48 + n mod 10) :: acc).
Proof. reflexivity. Qed.

Lemma digits_of_spec fuel n acc :
  0 <= n < 2 ^ Z.of_nat (S fuel) ->
  exists ds,
    Js.digits_of (S fuel) n acc = ds ++ acc
    /\ ds <> []
    /\ forallb Js.isDigit ds = true
    /\ Js.decimal ds = n
    /\ (n < 10 -> ds = [48 + n])
    /\ (10 <= n -> (2 <= length ds)%nat)
    /\ (n < 100 -> (length ds <= 2)%nat).
Proof.
  revert n acc. induction fuel as [|fuel IH]; intros n acc Hn.
  - assert (n = 0 \/ n = 1) as [-> | ->] by (change (2 ^ Z.of_nat 1) with 2 in Hn; lia);
      (eexists [_]; repeat split; try done; simpl; lia).
  - rewrite digits_of_S.
    destruct (n / 10 =? 0) eqn:Hq.
    + assert (n < 10).
      { apply Z.eqb_eq in Hq. apply Z.div_small_iff in Hq; lia. }
      exists [48 + n mod 10]. rewrite Z.mod_small by lia.
      repeat split; try done;
        try (simpl; unfold Js.isDigit, Js.decimal, Js.digitValue; simpl; lia).
    + apply Z.eqb_neq in Hq.
      assert (10 <= n).
      { destruct (Z_lt_le_dec n 10); [|done].
        exfalso. apply Hq. apply Z.div_small. lia. }
      assert (Hlt : n / 10 < 2 ^ Z.of_nat (S fuel)).
      { replace (Z.of_nat (S (S fuel))) with (Z.of_nat (S fuel) + 1) in Hn by lia.
        rewrite Z.pow_add_r in Hn by lia. change (2 ^ 1) with 2 in Hn.
        apply Z.div_lt_upper_bound; lia. }
      destruct (IH (n / 10) ((48 + n mod 10) :: acc)) as
        (ds & Heq & Hne & Hall & Hdec & Hsmall & Hbig & Hlen).
      { split; [apply Z.div_pos; lia|done]. }
      exists (ds ++ [48 + n mod 10]).
      rewrite Heq, <- app_assoc. repeat split.
      * by destruct ds.
      * rewrite forallb_app, Hall. simpl. by rewrite digit_of_mod by lia.
      * rewrite decimal_snoc, Hdec. unfold Js.digitValue.
        pose proof (Z.div_mod n 10 ltac:(lia)). lia.
      * lia.
      * intros _. rewrite length_app. simpl. destruct ds; [done|simpl; lia].
      * intros H100. rewrite Hsmall.
        -- simpl. lia.
        -- apply Z.div_lt_upper_bound; lia.
Qed.

Lemma toString_spec n :
  0 <= n ->
  digits (Js.toString n)
  /\ Js.decimal (Js.toString n) = n
  /\ (n < 10 -> Js.toString n = [48 + n])
  /\ (10 <= n -> (2 <= length (Js.toString n))%nat)
  /\ (n < 100 -> (length (Js.toString n) <= 2)%nat).
Proof.
  intros Hn. unfold Js.toString.
  destruct (n <? 0) eqn:Hneg; [lia|].
  destruct (digits_of_spec (Z.to_nat (Z.log2 n)) n []) as
    (ds & Heq & Hne & Hall & Hdec & Hsmall & Hbig & Hlen).
  { split; [done|].
    rewrite Nat2Z.inj_succ, Z2Nat.id by apply Z.log2_nonneg.
    destruct (Z.eq_dec n 0) as [->|]; [done|].
    apply Z.log2_spec. lia. }
  rewrite Heq, app_nil_r. by repeat split.
Qed.

Lemma toString_digits n : 0 <= n -> digits (Js.toString n).
Proof. intros Hn. by apply toString_spec. Qed.

Lemma parseInt_toString n : 0 <= n -> Js.parseInt (Js.toString n) = Some n.
Proof.
  intros Hn. destruct (toString_spec n Hn) as (Hd & Hdec & _).
  by rewrite parseInt_digits, Hdec.
Qed.

Lemma padStart2_two_digits n :
  0 <= n -> Js.padStart2 (Js.toString n) = two_digits n.
Proof.
  intros Hn. unfold two_digits.
  destruct (toString_spec n Hn) as (_ & _ & Hsmall & Hbig & _).
  destruct (n <? 10) eqn:Hlt.
  - rewrite Hsmall by lia. reflexivity.
  - specialize (Hbig ltac:(lia)).
    destruct (Js.toString n) as [|c [|d r]]; simpl in *; by try lia.
Qed.

Lemma two_digits_spec n :
  0 <= n ->
  digits (two_digits n)
  /\ Js.decimal (two_digits n) = n
  /\ (2 <= length (two_digits n))%nat
  /\ (n < 100 -> length (two_digits n) = 2%nat).
Proof.
  intros Hn. unfold two_digits.
  destruct (toString_spec n Hn) as ((Hne & Hall) & Hdec & Hsmall & Hbig & Hlen).
  destruct (n <? 10) eqn:Hlt.
  - rewrite Hsmall by lia. repeat split; try done.
    + simpl. unfold Js.isDigit. lia.
    + unfold Js.decimal, Js.digitValue. simpl. lia.
  - repeat split; try done; try (apply Hbig; lia).
    intros H100. specialize (Hbig ltac:(lia)). specialize (Hlen H100). lia.
Qed.

(** ** Durations on the result cards (utils.js [formatDuration]) *)

Lemma search_head {A} (m : jsstring -> option A) s a :
  m s = Some a -> Js.search m s = Some a.
Proof. intros H. destruct s; simpl; by rewrite H. Qed.

Lemma search_none {A} (m : jsstring -> option A) s :
  (forall r, suffix r s -> m r = None) -> Js.search m s = None.
Proof.
  induction s as [|c s IH]; intros H; simpl.
  - by rewrite H.
  - rewrite H by done. apply IH. intros r Hr. apply H.
    by apply suffix_cons_r.
Qed.

Lemma includes_suffix sub r s :
  suffix r s -> Js.startsWith sub r = true -> Js.includes sub s = true.
Proof.
  intros [p ->]. induction p as [|c p IH]; intros H; simpl.
  - destruct r; simpl; by rewrite H.
  - rewrite IH by done. apply orb_true_r.
Qed.

Lemma component_present unit n rest :
  0 <= n -> Js.isDigit unit = false ->
  Utils.component unit (Js.toString n ++ unit :: rest)
  = (Some (Js.toString n), rest).
Proof.
  intros Hn Hu. unfold Utils.component.
  destruct (toString_digits n Hn) as [Hne Hall].
  rewrite span_app by done.
  destruct (Js.toString n); [done|]. by rewrite Z.eqb_refl.
Qed.

Lemma component_other unit other n rest :
  0 <= n -> Js.isDigit other = false -> other <> unit ->
  Utils.component unit (Js.toString n ++ other :: rest)
  = (None, Js.toString n ++ other :: rest).
Proof.
  intros Hn Ho Hne. unfold Utils.component.
  destruct (toString_digits n Hn) as [Hnil Hall].
  rewrite span_app by done.
  destruct (Js.toString n); [done|].
  destruct (other =? unit) eqn:Heq; [lia|done].
Qed.

(** X1: a duration of less than a day is shown as h:mm:ss, or as m:ss when
    it has no hours; the components it leaves out count as zero. *)
Theorem formatDuration_iso8601 (h m s : option Z) :
  counted h -> counted m -> counted s ->
  Utils.formatDuration (iso8601 h m s)
  = clock_text (default 0 h) (default 0 m) (default 0 s).
Proof.
  intros Hh Hm Hs. unfold Utils.formatDuration, iso8601.
  change (Js.lit "PT") with [80; 84].
  change (Js.eqb ([80; 84] ++ ?r) (Js.lit "N/A")) with false. cbv iota.
  assert (Hat : Utils.duration_at
            ([80; 84] ++ unit_part h "H" ++ unit_part m "M" ++ unit_part s "S")
          = Some (option_map Js.toString h, option_map Js.toString m,
                  option_map Js.toString s)).
  { unfold Utils.duration_at.
    change (Js.literal (Js.lit "PT") ([80; 84] ++ ?r)) with (Some r).
    cbv iota.
    destruct h as [h|], m as [m|], s as [s|]; simpl in Hh, Hm, Hs;
      unfold unit_part; simpl option_map;
      change (Js.lit "H") with [72]; change (Js.lit "M") with [77];
      change (Js.lit "S") with [83];
      rewrite ?app_nil_r, <- ?app_assoc; simpl app;
      repeat first
        [ rewrite component_present by (done || lia)
        | rewrite component_other by (done || lia)
        | rewrite (component_present _ _ []) by (done || lia) ];
      try reflexivity. }
  rewrite (search_head _ _ _ Hat).
  assert (Hval : forall n, counted n ->
            Utils.groupValue (option_map Js.toString n) = Some (default 0 n)).
  { intros [n|] Hn; simpl; [|done]. simpl in Hn.
    apply parseInt_toString. lia. }
  rewrite !Hval by done. unfold clock_text, Utils.isPositive.
  unfold Utils.numberToString.
  assert (H0 : forall n, counted n -> 0 <= default 0 n).
  { intros [n|] Hn; simpl in *; lia. }
  rewrite !padStart2_two_digits by auto.
  reflexivity.
Qed.

Lemma formatDuration_iso8601_witness :
  counted (Some 1) /\ counted (Some 2) /\ counted (Some 3)
  /\ iso8601 (Some 1) (Some 2) (Some 3) = Js.lit "PT1H2M3S"
  /\ clock_text 1 2 3 = Js.lit "1:02:03"
  /\ Utils.formatDuration (iso8601 (Some 1) (Some 2) (Some 3))
     = clock_text 1 2 3.
Proof.
  assert (H1 : counted (Some 1)) by (simpl; lia).
  assert (H2 : counted (Some 2)) by (simpl; lia).
  assert (H3 : counted (Some 3)) by (simpl; lia).
  split; [exact H1|]. split; [exact H2|]. split; [exact H3|].
  split; [reflexivity|]. split; [reflexivity|].
  exact (formatDuration_iso8601 (Some 1) (Some 2) (Some 3) H1 H2 H3).
Defined.

(** X2: a duration in which the letters PT do not follow each other, such
    as one with a day part (P1DT2H) or the placeholder N/A, is shown as it
    is. *)
Theorem formatDuration_unchanged (duration : jsstring) :
  Js.includes (Js.lit "PT") duration = false ->
  Utils.formatDuration duration = duration.
Proof.
  intros Hno. unfold Utils.formatDuration.
  destruct (Js.eqb duration (Js.lit "N/A")) eqn:Hna.
  - symmetry. by apply eqb_eq.
  - rewrite search_none; [done|].
    intros r Hr. unfold Utils.duration_at, Js.literal.
    destruct (Js.startsWith (Js.lit "PT") r) eqn:Hstart; [|done].
    by rewrite (includes_suffix _ _ _ Hr Hstart) in Hno.
Qed.

Lemma formatDuration_unchanged_witness :
  Js.includes (Js.lit "PT") (Js.lit "P1DT2H3M4S") = false
  /\ Utils.formatDuration (Js.lit "P1DT2H3M4S") = Js.lit "P1DT2H3M4S".
Proof.
  split; [reflexivity|].
  apply (formatDuration_unchanged (Js.lit "P1DT2H3M4S")). reflexivity.
Defined.

(** ** The elapsed time of a progress sample *)

Lemma digits_app (a b : jsstring) : digits a -> digits b -> digits (a ++ b).
Proof.
  intros [Ha1 Ha2] [Hb1 Hb2]. split.
  - by destruct a.
  - by rewrite forallb_app, Ha2, Hb2.
Qed.

(** X3: the elapsed time of a sample reads mm:ss: minutes on two digits at
    least, seconds on two digits and below 60, and together they are the
    whole seconds since the tracker was created. *)
Theorem time_elapsed_label_reads_back (now startTime : Z) :
  startTime <= now ->
  exists mm ss,
    Js.time_elapsed_label now startTime = mm ++ Js.lit ":" ++ ss
    /\ digits mm /\ digits ss
    /\ (2 <= length mm)%nat /\ length ss = 2%nat
    /\ Js.decimal ss < 60
    /\ 60 * Js.decimal mm + Js.decimal ss = (now - startTime) / 1000.
Proof.
  intros Hle. unfold Js.time_elapsed_label.
  set (e := (now - startTime) / 1000).
  assert (He : 0 <= e) by (apply Z.div_pos; lia).
  assert (Hm : 0 <= e / 60) by (apply Z.div_pos; lia).
  assert (Hs : 0 <= Z.rem e 60 < 60) by (apply Z.rem_bound_pos; lia).
  rewrite !padStart2_two_digits by lia.
  destruct (two_digits_spec (e / 60) Hm) as (Hd1 & Hv1 & Hl1 & _).
  destruct (two_digits_spec (Z.rem e 60) ltac:(lia)) as (Hd2 & Hv2 & _ & Hl2).
  exists (two_digits (e / 60)), (two_digits (Z.rem e 60)).
  repeat split; try done; try (by destruct Hd1); try (by destruct Hd2).
  - apply Hl2. lia.
  - lia.
  - rewrite Hv1, Hv2. rewrite Z.rem_mod_nonneg by lia.
    pose proof (Z.div_mod e 60 ltac:(lia)). lia.
Qed.

Lemma time_elapsed_label_reads_back_witness :
  1000 <= 126000
  /\ Js.time_elapsed_label 126000 1000 = Js.lit "02:05"
  /\ exists mm ss,
       Js.time_elapsed_label 126000 1000 = mm ++ Js.lit ":" ++ ss
       /\ 60 * Js.decimal mm + Js.decimal ss = 125.
Proof.
  split; [lia|]. split; [reflexivity|].
  destruct (time_elapsed_label_reads_back 126000 1000 ltac:(lia))
    as (mm & ss & Heq & _ & _ & _ & _ & _ & Hsum).
  exists mm, ss. split; [exact Heq|exact Hsum].
Defined.

(** ** Chunks (performance.js [chunkArray]) *)

Section Chunks.

Import Batches.

Lemma slice_chunk {A} (array : list A) (size i : Z) :
  0 <= i <= Z.of_nat (length array) -> 1 <= size ->
  slice i (i + size) array
  = take (Z.to_nat size) (drop (Z.to_nat i) array).
Proof.
  intros Hi Hsize. unfold slice.
  destruct (i <? 0) eqn:H1; [lia|]. destruct (i + size <? 0) eqn:H2; [lia|].
  rewrite (Z.min_l i) by lia.
  destruct (Z_le_gt_dec (i + size) (Z.of_nat (length array))).
  - rewrite Z.min_l by lia. f_equal. lia.
  - rewrite Z.min_r by lia.
    rewrite !take_ge; [done| |]; rewrite length_drop; lia.
Qed.

Lemma chunk_loop_spec {A} (array : list A) (size : Z) :
  1 <= size ->
  forall (n : nat) i chunks,
    0 <= i -> Z.of_nat (length array) - i <= Z.of_nat n ->
    exists rest,
      (forall fuel, (n < fuel)%nat ->
         chunk_loop fuel array size i chunks = Some (chunks ++ rest))
      /\ concat rest = drop (Z.to_nat i) array
      /\ Forall (fun c => 1 <= Z.of_nat (length c) <= size) rest
      /\ (forall j c, (S j < length rest)%nat -> rest !! j = Some c ->
            Z.of_nat (length c) = size)
      /\ Z.of_nat (length rest)
         = (Z.max (Z.of_nat (length array) - i) 0 + size - 1) / size.
Proof.
  intros Hsize. induction n as [|n IH]; intros i chunks Hi Hn.
  - exists []. split; [|split; [|split; [|split]]].
    + intros [|fuel] Hf; [lia|]. simpl.
      destruct (i <? Z.of_nat (length array)) eqn:Hlt; [lia|].
      by rewrite app_nil_r.
    + simpl. rewrite drop_ge by lia. done.
    + constructor.
    + intros j c Hj. simpl in Hj. lia.
    + simpl. rewrite Z.max_r by lia. symmetry. apply Z.div_small. lia.
  - destruct (Z_lt_le_dec i (Z.of_nat (length array))) as [Hlt|Hge].
    + destruct (IH (i + size) (chunks ++ [slice i (i + size) array]))
        as (rest & Hrun & Hcat & Hall & Hfull & Hlen); [lia|lia|].
      exists (slice i (i + size) array :: rest).
      assert (Hchunk : slice i (i + size) array
                = take (Z.to_nat size) (drop (Z.to_nat i) array))
        by (apply slice_chunk; lia).
      assert (Hcl : Z.of_nat (length (slice i (i + size) array))
                = Z.min size (Z.of_nat (length array) - i)).
      { rewrite Hchunk, length_take, length_drop. lia. }
      split; [|split; [|split; [|split]]].
      * intros [|fuel] Hf; [lia|]. simpl.
        destruct (i <? Z.of_nat (length array)) eqn:Hlt'; [|lia].
        rewrite Hrun by lia. by rewrite <- app_assoc.
      * simpl. rewrite Hcat, Hchunk.
        replace (Z.to_nat (i + size)) with (Z.to_nat i + Z.to_nat size)%nat
          by lia.
        rewrite <- drop_drop. apply take_drop.
      * constructor; [lia|done].
      * intros [|j] c Hj Hc; simpl in Hj, Hc.
        -- injection Hc as <-. rewrite Hcl.
           assert (0 < Z.of_nat (length rest)) by lia.
           destruct (Z_le_gt_dec (Z.of_nat (length array) - (i + size)) 0)
             as [Hend|Hmore]; [|lia].
           rewrite Z.max_r in Hlen by lia.
           rewrite Z.div_small in Hlen by lia. lia.
        -- apply (Hfull j c); [lia|done].
      * simpl length. rewrite Nat2Z.inj_succ, Hlen.
        rewrite (Z.max_l (Z.of_nat (length array) - i)) by lia.
        destruct (Z_le_gt_dec (Z.of_nat (length array) - (i + size)) 0)
          as [Hend|Hmore].
        -- rewrite Z.max_r by lia. rewrite Z.div_small by lia.
           apply (Z.div_unique_pos _ _ _
                    (Z.of_nat (length array) - i - 1)); lia.
        -- rewrite Z.max_l by lia.
           replace (Z.of_nat (length array) - i + size - 1)
             with (Z.of_nat (length array) - (i + size) + size - 1 + 1 * size)
             by lia.
           rewrite Z.div_add by lia. lia.
    + exists []. split; [|split; [|split; [|split]]].
      * intros [|fuel] Hf; [lia|]. simpl.
        destruct (i <? Z.of_nat (length array)) eqn:Hlt; [lia|].
        by rewrite app_nil_r.
      * simpl. rewrite drop_ge by lia. done.
      * constructor.
      * intros j c Hj. simpl in Hj. lia.
      * simpl. rewrite Z.max_r by lia. symmetry. apply Z.div_small. lia.
Qed.

(** With a size of one or more the loop ends within one test per element
    and one more. *)
Lemma chunkArray_chunks {A} (array : list A) (size : Z) :
  1 <= size ->
  exists chunks,
    (forall fuel, (length array < fuel)%nat ->
       chunkArray fuel array size = Some chunks)
    /\ concat chunks = array
    /\ Forall (fun c => 1 <= Z.of_nat (length c) <= size) chunks.
Proof.
  intros Hsize.
  destruct (chunk_loop_spec array size Hsize (length array) 0 [])
    as (rest & Hrun & Hcat & Hall & _); [lia|lia|].
  by exists rest.
Qed.

(** X4: with a size of one or more, [chunkArray] returns, and its chunks
    are the array cut in order into pieces of [size] elements, the last
    one holding what is left: no chunk is empty, none is longer than
    [size], and there are ceil(length / size) of them. *)
Theorem chunkArray_partition {A} (array : list A) (size : Z) :
  1 <= size ->
  exists chunks,
    (forall fuel, (length array < fuel)%nat ->
       chunkArray fuel array size = Some chunks)
    /\ concat chunks = array
    /\ Forall (fun c => 1 <= Z.of_nat (length c) <= size) chunks
    /\ (forall j c, (S j < length chunks)%nat -> chunks !! j = Some c ->
          Z.of_nat (length c) = size)
    /\ Z.of_nat (length chunks) = (Z.of_nat (length array) + size - 1) / size.
Proof.
  intros Hsize.
  destruct (chunk_loop_spec array size Hsize (length array) 0 [])
    as (rest & Hrun & Hcat & Hall & Hfull & Hlen); [lia|lia|].
  exists rest. split; [|split; [|split; [|split]]]; try done.
  rewrite Hlen. f_equal. lia.
Qed.

Lemma chunkArray_partition_witness :
  1 <= 5
  /\ chunkArray 8 (seq 0 7) 5 = Some [[0; 1; 2; 3; 4]; [5; 6]]%nat
  /\ exists chunks,
       chunkArray 8 (seq 0 7) 5 = Some chunks /\ concat chunks = seq 0 7.
Proof.
  split; [lia|]. split; [reflexivity|].
  destruct (chunkArray_partition (seq 0 7) 5 ltac:(lia))
    as (chunks & Hrun & Hcat & _).
  exists chunks. split; [|exact Hcat].
  apply Hrun. simpl. lia.
Defined.

(** X5: with a size of zero or less the loop of [chunkArray] never ends on
    an array that has an element: its index never reaches the length. *)
Theorem chunkArray_never_returns {A} (array : list A) (size : Z) :
  size <= 0 -> array <> [] ->
  forall fuel, chunkArray fuel array size = None.
Proof.
  intros Hsize Hne fuel. unfold chunkArray.
  assert (Hlen : 0 < Z.of_nat (length array)) by (destruct array; [done|simpl; lia]).
  assert (H : forall i chunks, i <= 0 ->
            chunk_loop fuel array size i chunks = None).
  { induction fuel as [|fuel IH]; intros i chunks Hi; [done|]. simpl.
    destruct (i <? Z.of_nat (length array)) eqn:Hlt; [|lia].
    apply IH. lia. }
  by apply H.
Qed.

Lemma chunkArray_never_returns_witness :
  0 <= 0 /\ [Js.lit "a"] <> [] /\ chunkArray 1000 [Js.lit "a"] 0 = None.
Proof.
  split; [lia|]. split; [discriminate|].
  apply (chunkArray_never_returns [Js.lit "a"] 0); [lia|discriminate].
Defined.

End Chunks.

(** ** Batches of messages (performance.js [sendMessagesBatch]) *)

Section BatchSending.

Import Batches.

Lemma sendMessage_plain remoteJid c w :
  (forall key, c <> Delete key) ->
  sendMessage remoteJid c w
  = match send_faults w with
    | true :: sf =>
        (Throw TransportError,
         set_transport w (delivered w) (live w) (next_key w)
           sf (delete_faults w))
    | sf =>
        (Ok (next_key w),
         set_transport w (delivered w ++ [(remoteJid, c, next_key w)])
           (live w ++ [next_key w]) (Datatypes.S (next_key w))
           (tail sf) (delete_faults w))
    end.
Proof.
  intros Hc. destruct c as [t|image caption|path fileName caption|key];
    try done. by destruct (Hc key).
Qed.

Lemma send_or_null_cases T messageData w :
  plain messageData ->
  (exists key w',
     send_or_null T messageData w = (Ok (Some key), w')
     /\ outbox w' = outbox w ++ [messageData]
     /\ console w' = console w
     /\ (send_faults w = [] -> send_faults w' = []))
  \/ (exists e w',
        send_or_null T messageData w = (Ok None, w')
        /\ outbox w' = outbox w
        /\ console w' = console w ++ [failedToSendMessage T e]
        /\ send_faults w <> []).
Proof.
  intros Hplain. destruct messageData as [remoteJid c].
  unfold send_or_null, try_catch, bind, ret. cbn [fst snd].
  rewrite sendMessage_plain by exact Hplain.
  destruct (send_faults w) as [|[] sf] eqn:Hsf.
  - left. eexists _, _. split; [reflexivity|].
    unfold outbox. cbn. rewrite map_app. by repeat split.
  - right. eexists _, _. split; [reflexivity|]. by repeat split.
  - left. eexists _, _. split; [reflexivity|].
    unfold outbox. cbn. rewrite map_app. by repeat split.
Qed.

Lemma accepted_app (a b : list (jsstring * content)) va vb :
  length a = length va ->
  accepted (a ++ b) (va ++ vb) = accepted a va ++ accepted b vb.
Proof.
  intros Hlen. unfold accepted.
  by rewrite zip_with_app, omap_app.
Qed.

Lemma accepted_cons_some m ms key vs :
  accepted (m :: ms) (Some key :: vs) = m :: accepted ms vs.
Proof. reflexivity. Qed.

Lemma accepted_cons_none m ms vs :
  accepted (m :: ms) (None :: vs) = accepted ms vs.
Proof. reflexivity. Qed.

Lemma processBatch_spec T batch w :
  exists values w',
    processBatch T batch w = (Ok values, w')
    /\ length values = length batch
    /\ (Forall plain batch ->
        outbox w' = outbox w ++ accepted batch values
        /\ (length (console w') + length (List.filter isSome values)
            = length (console w) + length batch)%nat
        /\ (send_faults w = [] ->
            accepted batch values = batch
            /\ List.filter isSome values = values
            /\ send_faults w' = [])).
Proof.
  revert w. induction batch as [|messageData rest IH]; intros w.
  - exists [], w. repeat split; try done.
    + unfold accepted. simpl. by rewrite app_nil_r.
  - cbn [processBatch]. unfold bind at 1.
    assert (Hfin : exists value w1, send_or_null T messageData w = (Ok value, w1)).
    { unfold send_or_null, try_catch, bind, ret, console_log, modify.
      destruct (sendMessage _ _ w) as [[key|e|] w1] eqn:Hs; try by eexists _, _.
      by destruct (finite_sendMessage (fst messageData) (snd messageData) w);
        rewrite Hs. }
    destruct Hfin as (value & w1 & H1). rewrite H1.
    destruct (IH w1) as (values & w' & Hrun & Hlen & Hrest).
    unfold bind, ret. rewrite Hrun.
    exists (value :: values), w'. split; [done|]. split; [simpl; lia|].
    intros Hall. apply Forall_cons in Hall as [Hhead Hall].
    destruct (Hrest Hall) as (Hout & Hcon & Hwork).
    destruct (send_or_null_cases T messageData w Hhead)
      as [(key & w2 & H2 & Hout1 & Hcon1 & Hwork1)
         |(e & w2 & H2 & Hout1 & Hcon1 & Hfault)];
      rewrite H1 in H2; injection H2 as -> ->.
    + rewrite accepted_cons_some. split; [|split].
      * rewrite Hout, Hout1, <- app_assoc. done.
      * simpl. rewrite Hcon1 in Hcon. lia.
      * intros Hw. destruct (Hwork (Hwork1 Hw)) as (Ha & Hf & Hs).
        simpl. by rewrite Ha, Hf.
    + rewrite accepted_cons_none. split; [|split].
      * rewrite Hout, Hout1. done.
      * simpl. rewrite Hcon1, length_app in Hcon. simpl in Hcon. lia.
      * intros Hw. done.
Qed.

Lemma processBatches_spec T batches w :
  exists results w',
    processBatches T batches w = (Ok results, w')
    /\ map length results = map length batches
    /\ (Forall plain (concat batches) ->
        outbox w' = outbox w ++ accepted (concat batches) (concat results)
        /\ (length (console w')
            + length (List.filter isSome (concat results))
            = length (console w) + length (concat batches))%nat
        /\ (send_faults w = [] ->
            accepted (concat batches) (concat results) = concat batches
            /\ List.filter isSome (concat results) = concat results
            /\ send_faults w' = [])).
Proof.
  revert w. induction batches as [|batch rest IH]; intros w.
  - exists [], w. repeat split; try done.
    unfold accepted. simpl. by rewrite app_nil_r.
  - cbn [processBatches]. unfold bind at 1.
    destruct (processBatch_spec T batch w) as (values & w1 & H1 & Hlen1 & Hb).
    rewrite H1.
    destruct (IH w1) as (results & w' & Hrun & Hlen & Hrest).
    unfold bind, ret. rewrite Hrun.
    exists (values :: results), w'. split; [done|].
    split; [simpl; by rewrite Hlen1, Hlen|].
    simpl concat. intros Hall. apply Forall_app in Hall as [Hhead Hall].
    destruct (Hb Hhead) as (Hout1 & Hcon1 & Hwork1).
    destruct (Hrest Hall) as (Hout & Hcon & Hwork).
    rewrite accepted_app by done. split; [|split].
    + by rewrite Hout, Hout1, <- app_assoc.
    + rewrite List.filter_app, !length_app. lia.
    + intros Hw. destruct (Hwork1 Hw) as (Ha1 & Hf1 & Hs1).
      destruct (Hwork Hs1) as (Ha & Hf & Hs).
      by rewrite List.filter_app, Ha1, Ha, Hf1, Hf.
Qed.

Lemma Forall_same_lengths {A B} (P : nat -> Prop) (a : list (list A))
    (b : list (list B)) :
  map length a = map length b ->
  Forall (fun c => P (length c)) b -> Forall (fun c => P (length c)) a.
Proof.
  revert b. induction a as [|x a IH]; intros [|y b] Hlen Hall;
    try done; simpl in Hlen.
  injection Hlen as Hxy Hlen. apply Forall_cons in Hall as [Hy Hall].
  constructor; [by rewrite Hxy|by apply (IH b)].
Qed.

Lemma length_concat_same {A B} (a : list (list A)) (b : list (list B)) :
  map length a = map length b -> length (concat a) = length (concat b).
Proof.
  revert b. induction a as [|x a IH]; intros [|y b] Hlen;
    try done; simpl in Hlen.
  injection Hlen as Hxy Hlen. simpl. rewrite !length_app, Hxy.
  by rewrite (IH b).
Qed.

(** What a call of [sendMessagesBatch] returns and leaves. *)
Lemma sendMessagesBatch_spec (T : templates)
    (manager : Performance.PerformanceManager)
    (messages : list (jsstring * content)) (w : world) :
  1 <= Performance.batchSize manager ->
  exists results w',
    sendMessagesBatch T manager messages w = (Ok results, w')
    /\ Forall (fun values =>
                 1 <= Z.of_nat (length values) <= Performance.batchSize manager)
         results
    /\ length (concat results) = length messages
    /\ (Forall plain messages ->
        outbox w' ≡ₚ outbox w ++ accepted messages (concat results)
        /\ (length (console w') + length (List.filter isSome (concat results))
            = length (console w) + length messages)%nat
        /\ (send_faults w = [] -> outbox w' ≡ₚ outbox w ++ messages)).
Proof.
  intros Hsize. unfold sendMessagesBatch.
  destruct (chunkArray_chunks messages (Performance.batchSize manager) Hsize)
    as (batches & Hchunks & Hcat & Hall).
  rewrite Hchunks by lia.
  destruct (processBatches_spec T batches w)
    as (results & w' & Hrun & Hlen & Hrest).
  rewrite Hrun. exists results, w'.
  split; [done|]. split; [|split].
  - by apply (Forall_same_lengths
                (fun n => 1 <= Z.of_nat n <= Performance.batchSize manager)
                results batches).
  - rewrite <- Hcat. by apply length_concat_same.
  - intros Hplain. rewrite <- Hcat in Hplain.
    destruct (Hrest Hplain) as (Hout & Hcon & Hwork).
    rewrite Hcat in Hout, Hcon, Hwork. split; [by rewrite Hout|].
    split; [exact Hcon|].
    intros Hw. destruct (Hwork Hw) as (Ha & _). by rewrite Hout, Ha.
Qed.

(** X6: [sendMessagesBatch] never throws, whatever the transport does with
    each send: it returns one value per message, in groups of [batchSize]
    at most.  The transport has delivered the messages whose value is not
    null, each once, and every other one has left a line on the
    console.  On a transport that works all of them are delivered. *)
Theorem sendMessagesBatch_settles (T : templates)
    (manager : Performance.PerformanceManager)
    (messages : list (jsstring * content)) (w : world) :
  1 <= Performance.batchSize manager ->
  exists results,
    fst (sendMessagesBatch T manager messages w) = Ok results
    /\ Forall (fun values =>
                 1 <= Z.of_nat (length values) <= Performance.batchSize manager)
         results
    /\ length (concat results) = length messages
    /\ (Forall plain messages ->
        outbox (snd (sendMessagesBatch T manager messages w))
          ≡ₚ outbox w ++ accepted messages (concat results)
        /\ (length (console (snd (sendMessagesBatch T manager messages w)))
            + length (List.filter isSome (concat results))
            = length (console w) + length messages)%nat
        /\ (send_faults w = [] ->
            outbox (snd (sendMessagesBatch T manager messages w))
              ≡ₚ outbox w ++ messages)).
Proof.
  intros Hsize.
  destruct (sendMessagesBatch_spec T manager messages w Hsize)
    as (results & w' & -> & Hshape & Hlen & Hrest).
  exists results. cbn [fst snd]. by repeat (split; [done|]).
Qed.

Lemma sendMessagesBatch_settles_witness :
  1 <= Performance.batchSize Performance.newPerformanceManager
  /\ exists results,
       fst (sendMessagesBatch example_templates Performance.newPerformanceManager
              (replicate 7 (chat, Text TDefaultAutoReply))
              (set_transport quiet [] [] O [false; true; false] []))
       = Ok results
       /\ map length results = [5; 2]%nat
       /\ length (List.filter isSome (concat results)) = 6%nat.
Proof.
  split; [simpl; lia|].
  destruct (sendMessagesBatch_settles example_templates
              Performance.newPerformanceManager
              (replicate 7 (chat, Text TDefaultAutoReply))
              (set_transport quiet [] [] O [false; true; false] [])
              ltac:(simpl; lia)) as (results & Hrun & _).
  exists results. split; [exact Hrun|].
  vm_compute in Hrun. injection Hrun as <-. split; reflexivity.
Defined.

(** ** The broadcast (commands.js [broadcastWelcomeMessage]) *)

Lemma length_accepted (messages : list (jsstring * content)) values :
  length messages = length values ->
  length (accepted messages values) = length (List.filter isSome values).
Proof.
  revert values. induction messages as [|m ms IH]; intros [|[key|] vs] Hlen;
    try done; simpl in Hlen.
  - rewrite accepted_cons_some. simpl. f_equal. apply IH. lia.
  - rewrite accepted_cons_none. simpl. apply IH. lia.
Qed.

Lemma length_filter_le {A} (p : A -> bool) (l : list A) :
  (length (List.filter p l) <= length l)%nat.
Proof. induction l as [|x l IH]; simpl; [lia|]. destruct (p x); simpl; lia. Qed.

(** X7: a broadcast never throws.  Without saved chats and without [force]
    it sends nothing.  Otherwise every saved chat is tried once, and the
    line it ends with counts the chats the message was delivered to and
    the chats it failed for: together they are all the saved chats, and on
    a transport that works none has failed. *)
Theorem broadcast_counts (T : templates) (savedChats : list jsstring)
    (force : bool) (w : world) :
  fst (Commands.broadcastWelcomeMessage T savedChats force w) = Ok tt
  /\ (force = false -> savedChats = [] ->
      outbox (snd (Commands.broadcastWelcomeMessage T savedChats force w))
        = outbox w
      /\ console (snd (Commands.broadcastWelcomeMessage T savedChats force w))
         = console w ++ [noSavedChatsToBroadcast T])
  /\ (force = true \/ savedChats <> [] ->
      exists sent failed,
        last (console (snd (Commands.broadcastWelcomeMessage T savedChats
                              force w)))
          = Some (broadcastComplete T sent failed)
        /\ (sent + failed)%nat = length savedChats
        /\ length (outbox (snd (Commands.broadcastWelcomeMessage T savedChats
                                  force w)))
           = (length (outbox w) + sent)%nat
        /\ (send_faults w = [] -> failed = 0%nat)).
Proof.
  destruct (Commands.broadcastWelcomeMessage T savedChats force w)
    as [r wf] eqn:Hrun. cbn [fst snd].
  unfold Commands.broadcastWelcomeMessage in Hrun.
  destruct (negb force && (length savedChats =? 0)%nat) eqn:Hquiet.
  - unfold console_log, modify in Hrun. injection Hrun as <- <-.
    split; [done|]. split; [done|].
    intros [->|Hne]; [done|].
    apply andb_true_iff in Hquiet as [_ Hlen].
    apply Nat.eqb_eq in Hlen. by destruct savedChats.
  - set (messages := map (fun jid => (jid, Text (welcomeText T))) savedChats)
      in *.
    assert (Hplain : Forall plain messages).
    { apply Forall_forall. intros m Hm. apply list_elem_of_fmap in Hm
        as (jid & -> & _). intros key. discriminate. }
    set (w0 := snd (console_log (broadcastingTo T (length savedChats)) w)).
    assert (H0 : console_log (broadcastingTo T (length savedChats)) w
                 = (Ok tt, w0)) by reflexivity.
    destruct (sendMessagesBatch_spec T Performance.newPerformanceManager
                messages w0 ltac:(simpl; lia))
      as (results & w1 & Hsend & _ & Hlen & Hrest).
    destruct (Hrest Hplain) as (Hout & Hcon & Hwork).
    unfold bind at 1 in Hrun. rewrite H0 in Hrun.
    unfold try_catch, bind in Hrun. rewrite Hsend in Hrun.
    unfold console_log, modify in Hrun. injection Hrun as <- <-.
    split; [done|]. split.
    + intros -> ->. done.
    + intros _.
      exists (length (List.filter isSome (concat results))),
             (length (concat results)
              - length (List.filter isSome (concat results)))%nat.
      cbn [console]. rewrite last_snoc. split; [done|].
      pose proof (length_filter_le isSome (concat results)).
      assert (Hm : length messages = length savedChats)
        by (unfold messages; by rewrite length_map).
      assert (Hw0 : outbox w0 = outbox w) by reflexivity.
      split; [lia|]. split.
      * change (length (outbox w1)
                = (length (outbox w)
                   + length (List.filter isSome (concat results)))%nat).
        rewrite Hout, length_app, length_accepted, Hw0 by lia. done.
      * intros Hw. specialize (Hwork Hw).
        assert (Hl : length (outbox w1) = length (outbox w0 ++ messages))
          by (by rewrite Hwork).
        rewrite Hout, !length_app, length_accepted in Hl by lia. lia.
Qed.

Lemma broadcast_counts_witness :
  (true = true \/ [chat; chat; chat] <> [])
  /\ last (console (snd (Commands.broadcastWelcomeMessage example_templates
                           [chat; chat; chat] true
                           (set_transport quiet [] [] O [false; true] []))))
     = Some (broadcastComplete example_templates 2 1)
  /\ exists sent failed,
       last (console (snd (Commands.broadcastWelcomeMessage example_templates
                             [chat; chat; chat] true
                             (set_transport quiet [] [] O [false; true] []))))
         = Some (broadcastComplete example_templates sent failed)
       /\ (sent + failed)%nat = 3%nat.
Proof.
  split; [by left|]. split; [reflexivity|].
  destruct (proj2 (proj2 (broadcast_counts example_templates
                            [chat; chat; chat] true
                            (set_transport quiet [] [] O [false; true] [])))
              (or_introl eq_refl))
    as (sent & failed & Hlast & Hsum & _).
  exists sent, failed. split; [exact Hlast|exact Hsum].
Defined.

End BatchSending.

(** ** The search commands *)

Section Queries.

Import Query.

Lemma decimal_nonneg (ds : jsstring) :
  forallb Js.isDigit ds = true -> 0 <= Js.decimal ds.
Proof.
  unfold Js.decimal.
  assert (H : forall acc, 0 <= acc -> forallb Js.isDigit ds = true ->
            0 <= fold_left (fun acc c => 10 * acc + Js.digitValue c) ds acc).
  { induction ds as [|c ds IH]; intros acc Hacc Hall; [done|].
    simpl in *. apply andb_true_iff in Hall as [Hc Hall].
    apply IH; [|done]. unfold Js.isDigit, Js.digitValue in *. lia. }
  by apply H.
Qed.

(** What [trim] returns has no white space at either end. *)
Lemma trimStart_head (s : jsstring) :
  match Js.trimStart s with [] => True | c :: _ => Js.isSpace c = false end.
Proof.
  unfold Js.trimStart. destruct (Js.span Js.isSpace s) as [a r] eqn:Hspan.
  by destruct (span_spec _ _ _ _ Hspan) as (_ & _ & Hr).
Qed.

Lemma trimStart_suffix (s : jsstring) :
  exists ws, s = ws ++ Js.trimStart s /\ forallb Js.isSpace ws = true.
Proof.
  unfold Js.trimStart. destruct (Js.span Js.isSpace s) as [a r] eqn:Hspan.
  destruct (span_spec _ _ _ _ Hspan) as (Hs & Ha & _). by exists a.
Qed.

Lemma trim_ends (s : jsstring) :
  Js.trim s = []
  \/ exists c d, head (Js.trim s) = Some c /\ last (Js.trim s) = Some d
                 /\ Js.isSpace c = false /\ Js.isSpace d = false.
Proof.
  unfold Js.trim, Js.trimEnd.
  set (t := Js.trimStart s).
  pose proof (trimStart_head s) as Ht. fold t in Ht.
  pose proof (trimStart_head (rev t)) as Hr.
  destruct (trimStart_suffix (rev t)) as (ws & Hws & Hall).
  set (u := Js.trimStart (rev t)) in *.
  destruct u as [|d u'] eqn:Hu; [by left|right].
  assert (Ht' : t = rev (d :: u') ++ rev ws).
  { rewrite <- rev_app_distr, <- Hws. by rewrite rev_involutive. }
  destruct (rev (d :: u')) as [|c v] eqn:Hv.
  { apply (f_equal (@length Z)) in Hv. rewrite length_rev in Hv. done. }
  exists c, d. split; [done|]. split.
  - rewrite <- Hv. simpl. rewrite last_snoc. done.
  - split; [|done]. rewrite Ht' in Ht. done.
Qed.

Lemma trim_trim (s : jsstring) : Js.trim (Js.trim s) = Js.trim s.
Proof.
  destruct (trim_ends s) as [->|(c & d & Hc & Hd & Hsc & Hsd)]; [done|].
  by apply (trim_id _ c d).
Qed.

Lemma lazy_group_spec {A} (tail : jsstring -> option A) group s g a :
  lazy_group tail group s = Some (g, a) ->
  exists p r, s = p ++ r /\ p <> [] /\ g = rev group ++ p /\ tail r = Some a.
Proof.
  revert group. induction s as [|c s IH]; intros group H; [done|].
  simpl in H. destruct (isLineTerminator c); [done|].
  destruct (tail s) as [a'|] eqn:Ht.
  - injection H as <- <-. exists [c], s. simpl. by repeat split.
  - destruct (IH _ H) as (p & r & -> & Hp & -> & Hr).
    exists (c :: p), r. simpl. rewrite <- app_assoc. by repeat split.
Qed.

Lemma dash_tail_digits s ds : dash_tail s = Some ds -> digits ds.
Proof.
  unfold dash_tail. destruct (Js.spaces1 s) as [[|c r]|]; try done.
  destruct ((c =? 45) && Bot.isNumber r) eqn:Hc; [|done].
  apply andb_true_iff in Hc as [_ Hn].
  intros [= <-]. by apply isNumber_spec.
Qed.

Lemma quoted_tail_digits s ds : quoted_tail s = Some ds -> digits ds.
Proof.
  unfold quoted_tail. destruct s as [|c r]; [done|].
  destruct (isQuote c); [|done].
  destruct (Js.spaces1 r) as [q|]; [|done].
  destruct (Bot.isNumber q) eqn:Hn; [|done].
  intros [= <-]. by apply isNumber_spec.
Qed.

Lemma parseInt_natural (ds : jsstring) :
  digits ds -> exists n, Js.parseInt ds = Some n /\ 0 <= n.
Proof.
  intros Hd. exists (Js.decimal ds). split; [by apply parseInt_digits|].
  apply decimal_nonneg. by destruct Hd.
Qed.

(** X8: whatever the words of the command, the number of results that
    [parseYouTubeCommand] returns is never NaN and never negative, and
    the query has no white space at its ends. *)
Theorem parseYouTubeCommand_wellformed (commandParts : list jsstring) :
  (exists n, maxResults (parseYouTubeCommand commandParts) = Some n /\ 0 <= n)
  /\ Js.trim (query (parseYouTubeCommand commandParts))
     = query (parseYouTubeCommand commandParts).
Proof.
  unfold parseYouTubeCommand.
  set (fullCommand := join (Js.lit " ") (tail commandParts)).
  destruct (dashMatch fullCommand) as [[group number]|] eqn:Hdash.
  { simpl. split; [|apply trim_trim].
    apply lazy_group_spec in Hdash as (p & r & _ & _ & _ & Hr).
    apply parseInt_natural. by apply (dash_tail_digits r). }
  destruct (quotedMatch fullCommand) as [[group number]|] eqn:Hquoted.
  { simpl. split; [|apply trim_trim].
    unfold quotedMatch in Hquoted. destruct fullCommand as [|c r0]; [done|].
    destruct (isQuote c); [|done].
    apply lazy_group_spec in Hquoted as (p & r & _ & _ & _ & Hr).
    apply parseInt_natural. by apply (quoted_tail_digits r). }
  destruct (Bot.isNumber (List.last (Js.split_ws fullCommand) [])
            && (1 <? length (Js.split_ws fullCommand))%nat) eqn:Hlast.
  - simpl. split; [|apply trim_trim].
    apply andb_true_iff in Hlast as [Hnum _].
    apply parseInt_natural. by apply isNumber_spec.
  - simpl. split; [|apply trim_trim]. exists 5. by split.
Qed.

(** X9: the number of images that [parseCommand] returns is never NaN and
    lies between 0 and 50; a larger number is cut to 50, and zero is let
    through. *)
Theorem parseCommand_count_bounded :
  (forall commandParts,
     exists n, Pinterest.count (Pinterest.parseCommand commandParts) = Some n
               /\ 0 <= n <= 50)
  /\ Pinterest.count (Pinterest.parseCommand
                        [Js.lit "/img"; Js.lit "cats"; Js.lit "200"])
     = Some 50
  /\ Pinterest.count (Pinterest.parseCommand
                        [Js.lit "/img"; Js.lit "cats"; Js.lit "0"])
     = Some 0
  /\ Pinterest.count (Pinterest.parseCommand [Js.lit "/img"; Js.lit "cats"])
     = Some 10.
Proof.
  split; [|by repeat split].
  intros commandParts. unfold Pinterest.parseCommand.
  set (fullCommand := join (Js.lit " ") (tail commandParts)).
  destruct (Bot.isNumber (List.last (Js.split_ws fullCommand) [])
            && (1 <? length (Js.split_ws fullCommand))%nat) eqn:Hlast.
  - simpl. apply andb_true_iff in Hlast as [Hnum _].
    destruct (parseInt_natural _ (isNumber_spec _ Hnum)) as (n & -> & Hn).
    simpl. exists (Z.min n 50). split; [done|lia].
  - simpl. exists 10. split; [done|lia].
Qed.

(** *** The forms of a search command *)

Lemma head_rev {A} (l : list A) : head (rev l) = last l.
Proof.
  induction l as [|x l _] using rev_ind; [done|].
  by rewrite rev_app_distr, last_snoc.
Qed.

Lemma join_cons sep part (rest : list jsstring) :
  rest <> [] -> join sep (part :: rest) = part ++ sep ++ join sep rest.
Proof. by destruct rest. Qed.

Lemma join_snoc sep (parts : list jsstring) part :
  parts <> [] -> join sep (parts ++ [part]) = join sep parts ++ sep ++ part.
Proof.
  induction parts as [|p parts IH]; [done|]. intros _.
  destruct parts as [|p' parts]; [done|].
  change ((p :: p' :: parts) ++ [part]) with (p :: (p' :: parts) ++ [part]).
  rewrite join_cons by done. rewrite IH by done.
  rewrite (join_cons sep p (p' :: parts)) by done.
  by rewrite <- !app_assoc.
Qed.

Lemma word_digits (n : jsstring) : digits n -> word n.
Proof. intros [Hne Hall]. split; [done|]. by apply digits_no_space. Qed.

Lemma word_ends (w : jsstring) :
  word w -> exists c d, head w = Some c /\ last w = Some d
                        /\ Js.isSpace c = false /\ Js.isSpace d = false.
Proof.
  intros [Hne Hall].
  destruct w as [|c w]; [done|]. exists c.
  destruct (last (c :: w)) as [d|] eqn:Hd.
  - exists d. repeat split.
    + simpl in Hall. apply andb_true_iff in Hall as [Hc _].
      by apply negb_true_iff.
    + apply last_Some in Hd as (l' & Hd).
      rewrite Hd, forallb_app in Hall.
      apply andb_true_iff in Hall as [_ Hall]. simpl in Hall.
      apply andb_true_iff in Hall as [Hc _]. by apply negb_true_iff.
  - by apply last_None in Hd.
Qed.

Lemma join_words_ends (words : list jsstring) :
  words <> [] -> Forall word words ->
  exists c d, head (join (Js.lit " ") words) = Some c
              /\ last (join (Js.lit " ") words) = Some d
              /\ Js.isSpace c = false /\ Js.isSpace d = false.
Proof.
  induction words as [|w words IH]; [done|]. intros _ Hall.
  apply Forall_cons in Hall as [Hw Hall].
  destruct (word_ends w Hw) as (c & d & Hc & Hd & Hsc & Hsd).
  destruct words as [|w' words].
  - by exists c, d.
  - rewrite join_cons by done.
    destruct (IH ltac:(done) Hall) as (c' & d' & Hc' & Hd' & Hsc' & Hsd').
    exists c, d'. repeat split; try done.
    + destruct w; [done|]. done.
    + rewrite !last_app, Hd'. done.
Qed.

Lemma split_ws_join (words : list jsstring) :
  words <> [] -> Forall word words ->
  forall in_ws, Js.split_ws_from in_ws [] (join (Js.lit " ") words) = words.
Proof.
  induction words as [|w words IH]; [done|]. intros _ Hall in_ws.
  apply Forall_cons in Hall as [[Hne Hw] Hall].
  destruct words as [|w' words].
  - simpl. rewrite <- (app_nil_r w) at 1.
    rewrite split_ws_word by (done || by left). simpl.
    by rewrite app_nil_r, rev_involutive.
  - rewrite join_cons by done.
    rewrite split_ws_word by (done || by left).
    rewrite split_ws_gap by done.
    rewrite app_nil_r, rev_involutive. f_equal. by apply IH.
Qed.

Lemma split_char_word (a r cur : jsstring) :
  forallb (fun c => negb (Js.isSpace c)) a = true ->
  Js.split_char_from 32 cur (a ++ r) = Js.split_char_from 32 (rev a ++ cur) r.
Proof.
  revert cur. induction a as [|c a IH]; intros cur Ha; [done|].
  simpl in Ha. apply andb_true_iff in Ha as [Hc Ha].
  simpl. destruct (c =? 32) eqn:H32.
  - apply Z.eqb_eq in H32 as ->. done.
  - rewrite IH by done. by rewrite <- app_assoc.
Qed.

Lemma split_char_join (words : list jsstring) :
  words <> [] -> Forall word words ->
  Js.split_char 32 (join (Js.lit " ") words) = words.
Proof.
  unfold Js.split_char.
  induction words as [|w words IH]; [done|]. intros _ Hall.
  apply Forall_cons in Hall as [[Hne Hw] Hall].
  destruct words as [|w' words].
  - simpl. rewrite <- (app_nil_r w) at 1. rewrite split_char_word by done.
    simpl. by rewrite app_nil_r, rev_involutive.
  - rewrite join_cons by done. rewrite split_char_word by done.
    change (Js.lit " " ++ ?r) with (32 :: r). simpl.
    rewrite app_nil_r, rev_involutive. f_equal. by apply IH.
Qed.

(** Where the last character outside a class stands in a text. *)
Lemma ends_unique (p : Z -> bool) (a b x y : jsstring) c d :
  forallb p x = true -> forallb p y = true -> p c = false -> p d = false ->
  a ++ c :: x = b ++ d :: y -> a = b /\ c = d /\ x = y.
Proof.
  intros Hx Hy Hc Hd. revert b. induction a as [|e a IH]; intros [|e' b] Heq.
  - by injection Heq as -> ->.
  - injection Heq as -> ->. rewrite forallb_app in Hx. simpl in Hx.
    rewrite Hd in Hx. by rewrite andb_false_r in Hx.
  - injection Heq as -> <-. rewrite forallb_app in Hy. simpl in Hy.
    rewrite Hc in Hy. by rewrite andb_false_r in Hy.
  - injection Heq as -> Heq. destruct (IH b Heq) as (-> & -> & ->). done.
Qed.

Lemma dash_tail_form s ds :
  dash_tail s = Some ds ->
  exists gap, s = gap ++ 45 :: ds /\ blanks gap /\ digits ds.
Proof.
  intros H. pose proof (dash_tail_digits s ds H) as Hd.
  unfold dash_tail, Js.spaces1 in H.
  destruct (Js.span Js.isSpace s) as [gap r] eqn:Hspan.
  destruct (span_spec _ _ _ _ Hspan) as (-> & Hgap & _).
  destruct gap as [|g gap]; [done|].
  destruct r as [|c r]; [done|].
  destruct ((c =? 45) && Bot.isNumber r) eqn:Hc; [|done].
  apply andb_true_iff in Hc as [Hc _]. apply Z.eqb_eq in Hc as ->.
  injection H as ->. exists (g :: gap). split; [done|]. by split.
Qed.

Lemma dash_tail_found gap ds :
  blanks gap -> digits ds -> dash_tail (gap ++ 45 :: ds) = Some ds.
Proof.
  intros [Hne Hgap] Hd. unfold dash_tail, Js.spaces1.
  rewrite span_app by done. destruct gap; [done|].
  by rewrite Z.eqb_refl, isNumber_digits.
Qed.

Lemma lazy_group_none {A} (tail : jsstring -> option A) group s :
  (forall p r, s = p ++ r -> p <> [] -> tail r = None) ->
  lazy_group tail group s = None.
Proof.
  revert group. induction s as [|c s IH]; intros group H; [done|].
  simpl. destruct (isLineTerminator c); [done|].
  rewrite (H [c] s) by done. apply IH.
  intros p r -> Hp. by apply (H (c :: p) r).
Qed.

Lemma lazy_group_shortest {A} (tail : jsstring -> option A) p group r a :
  p <> [] ->
  forallb (fun c => negb (isLineTerminator c)) p = true ->
  tail r = Some a ->
  (forall p1 p2, p = p1 ++ p2 -> p1 <> [] -> p2 <> [] ->
     tail (p2 ++ r) = None) ->
  lazy_group tail group (p ++ r) = Some (rev group ++ p, a).
Proof.
  revert group. induction p as [|c p IH]; [done|].
  intros group _ Hall Ht Hshort. simpl in Hall.
  apply andb_true_iff in Hall as [Hc Hall]. apply negb_true_iff in Hc.
  simpl. rewrite Hc. destruct p as [|c' p].
  - simpl. by rewrite Ht.
  - rewrite (Hshort [c] (c' :: p)) by done.
    rewrite IH; [|done|done|done|].
    + simpl. by rewrite <- app_assoc.
    + intros p1 p2 Hp Hp1 Hp2. apply (Hshort (c :: p1) p2); [|done|done].
      by rewrite Hp.
Qed.

Lemma lineTerminator_space c :
  Js.isSpace c = false -> isLineTerminator c = false.
Proof. unfold Js.isSpace, isLineTerminator. lia. Qed.

Lemma join_no_lineTerminator (words : list jsstring) :
  Forall word words ->
  forallb (fun c => negb (isLineTerminator c)) (join (Js.lit " ") words)
  = true.
Proof.
  induction words as [|w words IH]; [done|]. intros Hall.
  apply Forall_cons in Hall as [[_ Hw] Hall].
  assert (Hw' : forallb (fun c => negb (isLineTerminator c)) w = true).
  { apply forallb_forall. intros c Hc.
    rewrite forallb_forall in Hw. specialize (Hw c Hc).
    apply negb_true_iff in Hw. by rewrite lineTerminator_space. }
  destruct words as [|w' words]; [done|].
  rewrite join_cons by done. rewrite !forallb_app, Hw', IH by done. done.
Qed.

Lemma strip_quotes_id (s : jsstring) : unquoted s -> strip_quotes s = s.
Proof.
  intros [Hhead Hlast]. unfold strip_quotes.
  destruct s as [|c s]; [done|]. simpl in Hhead. rewrite Hhead.
  rewrite <- head_rev in Hlast.
  destruct (rev (c :: s)) as [|d r]; [done|].
  simpl in Hlast. by rewrite Hlast.
Qed.

Lemma quotedMatch_unquoted (s : jsstring) :
  match head s with Some c => isQuote c = false | None => True end ->
  quotedMatch s = None.
Proof. destruct s as [|c s]; [done|]. simpl. by intros ->. Qed.

Lemma query_of_words (words : list jsstring) :
  words <> [] -> Forall word words -> unquoted (join (Js.lit " ") words) ->
  Js.trim (strip_quotes (join (Js.lit " ") words)) = join (Js.lit " ") words.
Proof.
  intros Hne Hall Hq. rewrite strip_quotes_id by done.
  destruct (join_words_ends words Hne Hall) as (c & d & Hc & Hd & Hsc & Hsd).
  by apply (trim_id _ c d).
Qed.

Lemma dashMatch_trailing_number (text n : jsstring) :
  digits n -> dashMatch (text ++ 32 :: n) = None.
Proof.
  intros [Hne Hn]. apply lazy_group_none. intros p r Heq Hp.
  destruct (dash_tail r) as [ds|] eqn:Hr; [|done].
  apply dash_tail_form in Hr as (gap & -> & _ & _ & Hds).
  rewrite app_assoc in Heq.
  by destruct (ends_unique Js.isDigit text (p ++ gap) n ds 32 45
                 Hn Hds eq_refl eq_refl Heq) as (_ & ? & _).
Qed.

Lemma dashMatch_hyphen (words : list jsstring) (n : jsstring) :
  words <> [] -> Forall word words -> digits n ->
  dashMatch (join (Js.lit " ") words ++ 32 :: 45 :: n)
  = Some (join (Js.lit " ") words, n).
Proof.
  intros Hne Hall Hn. unfold dashMatch.
  destruct (join_words_ends words Hne Hall) as (c & d & Hc & Hd & Hsc & Hsd).
  rewrite (lazy_group_shortest dash_tail _ [] _ n); [done| | | |].
  - intros Heq. by rewrite Heq in Hc.
  - by apply join_no_lineTerminator.
  - apply (dash_tail_found [32] n); [by split|done].
  - intros p1 p2 Heq Hp1 Hp2.
    destruct (dash_tail (p2 ++ 32 :: 45 :: n)) as [ds|] eqn:Hr; [|done].
    exfalso. apply dash_tail_form in Hr as (gap & Hr & [_ Hgap] & _ & Hds).
    change (p2 ++ 32 :: 45 :: n) with (p2 ++ [32] ++ 45 :: n) in Hr.
    rewrite app_assoc in Hr. destruct Hn as [_ Hn].
    destruct (ends_unique Js.isDigit (p2 ++ [32]) gap n ds 45 45
                Hn Hds eq_refl eq_refl Hr) as (Hgap' & _ & _).
    rewrite <- Hgap', forallb_app in Hgap.
    apply andb_true_iff in Hgap as [Hp2s _].
    rewrite Heq, last_app in Hd.
    destruct (last p2) as [d'|] eqn:Hd'.
    + injection Hd as ->. apply last_Some in Hd' as (l' & ->).
      rewrite forallb_app in Hp2s. simpl in Hp2s. rewrite Hsd in Hp2s.
      by rewrite andb_false_r in Hp2s.
    + by apply last_None in Hd'.
Qed.

(** X10: a command that ends with a number below 2^53, with or without a
    hyphen before it, asks for that many results, and the words before the
    number, with one space between them, are the query.  So the words of a
    query whose last word is a number cannot be searched as they are.
    Below 2^53 [parseInt] returns the number that the digits write; from
    there on it returns the nearest double, which this says nothing
    about. *)
Theorem parseYouTubeCommand_trailing_number (command : jsstring)
    (words : list jsstring) (n : jsstring) :
  word command -> words <> [] -> Forall word words ->
  unquoted (join (Js.lit " ") words) -> digits n ->
  (Js.decimal n < 2 ^ 53)%Z ->
  commandPartsOf (join (Js.lit " ") (command :: words ++ [n]))
    = command :: words ++ [n]
  /\ parseYouTubeCommand (command :: words ++ [n])
     = {| query := join (Js.lit " ") words;
          maxResults := Some (Js.decimal n) |}
  /\ parseYouTubeCommand (command :: words ++ [45 :: n])
     = {| query := join (Js.lit " ") words;
          maxResults := Some (Js.decimal n) |}.
Proof.
  intros Hcommand Hne Hall Hq Hn _.
  assert (Hwn : word n) by by apply word_digits.
  split; [|split].
  - apply split_char_join; [done|].
    constructor; [done|]. apply Forall_app. by split; [|constructor].
  - unfold parseYouTubeCommand. cbn [tail].
    rewrite join_snoc by done. change (Js.lit " " ++ n) with (32 :: n).
    rewrite dashMatch_trailing_number by done.
    rewrite quotedMatch_unquoted.
    2:{ destruct Hq as [Hq _].
        destruct (join_words_ends words Hne Hall) as (c & d & Hc & _).
        destruct (join (Js.lit " ") words); [done|]. done. }
    change (32 :: n) with (Js.lit " " ++ n). rewrite <- join_snoc by done.
    unfold Js.split_ws. rewrite split_ws_join.
    2:{ by destruct words. }
    2:{ apply Forall_app. by split; [|constructor]. }
    rewrite last_last, removelast_last, isNumber_digits by done.
    rewrite length_app. simpl length.
    replace (1 <? length words + 1)%nat with true.
    2:{ symmetry. apply Nat.ltb_lt. destruct words; [done|simpl; lia]. }
    cbn [andb]. rewrite query_of_words, parseInt_digits by done. done.
  - unfold parseYouTubeCommand. cbn [tail].
    rewrite join_snoc by done.
    change (Js.lit " " ++ 45 :: n) with (32 :: 45 :: n).
    rewrite dashMatch_hyphen by done.
    rewrite query_of_words, parseInt_digits by done. done.
Qed.

Lemma parseYouTubeCommand_trailing_number_witness :
  word (Js.lit "/ys") /\ Forall word [Js.lit "top"] /\ digits (Js.lit "10")
  /\ (Js.decimal (Js.lit "10") < 2 ^ 53)%Z
  /\ parseYouTubeCommand (commandPartsOf (Js.lit "/ys top 10"))
     = {| query := Js.lit "top"; maxResults := Some 10 |}
  /\ parseYouTubeCommand [Js.lit "/ys"; Js.lit "top"; Js.lit "-10"]
     = {| query := Js.lit "top"; maxResults := Some 10 |}.
Proof.
  assert (H1 : word (Js.lit "/ys")) by (by split).
  assert (H2 : Forall word [Js.lit "top"]) by (by repeat constructor).
  assert (H3 : unquoted (join (Js.lit " ") [Js.lit "top"])) by (by split).
  assert (H4 : digits (Js.lit "10")) by (by split).
  assert (H5 : (Js.decimal (Js.lit "10") < 2 ^ 53)%Z) by (by vm_compute).
  split; [exact H1|]. split; [exact H2|]. split; [exact H4|].
  split; [exact H5|].
  destruct (parseYouTubeCommand_trailing_number (Js.lit "/ys") [Js.lit "top"]
              (Js.lit "10") H1 ltac:(discriminate) H2 H3 H4 H5)
    as (Hparts & Hplain & Hdash).
  split; [exact Hplain|exact Hdash].
Defined.






End Queries.

(** ** The output of yt-dlp after the download is complete *)

Lemma bind_ext {S A B} (m : M S A) (k1 k2 : A -> M S B) s :
  (forall a s', k1 a s' = k2 a s') -> bind m k1 s = bind m k2 s.
Proof. intros H. unfold bind. destruct (m s) as [[a|e|] s']; by rewrite ?H. Qed.

Lemma feed_completed lines last s :
  YouTube.feed lines last true s = (Ok tt, s).
Proof.
  induction lines as [|[now line] lines IH]; [done|].
  cbn [YouTube.feed]. by rewrite andb_false_r.
Qed.

Lemma forallb_rev {A} (p : A -> bool) (l : list A) :
  forallb p (rev l) = forallb p l.
Proof.
  induction l as [|x l IH]; [done|]. simpl.
  rewrite forallb_app, IH. simpl. rewrite andb_true_r. apply andb_comm.
Qed.

Lemma trim_blank (s : jsstring) :
  Js.truthy (Js.trim s) = false -> forallb Js.isSpace s = true.
Proof.
  unfold Js.trim, Js.trimEnd. intros H.
  destruct (trimStart_suffix s) as (ws & Hs & Hws).
  destruct (trimStart_suffix (rev (Js.trimStart s))) as (ws' & Hs' & Hws').
  pose proof (trimStart_head s) as Hhead.
  destruct (Js.trimStart (rev (Js.trimStart s))) as [|c r] eqn:Ht.
  - rewrite app_nil_r in Hs'.
    destruct (Js.trimStart s) as [|c t] eqn:Hts.
    + rewrite Hs, app_nil_r. done.
    + exfalso. rewrite <- Hs', forallb_rev in Hws'. simpl in Hws'.
      by rewrite Hhead in Hws'.
  - exfalso. simpl in H.
    destruct (rev r ++ [c]) eqn:Hrev; [by destruct (rev r)|done].
Qed.

Lemma includes_blank (sub s : jsstring) c :
  head sub = Some c -> Js.isSpace c = false ->
  forallb Js.isSpace s = true -> Js.includes sub s = false.
Proof.
  intros Hsub Hc. destruct sub as [|c' sub]; [done|]. injection Hsub as ->.
  induction s as [|d s IH]; intros Hs; [done|].
  simpl in Hs. apply andb_true_iff in Hs as [Hd Hs].
  cbn [Js.includes Js.startsWith]. rewrite IH by done.
  destruct (c =? d) eqn:Hcd; [|done].
  apply Z.eqb_eq in Hcd as ->. by rewrite Hd in Hc.
Qed.

(** X12: once a line with [download] 100% that is not a fragment line has
    come, whatever yt-dlp prints afterwards is ignored: the tracker and
    the chat are left as they were after that line. *)
Theorem feed_stops_at_completion (before after : list (Z * jsstring))
    (now : Z) (line : jsstring) (lastProgressUpdate : Z)
    (downloadCompleted : bool)
    (s : Performance.OptimizedProgressTracker * world) :
  Js.includes (Js.lit "[download] 100%") line = true ->
  Js.includes (Js.lit "fragment") line = false ->
  YouTube.feed (before ++ (now, line) :: after) lastProgressUpdate
    downloadCompleted s
  = YouTube.feed (before ++ [(now, line)]) lastProgressUpdate
      downloadCompleted s.
Proof.
  intros Hdone Hfragment.
  revert lastProgressUpdate downloadCompleted s.
  induction before as [|[now0 line0] before IH];
    intros lastProgressUpdate downloadCompleted s.
  - cbn [app YouTube.feed]. rewrite Hdone, Hfragment, orb_true_r.
    destruct downloadCompleted.
    + rewrite andb_false_r. apply feed_completed.
    + destruct (Js.truthy (Js.trim line)) eqn:Hblank.
      * cbn [andb negb]. apply bind_ext. intros _ s'. apply feed_completed.
      * apply trim_blank in Hblank.
        by rewrite (includes_blank (Js.lit "[download] 100%") line 91
                      eq_refl eq_refl Hblank) in Hdone.
  - cbn [app YouTube.feed].
    destruct (Js.truthy (Js.trim line0) && negb downloadCompleted); [|apply IH].
    destruct ((now0 - lastProgressUpdate >=? 2000)
              || Js.includes (Js.lit "[download] 100%") line0); [|apply IH].
    apply bind_ext. intros _ s'. apply IH.
Qed.

Lemma feed_stops_at_completion_witness :
  Js.includes (Js.lit "[download] 100%")
    (Js.lit "[download] 100% of 10.00MiB in 00:10") = true
  /\ Js.includes (Js.lit "fragment")
       (Js.lit "[download] 100% of 10.00MiB in 00:10") = false
  /\ YouTube.feed
       ([(3000, Js.lit "[download]  50.0% of 10.00MiB at 1.00MiB/s ETA 00:05")]
        ++ (6000, Js.lit "[download] 100% of 10.00MiB in 00:10")
        :: [(9000, Js.lit "[download]  20.0% of 3.00MiB at 1.00MiB/s ETA 00:09")])
       0 false (Performance.new chat 1 (Js.lit "video") 1000, quiet)
     = YouTube.feed
         ([(3000, Js.lit "[download]  50.0% of 10.00MiB at 1.00MiB/s ETA 00:05")]
          ++ [(6000, Js.lit "[download] 100% of 10.00MiB in 00:10")])
         0 false (Performance.new chat 1 (Js.lit "video") 1000, quiet).
Proof.
  split; [reflexivity|]. split; [reflexivity|].
  apply (feed_stops_at_completion
           [(3000, Js.lit "[download]  50.0% of 10.00MiB at 1.00MiB/s ETA 00:05")]
           [(9000, Js.lit "[download]  20.0% of 3.00MiB at 1.00MiB/s ETA 00:09")]
           6000 (Js.lit "[download] 100% of 10.00MiB in 00:10") 0 false);
    reflexivity.
Defined.

(** ** A download from the first message to the last *)

Lemma world_eta w :
  set_transport w (delivered w) (live w) (next_key w) (send_faults w)
    (delete_faults w) = w.
Proof. by destruct w. Qed.

Lemma sendPresenceUpdate_healthy w :
  send_faults w = [] -> sendPresenceUpdate w = (Ok tt, w).
Proof.
  intros Hf. unfold sendPresenceUpdate. rewrite Hf. cbn [tail].
  rewrite <- Hf. by rewrite world_eta.
Qed.

Lemma start_healthy t w :
  send_faults w = [] ->
  Performance.start (t, w)
  = (Ok tt,
     (Performance.with_messageId (next_key w) t,
      set_transport w
        (delivered w
         ++ [(Performance.remoteJid t,
              Text (TStarting (Performance.itemType t)
                      (Performance.totalItems t)), next_key w)])
        (live w ++ [next_key w]) (S (next_key w)) [] (delete_faults w))).
Proof.
  intros Hf.
  unfold Performance.start, bind, this, gets, onWorld, set_this, modify.
  cbn -[sendMessage]. by rewrite sendMessage_text_works.
Qed.

Lemma updateProgress_healthy now data t w k :
  healthy w ->
  Performance.lastProgressMessageId t = Some k ->
  Performance.updateThreshold t <= now - Performance.lastUpdate t ->
  Performance.updateProgress now data (t, w)
  = (Ok tt,
     (Performance.with_messageId (S (next_key w))
        (Performance.with_progress data now t),
      set_transport w
        (delivered w
         ++ [(Performance.remoteJid t,
              Text (TProcessing (Performance.itemType t) data),
              S (next_key w))])
        (filter (fun k' => k' <> k) (live w) ++ [S (next_key w)])
        (S (S (next_key w))) [] [])).
Proof.
  intros [Hsf Hdf] Hid Hopen.
  unfold Performance.updateProgress.
  unfold bind at 1. unfold this, gets. cbv beta iota. cbn [fst].
  destruct (Z.ltb_spec (now - Performance.lastUpdate t)
              (Performance.updateThreshold t)) as [?|_]; [lia|].
  unfold bind, set_this, modify, try_catch, onWorld, ret, gets.
  rewrite Hid. cbn -[sendMessage].
  rewrite sendMessage_delete_works by done. cbn -[sendMessage].
  rewrite sendMessage_text_works by done. reflexivity.
Qed.

Lemma finish_healthy now t w k :
  healthy w ->
  Performance.lastProgressMessageId t = Some k ->
  Performance.finish now (t, w)
  = (Ok tt,
     (t,
      set_transport w
        (delivered w
         ++ [(Performance.remoteJid t,
              Text (TCompleted (Performance.completed t)
                      (Performance.totalItems t)
                      ((now - Performance.startTime t) / 1000)
                      (Performance.failed t)),
              S (next_key w))])
        (filter (fun k' => k' <> k) (live w) ++ [S (next_key w)])
        (S (S (next_key w))) [] [])).
Proof.
  intros [Hsf Hdf] Hid.
  unfold Performance.finish.
  unfold bind at 1. unfold this, gets. cbv beta iota. cbn [fst].
  unfold bind, set_this, modify, try_catch, onWorld, ret, gets.
  rewrite Hid. cbn -[sendMessage].
  rewrite sendMessage_delete_works by done. cbn -[sendMessage].
  rewrite sendMessage_text_works by done. reflexivity.
Qed.

Lemma own_live_replaced k0 k nk (l : list msgkey) :
  (k0 <= nk)%nat ->
  filter (fun k' => (k0 <= k')%nat) l = [k] ->
  filter (fun k' => (k0 <= k')%nat) (filter (fun k' => k' <> k) l ++ [nk])
  = [nk].
Proof.
  intros Hnk Hl. apply own_live_sent; [done|].
  apply own_live_deleted. by right.
Qed.

Lemma own_live_none w :
  issued w -> own_live (next_key w) w = [].
Proof.
  unfold issued, own_live. intros Hlive.
  induction Hlive as [|k l Hk _ IH]; [done|].
  rewrite filter_cons. destruct (decide (next_key w <= k)%nat); [lia|done].
Qed.

Lemma start_supervising t w :
  healthy w -> issued w ->
  supervising (next_key w) t
    (Performance.with_messageId (next_key w) t,
     set_transport w
       (delivered w
        ++ [(Performance.remoteJid t,
             Text (TStarting (Performance.itemType t)
                     (Performance.totalItems t)), next_key w)])
       (live w ++ [next_key w]) (S (next_key w)) [] (delete_faults w)).
Proof.
  intros [Hsf Hdf] Hlive. split; [by split|]. split; [by repeat split|].
  exists (next_key w), (delivered w), (TStarting (Performance.itemType t)
                                         (Performance.totalItems t)).
  cbn. split; [lia|]. split.
  - apply own_live_sent; [done|]. by apply own_live_none.
  - split; [done|]. split; [done|]. left. by eexists _, _.
Qed.

Lemma updateProgress_supervising k0 job now data s :
  supervising k0 job s ->
  fst (Performance.updateProgress now data s) = Ok tt
  /\ supervising k0 job (snd (Performance.updateProgress now data s)).
Proof.
  destruct s as [t w].
  intros (Hw & Hjob & k & earlier & status & Hk & Hlive & Hid & Hd & Hst).
  cbn [fst snd] in *.
  destruct (Z.lt_ge_cases (now - Performance.lastUpdate t)
              (Performance.updateThreshold t)) as [Hclosed|Hopen].
  { rewrite updateProgress_closed by done. split; [done|].
    split; [done|]. split; [done|]. by exists k, earlier, status. }
  rewrite (updateProgress_healthy now data t w k) by done.
  split; [done|]. split; [by split|]. split.
  { destruct Hjob as (? & ? & ? & ? & ? & ? & ?). by repeat split. }
  exists (S (next_key w)), (delivered w), (TProcessing (Performance.itemType t) data).
  cbn. split; [lia|]. split.
  - apply own_live_replaced; [lia|done].
  - split; [done|]. split.
    + destruct Hjob as (-> & _). done.
    + right. by eexists _, _.
Qed.

Lemma parseYouTubeProgress_supervising k0 job now line s :
  supervising k0 job s ->
  fst (YouTube.parseYouTubeProgress now line s) = Ok tt
  /\ supervising k0 job (snd (YouTube.parseYouTubeProgress now line s)).
Proof.
  intros Hs.
  destruct (parseYouTubeProgress_optimized_cases now line s)
    as [->|(p & data & _ & _ & _ & _ & _ & ->)]; [done|].
  destruct (updateProgress_supervising k0 job now data s Hs) as [Hok Hs'].
  unfold try_catch.
  destruct (Performance.updateProgress now data s) as [r s'].
  cbn [fst snd] in *. by subst r.
Qed.

Lemma feed_supervising k0 job lines lastProgressUpdate downloadCompleted s :
  supervising k0 job s ->
  fst (YouTube.feed lines lastProgressUpdate downloadCompleted s) = Ok tt
  /\ supervising k0 job
       (snd (YouTube.feed lines lastProgressUpdate downloadCompleted s)).
Proof.
  revert lastProgressUpdate downloadCompleted s.
  induction lines as [|[now line] lines IH];
    intros lastProgressUpdate downloadCompleted s Hs; [done|].
  cbn [YouTube.feed].
  destruct (Js.truthy (Js.trim line) && negb downloadCompleted);
    [|by apply IH].
  destruct ((now - lastProgressUpdate >=? 2000)
            || Js.includes (Js.lit "[download] 100%") line); [|by apply IH].
  destruct (parseYouTubeProgress_supervising k0 job now line s Hs)
    as [Hok Hs'].
  unfold bind.
  destruct (YouTube.parseYouTubeProgress now line s) as [r s'].
  cbn [fst snd] in *. subst r. by apply IH.
Qed.

Lemma sendMessage_works remoteJid c w :
  (forall key, c <> Delete key) -> send_faults w = [] ->
  sendMessage remoteJid c w
  = (Ok (next_key w),
     set_transport w (delivered w ++ [(remoteJid, c, next_key w)])
       (live w ++ [next_key w]) (S (next_key w)) [] (delete_faults w)).
Proof. intros Hc Hf. rewrite sendMessage_plain by done. by rewrite Hf. Qed.

Lemma own_live_snoc k0 nk w d l sf df :
  (k0 <= nk)%nat ->
  own_live k0 (set_transport w d (l ++ [nk]) (S nk) sf df)
  = filter (fun k => (k0 <= k)%nat) l ++ [nk].
Proof.
  intros Hnk. unfold own_live. cbn. rewrite filter_app, filter_cons.
  destruct (decide (k0 <= nk)%nat); [done|lia].
Qed.

Lemma supervising_recorded k0 job t w c :
  supervising k0 job (t, w) ->
  supervising k0 job (t, snd (record_call c w)).
Proof. intros H. exact H. Qed.

Lemma downloadYouTubeVideo_run E videoUrl quality t w lines closed outcome :
  ytdlp E videoUrl quality = (lines, closed, outcome) ->
  YouTube.downloadYouTubeVideo E videoUrl quality (t, w)
  = bind (YouTube.feed lines 0 false)
      (fun _ => match outcome with
                | DownloadRejected e => throw e
                | _ => ret outcome
                end)
      (t, snd (record_call (DownloadYouTubeVideo videoUrl quality) w)).
Proof.
  intros Hrun. unfold YouTube.downloadYouTubeVideo. by rewrite Hrun.
Qed.

(** What [downloadYouTubeVideo] leaves behind on a transport that works:
    the tracker still shows one status message, and the promise ends the
    way yt-dlp did. *)
Lemma downloadYouTubeVideo_supervising E videoUrl quality k0 job s lines
    closed outcome :
  ytdlp E videoUrl quality = (lines, closed, outcome) ->
  supervising k0 job s ->
  supervising k0 job (snd (YouTube.downloadYouTubeVideo E videoUrl quality s))
  /\ fst (YouTube.downloadYouTubeVideo E videoUrl quality s)
     = match outcome with
       | DownloadRejected e => Throw e
       | _ => Ok outcome
       end.
Proof.
  intros Hrun Hs. destruct s as [t w].
  rewrite (downloadYouTubeVideo_run E videoUrl quality t w lines closed outcome)
    by done.
  pose proof (supervising_recorded k0 job t w
                (DownloadYouTubeVideo videoUrl quality) Hs) as Hs1.
  destruct (feed_supervising k0 job lines 0 false _ Hs1) as [Hok Hs2].
  unfold bind.
  destruct (YouTube.feed lines 0 false
              (t, snd (record_call (DownloadYouTubeVideo videoUrl quality) w)))
    as [r s2].
  cbn [fst snd] in *. subst r. by destruct outcome.
Qed.

Lemma supervise_run E video quality s :
  YouTube.supervise E video quality s
  = bind Performance.start
      (fun _ =>
         bind (YouTube.downloadYouTubeVideo E (url video) quality)
           (fun outcome =>
              bind (Performance.itemCompleted
                      (match outcome with
                       | DownloadSucceeded _ _ _ => true
                       | _ => false
                       end))
                (fun _ =>
                   bind (Performance.finish
                           (snd (fst (ytdlp E (url video) quality))))
                     (fun _ => ret outcome)))) s.
Proof. reflexivity. Qed.


(** When yt-dlp ends, the tracker counts the item and finishes: its
    status message goes and the summary is the one message left. *)
Lemma supervise_settled E video quality t w lines closed outcome :
  healthy w -> issued w ->
  ytdlp E (url video) quality = (lines, closed, outcome) ->
  (forall e, outcome <> DownloadRejected e) ->
  exists t' w' earlier k,
    YouTube.supervise E video quality (t, w) = (Ok outcome, (t', w'))
    /\ healthy w'
    /\ (next_key w <= k)%nat
    /\ next_key w' = S k
    /\ own_live (next_key w) w' = [k]
    /\ delivered w'
       = earlier
         ++ [(Performance.remoteJid t, Text (summary t closed outcome), k)].
Proof.
  intros Hw Hlive Hrun Hsettled. rewrite supervise_run.
  unfold bind at 1. rewrite start_healthy by apply Hw.
  destruct (downloadYouTubeVideo_supervising E (url video) quality
              (next_key w) t _ lines closed _ Hrun
              (start_supervising t w Hw Hlive)) as [Hs Hr].
  unfold bind at 1.
  destruct (YouTube.downloadYouTubeVideo E (url video) quality _)
    as [r [t2 w2]].
  cbn [fst snd] in *. subst r. rewrite Hrun. cbn [fst snd].
  destruct Hs as (Hw2 & Hjob & k & earlier & status & Hk & Hown & Hid & Hd & _).
  cbn [fst snd] in *.
  destruct Hjob as (Hjid & Htotal & Htype & Hcompleted & Hfailed & Hstart & _).
  destruct outcome as [filename tempPath finalPath|error|e];
    [| |by destruct (Hsettled e)].
  - unfold bind at 1. unfold Performance.itemCompleted, set_this, modify.
    cbn [fst snd]. unfold bind.
    rewrite (finish_healthy closed _ w2 k) by done.
    eexists _, _, (delivered w2), (S (next_key w2)).
    split; [reflexivity|]. split; [done|]. split; [cbn; lia|].
    split; [done|]. split.
    + unfold own_live. cbn. apply own_live_replaced; [lia|done].
    + cbn. by rewrite Hjid, Htotal, Hcompleted, Hfailed, Hstart.
  - unfold bind at 1. unfold Performance.itemCompleted, set_this, modify.
    cbn [fst snd]. unfold bind.
    rewrite (finish_healthy closed _ w2 k) by done.
    eexists _, _, (delivered w2), (S (next_key w2)).
    split; [reflexivity|]. split; [done|]. split; [cbn; lia|].
    split; [done|]. split.
    + unfold own_live. cbn. apply own_live_replaced; [lia|done].
    + cbn. by rewrite Hjid, Htotal, Hcompleted, Hfailed, Hstart.
Qed.

(** When every update of the tracker has settled before the next line is
    handled and before yt-dlp closes, as [YouTube.parseYouTubeProgress]
    has it, [downloadAndSendVideo] on a working transport ends with the
    report and nothing else of the run stays live: the tracker's last
    status message is deleted and the chat ends with the summary followed
    by the completion notice, the document and the confirmation, or by
    the failure notice. *)
Lemma downloadAndSendVideo_settled (E : environment) (remoteJid : jsstring)
    (video : item) (quality : jsstring) (w : world)
    (lines : list (Z * jsstring)) (closed : Z) (outcome : download_result) :
  healthy w -> issued w ->
  ytdlp E (url video) quality = (lines, closed, outcome) ->
  (forall e, outcome <> DownloadRejected e) ->
  exists w' earlier k,
    YouTube.downloadAndSendVideo E remoteJid video quality w = (Ok tt, w')
    /\ healthy w'
    /\ (next_key w <= k)%nat
    /\ delivered w'
       = earlier ++ keyed remoteJid k (report E remoteJid video closed outcome)
    /\ own_live (next_key w) w'
       = (fun m => snd m)
           <$> keyed remoteJid k (report E remoteJid video closed outcome).
Proof.
  intros Hw Hlive Hrun Hsettled.
  destruct (supervise_settled E video quality
              (Performance.new remoteJid 1 (Js.lit "video") (clock E))
              w lines closed outcome Hw Hlive Hrun Hsettled)
    as (t' & w1 & earlier & k & Hs & Hw1 & Hk & Hnk & Hown & Hd).
  unfold YouTube.downloadAndSendVideo, try_catch.
  unfold bind at 1. rewrite sendPresenceUpdate_healthy by apply Hw.
  unfold bind at 1. unfold withObject. rewrite Hs. cbn [fst snd].
  destruct Hw1 as [Hsf Hdf].
  destruct outcome as [filename tempPath finalPath|error|e];
    [| |by destruct (Hsettled e)].
  - unfold bind at 1. unfold bind at 1. unfold YouTube.both.
    unfold bind at 1. rewrite sendMessage_works by done.
    unfold ret at 1. unfold bind at 1.
    rewrite sendMessage_works by done.
    unfold ret at 1. cbv beta iota.
    unfold bind at 1. rewrite sendMessage_works by done.
    unfold ret at 1.
    rewrite sendPresenceUpdate_healthy by done.
    eexists _, earlier, k. split; [reflexivity|].
    split; [done|]. split; [done|]. split.
    + cbn. rewrite Hd, Hnk. by rewrite <- !app_assoc.
    + unfold own_live in *. cbn. rewrite !filter_app, Hown, Hnk.
      rewrite !filter_cons, !filter_nil.
      repeat (destruct (decide _); [|lia]). done.
  - unfold bind at 1. unfold bind at 1.
    rewrite sendMessage_works by done.
    unfold ret at 1.
    rewrite sendPresenceUpdate_healthy by done.
    eexists _, earlier, k. split; [reflexivity|].
    split; [done|]. split; [done|]. split.
    + cbn. rewrite Hd, Hnk. by rewrite <- !app_assoc.
    + unfold own_live in *. cbn. rewrite !filter_app, Hown, Hnk.
      rewrite !filter_cons, !filter_nil.
      repeat (destruct (decide _); [|lia]). done.
Qed.

(** ** A download whose updates overlap with its end *)

Lemma uninterrupted_updateProgress now data s :
  Overlap.uninterrupted 2 (Unawaited.updateProgress now data) s
  = snd (try_catch (Performance.updateProgress now data) (fun _ => ret tt) s).
Proof.
  destruct s as [t w].
  unfold Overlap.uninterrupted, Unawaited.updateProgress,
    Performance.updateProgress, try_catch, bind, this, gets, set_this, modify,
    onWorld, ret, Unawaited.awaitedDelete, Unawaited.awaitedSend.
  cbn -[Z.ltb sendMessage].
  destruct (_ <? _); [done|].
  destruct (Performance.lastProgressMessageId t) as [key|].
  - cbn -[sendMessage].
    unfold bind, try_catch, onWorld, this, gets, set_this, modify, ret.
    cbn -[sendMessage].
    destruct (sendMessage (Performance.remoteJid t) (Delete key) w)
      as [[k|e|] w1]; cbn -[sendMessage]; try done;
      unfold bind, onWorld, set_this, modify, ret; cbn -[sendMessage];
      by destruct (sendMessage _ (Text _) w1) as [[k1|e1|] w2].
  - cbn -[sendMessage].
    unfold bind, onWorld, set_this, modify, ret. cbn -[sendMessage].
    by destruct (sendMessage _ (Text _) w) as [[k1|e1|] w2].
Qed.

(** The update of [YouTube.parseYouTubeProgress] is the one that settles
    before anything else happens. *)
Lemma uninterrupted_line now line s :
  Overlap.uninterrupted 2 (Unawaited.parseYouTubeProgress now line) s
  = snd (YouTube.parseYouTubeProgress now line s).
Proof.
  unfold Overlap.uninterrupted.
  remember (YouTube.parseYouTubeProgress now line s) as rs eqn:Hs.
  remember (Unawaited.parseYouTubeProgress now line s) as ru eqn:Hu.
  revert Hs Hu.
  unfold Unawaited.parseYouTubeProgress, YouTube.parseYouTubeProgress,
    bind, this, gets.
  cbv beta iota.
  destruct (_ && _); [|by intros -> ->].
  destruct (_ || _); [by intros -> ->|].
  destruct (Js.percentMatch line) as [percent|]; [|by intros -> ->].
  destruct (Js.parseFloat percent) as [parsed|]; [|by intros -> ->].
  destruct (_ && _); [by intros -> ->|].
  cbv zeta. destruct (_ && _); [|by intros -> ->].
  intros -> ->. apply uninterrupted_updateProgress.
Qed.






Section Invariant.

Context (E : environment) (remoteJid : jsstring) (video : item)
  (w0 : world) (finished : Z) (outcome : download_result).































End Invariant.













(** ** The choice of a video *)

Lemma refuse_run remoteJid t w :
  send_faults w = [] ->
  (_ <- sendMessage remoteJid (Text t) ;; ret tt) w
  = (Ok tt, answered remoteJid (Text t) w).
Proof.
  intros Hf. unfold bind. by rewrite sendMessage_works.
Qed.

Lemma bind_gets {S A B} (f : S -> A) (k : A -> M S B) s :
  bind (gets f) k s = k (f s) s.
Proof. reflexivity. Qed.

Lemma validIndex_spec i n :
  YouTube.validIndex i n = true ->
  exists j, i = Some (Z.of_nat j) /\ (j < n)%nat.
Proof.
  destruct i as [i|]; [|done]. simpl. intros H.
  exists (Z.to_nat i). split; [f_equal|]; lia.
Qed.

(** X15: [handleVideoSelection] on a working transport starts a download
    only for a reply of two words whose first is a number within the
    cached results and whose second is 480, 720 or 1080; then it is the
    download of that result in that quality.  Every other reply gets
    exactly one refusal and changes nothing else. *)
Theorem handleVideoSelection_validates (E : environment)
    (remoteJid selection : jsstring) (w : world) :
  send_faults w = [] ->
  (exists videos number quality i video,
      choices w remoteJid = Some videos
      /\ Js.split_ws (Js.trim selection) = [number; quality]
      /\ Js.parseInt number = Some (Z.of_nat i + 1)
      /\ videos !! i = Some video
      /\ YouTube.isQuality quality = true
      /\ YouTube.handleVideoSelection E remoteJid selection w
         = YouTube.downloadAndSendVideo E remoteJid video quality w)
  \/ (exists t,
        YouTube.handleVideoSelection E remoteJid selection w
        = (Ok tt, answered remoteJid (Text t) w)
        /\ (t = TNoSearchResults \/ t = TInvalidFormat \/ t = TInvalidQuality
            \/ exists videos, choices w remoteJid = Some videos
                              /\ t = TInvalidVideoNumber (length videos))).
Proof.
  intros Hf. unfold YouTube.handleVideoSelection, choices.
  rewrite !bind_gets.
  destruct (userStates w !! remoteJid) as [userState|];
    [|right; eexists; split; [by apply refuse_run|by left]].
  destruct (YouTube.or_else _ _) as [videos|];
    [|right; eexists; split; [by apply refuse_run|by left]].
  destruct (Js.split_ws (Js.trim selection)) as [|number [|quality [|]]];
    try (right; eexists; split; [by apply refuse_run|by right; left]).
  destruct (YouTube.validIndex _ _) eqn:Hi; cbn [negb]; cbv iota.
  2:{ right. eexists. split; [by apply refuse_run|].
      do 3 right. by exists videos. }
  destruct (YouTube.isQuality quality) eqn:Hq; cbn [negb]; cbv iota.
  2:{ right. eexists. split; [by apply refuse_run|]. by right; right; left. }
  apply validIndex_spec in Hi as (j & Hj & Hlt).
  destruct (lookup_lt_is_Some_2 videos j Hlt) as [video Hvideo].
  left. exists videos, number, quality, j, video.
  destruct (Js.parseInt number) as [n|]; [|done]. simpl in Hj.
  injection Hj as Hj. replace n with (Z.of_nat j + 1) by lia.
  cbn [option_map].
  replace (Z.of_nat j + 1 - 1) with (Z.of_nat j) by lia.
  by rewrite Nat2Z.id, Hvideo.
Qed.

Lemma handleVideoSelection_validates_witness :
  (exists videos number quality i video,
      choices (with_state awaiting_video) chat = Some videos
      /\ Js.split_ws (Js.trim (Js.lit " 3   1080 ")) = [number; quality]
      /\ Js.parseInt number = Some (Z.of_nat i + 1)
      /\ videos !! i = Some video
      /\ YouTube.isQuality quality = true
      /\ YouTube.handleVideoSelection working chat (Js.lit " 3   1080 ")
           (with_state awaiting_video)
         = YouTube.downloadAndSendVideo working chat video quality
             (with_state awaiting_video))
  \/ (exists t,
        YouTube.handleVideoSelection working chat (Js.lit " 3   1080 ")
          (with_state awaiting_video)
        = (Ok tt, answered chat (Text t) (with_state awaiting_video))
        /\ (t = TNoSearchResults \/ t = TInvalidFormat \/ t = TInvalidQuality
            \/ exists videos,
                 choices (with_state awaiting_video) chat = Some videos
                 /\ t = TInvalidVideoNumber (length videos))).
Proof.
  apply (handleVideoSelection_validates working chat (Js.lit " 3   1080 ")
           (with_state awaiting_video)).
  reflexivity.
Defined.

Lemma isQuality_spec quality :
  YouTube.isQuality quality = true ->
  quality = Js.lit "480" \/ quality = Js.lit "720" \/ quality = Js.lit "1080".
Proof.
  unfold YouTube.isQuality. rewrite !orb_true_iff, !eqb_eq. tauto.
Qed.

Lemma isQuality_digits quality :
  YouTube.isQuality quality = true -> digits quality.
Proof. intros [-> | [-> | ->]]%isQuality_spec; by split. Qed.

(** What the dispatcher accepts in the state of a video search is a
    number, white space and one of the three qualities. *)
Lemma isVideoReply_spec (text : jsstring) :
  Bot.isVideoReply text = true ->
  exists number gap quality,
    text = number ++ gap ++ quality
    /\ digits number /\ blanks gap /\ YouTube.isQuality quality = true.
Proof.
  unfold Bot.isVideoReply, Bot.digits1.
  destruct (Js.span Js.isDigit text) as [a r] eqn:Hspan.
  apply span_spec in Hspan as (-> & Ha & _).
  destruct a as [|c a]; [done|]. unfold Js.spaces1.
  destruct (Js.span Js.isSpace r) as [g q] eqn:Hgap.
  apply span_spec in Hgap as (-> & Hg & _).
  destruct g as [|y g]; [done|]. intros Hq.
  exists (c :: a), (y :: g), q. by repeat split.
Qed.

(** X16: a reply that the dispatcher accepts in the state of a video
    search is a number, white space and a quality, so with cached results
    the handler never answers that the format or the quality is invalid:
    it starts the download of the result with that number, or, when the
    number is 0 or beyond the results, answers only that the number is
    invalid. *)
Theorem accepted_video_reply (E : environment) (remoteJid text : jsstring)
    (w : world) (videos : list item) :
  Bot.isVideoReply text = true ->
  choices w remoteJid = Some videos ->
  send_faults w = [] ->
  exists number gap quality,
    text = number ++ gap ++ quality
    /\ digits number /\ blanks gap /\ YouTube.isQuality quality = true
    /\ (forall i video,
          Js.decimal number = Z.of_nat i + 1 -> videos !! i = Some video ->
          YouTube.handleVideoSelection E remoteJid text w
          = YouTube.downloadAndSendVideo E remoteJid video quality w)
    /\ (Js.decimal number = 0 \/ Z.of_nat (length videos) < Js.decimal number ->
        YouTube.handleVideoSelection E remoteJid text w
        = (Ok tt,
           answered remoteJid (Text (TInvalidVideoNumber (length videos))) w)).
Proof.
  intros Hreply Hvideos Hf.
  destruct (isVideoReply_spec text Hreply)
    as (number & gap & quality & -> & Hn & Hg & Hq).
  exists number, gap, quality. do 4 (split; [done|]).
  pose proof (isQuality_digits quality Hq) as Hqd.
  unfold YouTube.handleVideoSelection, choices in *.
  rewrite !bind_gets.
  destruct (userStates w !! remoteJid) as [userState|]; [|done].
  rewrite Hvideos, trim_two, split_ws_two, parseInt_digits, Hq by done.
  cbn [option_map negb]. unfold YouTube.validIndex. split.
  - intros i video -> Hv.
    replace (Z.of_nat i + 1 - 1) with (Z.of_nat i) by lia.
    rewrite Nat2Z.id, Hv. apply lookup_lt_Some in Hv.
    assert ((Z.of_nat i <? 0) = false) as -> by lia.
    assert ((Z.of_nat i >=? Z.of_nat (length videos)) = false) as -> by lia.
    done.
  - intros [-> | Hlarge]; [by apply refuse_run|].
    assert ((Js.decimal number - 1 >=? Z.of_nat (length videos)) = true)
      as -> by lia.
    rewrite andb_false_r. by apply refuse_run.
Qed.

Lemma accepted_video_reply_witness :
  exists number gap quality,
    Js.lit "0 480" = number ++ gap ++ quality
    /\ digits number /\ blanks gap /\ YouTube.isQuality quality = true
    /\ (forall i video,
          Js.decimal number = Z.of_nat i + 1 ->
          three_videos !! i = Some video ->
          YouTube.handleVideoSelection working chat (Js.lit "0 480")
            (with_state awaiting_video)
          = YouTube.downloadAndSendVideo working chat video quality
              (with_state awaiting_video))
    /\ (Js.decimal number = 0
        \/ Z.of_nat (length three_videos) < Js.decimal number ->
        YouTube.handleVideoSelection working chat (Js.lit "0 480")
          (with_state awaiting_video)
        = (Ok tt,
           answered chat (Text (TInvalidVideoNumber (length three_videos)))
             (with_state awaiting_video))).
Proof.
  apply (accepted_video_reply working chat (Js.lit "0 480")
           (with_state awaiting_video) three_videos); reflexivity.
Defined.

(** ** From the choice of a channel to the choice of a video *)

Lemma handleChannelSelection_states E remoteJid selection w userState
    channels i channel :
  userStates w !! remoteJid = Some userState ->
  state userState = Js.lit "channel_search_results" ->
  searchResults userState = Some channels ->
  Js.parseInt (hd [] (Js.split_ws (Js.trim selection)))
    = Some (Z.of_nat i + 1) ->
  channels !! i = Some channel ->
  send_faults w = [] ->
  userStates (snd (YouTube.handleChannelSelection E remoteJid selection w))
  = match channelLatestVideos E (id channel)
            (YouTube.videoCountOf (Js.split_ws (Js.trim selection))) with
    | Some (video :: more) =>
        userStates
          (YouTube.with_channel_videos remoteJid (video :: more) channel w)
    | _ => userStates w
    end.
Proof.
  intros Hstate Hname Hresults Hparse Hchannel Hf.
  set (count := YouTube.videoCountOf (Js.split_ws (Js.trim selection))).
  set (target := match channelLatestVideos E (id channel) count with
                 | Some (video :: more) =>
                     userStates
                       (YouTube.with_channel_videos remoteJid (video :: more)
                          channel w)
                 | _ => userStates w
                 end).
  unfold YouTube.handleChannelSelection.
  rewrite bind_gets, Hstate, Hname, Hresults.
  rewrite (proj2 (eqb_eq _ _) eq_refl). cbn [negb].
  rewrite Hparse. cbn [option_map]. unfold YouTube.validIndex.
  assert (Hi : (i < length channels)%nat) by (by eapply lookup_lt_Some).
  replace (Z.of_nat i + 1 - 1 <? 0) with false by lia.
  replace (Z.of_nat i + 1 - 1 >=? Z.of_nat (length channels)) with false
    by lia.
  cbn [negb andb].
  replace (Z.to_nat (Z.of_nat i + 1 - 1)) with i by lia.
  rewrite Hchannel. fold count.
  set (P := fun s : world =>
              send_faults s = [] /\ userStates s = userStates w).
  apply (leads_try_catch P (fieldIs userStates target)
           (fieldIs userStates target)); [|auto| |done].
  2:{ intros e. apply keeps_leads; [frame userStates_quiet|auto]. }
  apply (succeeds_leads P (fun _ => P)).
  { intros s [Hs Hu]. rewrite sendPresenceUpdate_healthy by done.
    by exists tt. }
  intros _.
  apply (succeeds_leads P (fun _ => P)).
  { intros s [Hs Hu]. rewrite sendMessage_works by done. by eexists. }
  intros _.
  apply (succeeds_leads P
           (fun a s => a = channelLatestVideos E (id channel) count /\ P s)).
  { intros s Hs. by eexists. }
  intros videosResult s [-> [Hs Hu]]. subst target.
  pose proof (sendChannelLatestVideos_keeps userStates userStates_quiet) as Hk.
  destruct (channelLatestVideos E (id channel) count) as [[|video more]|].
  - apply (keeps_bind (fieldIs userStates (userStates w))); [|intros ?|done].
    all: frame userStates_quiet.
  - set (T := userStates
                (YouTube.with_channel_videos remoteJid (video :: more)
                   channel w)).
    assert (Hrun : leads (fun s' => userStates s' = userStates w)
              ((modify (YouTube.with_channel_videos remoteJid (video :: more)
                          channel) ;;;
                YouTube.sendChannelLatestVideos E remoteJid (video :: more)
                  (title channel) count) ;;;
               sendPresenceUpdate)
              (fieldIs userStates T)); [|by apply Hrun].
    apply (leads_bind _ (fieldIs userStates T)); [|auto|].
    + intros s1 Hs1. unfold bind at 1. unfold modify. cbn [fst snd].
      apply Hk. unfold fieldIs, T. cbn. by rewrite Hs1.
    + intros ?. apply keeps_leads; [frame userStates_quiet|auto].
  - apply (keeps_bind (fieldIs userStates (userStates w))); [|intros ?|done].
    all: frame userStates_quiet.
Qed.

Lemma handleVideoSelection_chosen E remoteJid w videos number gap quality i
    video :
  choices w remoteJid = Some videos ->
  digits number -> blanks gap -> YouTube.isQuality quality = true ->
  Js.decimal number = Z.of_nat i + 1 -> videos !! i = Some video ->
  YouTube.handleVideoSelection E remoteJid (number ++ gap ++ quality) w
  = YouTube.downloadAndSendVideo E remoteJid video quality w.
Proof.
  intros Hvideos Hn Hg Hq Hi Hv.
  pose proof (isQuality_digits quality Hq) as Hqd.
  unfold YouTube.handleVideoSelection, choices in *.
  rewrite !bind_gets.
  destruct (userStates w !! remoteJid) as [userState|]; [|done].
  rewrite Hvideos, trim_two, split_ws_two, parseInt_digits, Hq, Hi by done.
  cbn [option_map negb]. unfold YouTube.validIndex.
  replace (Z.of_nat i + 1 - 1) with (Z.of_nat i) by lia.
  rewrite Nat2Z.id, Hv. apply lookup_lt_Some in Hv.
  assert ((Z.of_nat i <? 0) = false) as -> by lia.
  assert ((Z.of_nat i >=? Z.of_nat (length videos)) = false) as -> by lia.
  done.
Qed.

Lemma isVideoReply_form (number gap quality : jsstring) :
  digits number -> blanks gap -> YouTube.isQuality quality = true ->
  Bot.isVideoReply (number ++ gap ++ quality) = true.
Proof.
  intros Hn [Hg1 Hg2] Hq. unfold Bot.isVideoReply.
  destruct gap as [|g gap]; [done|].
  rewrite digits1_app; [|done|].
  2:{ simpl in *. apply andb_true_iff in Hg2 as [Hg _].
      by apply space_not_digit. }
  change ((g :: gap) ++ quality) with (g :: (gap ++ quality)).
  change (g :: (gap ++ quality)) with ((g :: gap) ++ quality).
  unfold Js.spaces1. rewrite span_app; [|done|].
  2:{ destruct (isQuality_digits quality Hq) as [Hs1 Hs2].
      destruct quality as [|c quality]; [done|].
      simpl in Hs2. apply andb_true_iff in Hs2 as [Hc _].
      by apply digit_not_space. }
  done.
Qed.

(** X17: after a valid choice of a channel on a working transport, when
    the API returns at least one video, the conversation is in the state
    [channel_videos_results] with exactly these videos; a following reply
    of a number, white space and a quality is then dispatched to the
    download of the video with that number among them. *)
Theorem channel_then_video (E : environment) (H : Bot.handlers)
    (remoteJid selection : jsstring) (w : world) (userState : userState)
    (channels : list item) (i : nat) (channel video : item)
    (more : list item) :
  userStates w !! remoteJid = Some userState ->
  state userState = Js.lit "channel_search_results" ->
  searchResults userState = Some channels ->
  Js.parseInt (hd [] (Js.split_ws (Js.trim selection)))
    = Some (Z.of_nat i + 1) ->
  channels !! i = Some channel ->
  send_faults w = [] ->
  channelLatestVideos E (id channel)
    (YouTube.videoCountOf (Js.split_ws (Js.trim selection)))
    = Some (video :: more) ->
  userStates (snd (YouTube.handleChannelSelection E remoteJid selection w))
  = <[remoteJid := channel_videos (video :: more) channel]> (userStates w)
  /\ forall number gap quality j chosen,
       digits number -> blanks gap -> YouTube.isQuality quality = true ->
       Js.decimal number = Z.of_nat j + 1 ->
       (video :: more) !! j = Some chosen ->
       Bot.dispatch E H remoteJid (number ++ gap ++ quality)
         (channel_videos (video :: more) channel)
         (snd (YouTube.handleChannelSelection E remoteJid selection w))
       = (YouTube.downloadAndSendVideo E remoteJid chosen quality ;;;
          ret true)
           (snd (YouTube.handleChannelSelection E remoteJid selection w)).
Proof.
  intros Hstate Hname Hresults Hparse Hchannel Hf Hvideos.
  pose proof (handleChannelSelection_states E remoteJid selection w userState
                channels i channel Hstate Hname Hresults Hparse Hchannel Hf)
    as Hafter.
  rewrite Hvideos in Hafter.
  change (userStates (YouTube.with_channel_videos remoteJid (video :: more)
                        channel w))
    with (<[remoteJid := channel_videos (video :: more) channel]>
            (userStates w)) in Hafter.
  split; [exact Hafter|].
  intros number gap quality j chosen Hn Hg Hq Hj Hchosen.
  unfold Bot.dispatch.
  replace (Bot.stateIs (channel_videos (video :: more) channel)) with
    (fun name => Js.eqb (Js.lit "channel_videos_results") (Js.lit name))
    by reflexivity.
  cbv beta. 
  change (Js.eqb (Js.lit "channel_videos_results") (Js.lit "selecting_file"))
    with false.
  change (Js.eqb (Js.lit "channel_videos_results")
            (Js.lit "confirming_delete")) with false.
  change (Js.eqb (Js.lit "channel_videos_results")
            (Js.lit "video_search_results")) with false.
  change (Js.eqb (Js.lit "channel_videos_results")
            (Js.lit "channel_search_results")) with false.
  change (Js.eqb (Js.lit "channel_videos_results")
            (Js.lit "channel_videos_results")) with true.
  cbv iota. rewrite isVideoReply_form by done.
  unfold bind.
  rewrite (handleVideoSelection_chosen E remoteJid _ (video :: more) number
             gap quality j chosen); try done.
  unfold choices. rewrite Hafter. by rewrite lookup_insert_eq.
Qed.

Lemma channel_then_video_witness :
  userStates (snd (YouTube.handleChannelSelection working chat (Js.lit "2")
                     (with_state awaiting_channel)))
  = <[chat := channel_videos three_videos (video "b")]>
      (userStates (with_state awaiting_channel))
  /\ forall number gap quality j chosen,
       digits number -> blanks gap -> YouTube.isQuality quality = true ->
       Js.decimal number = Z.of_nat j + 1 ->
       three_videos !! j = Some chosen ->
       Bot.dispatch working other_handlers chat (number ++ gap ++ quality)
         (channel_videos three_videos (video "b"))
         (snd (YouTube.handleChannelSelection working chat (Js.lit "2")
                 (with_state awaiting_channel)))
       = (YouTube.downloadAndSendVideo working chat chosen quality ;;;
          ret true)
           (snd (YouTube.handleChannelSelection working chat (Js.lit "2")
                   (with_state awaiting_channel))).
Proof.
  apply (channel_then_video working other_handlers chat (Js.lit "2")
           (with_state awaiting_channel) awaiting_channel three_videos 1
           (video "b") (video "a") [video "b"; video "c"]);
    reflexivity.
Defined.

(** X18: after a valid choice of a channel on a working transport, when
    the API fails or returns no video, the handler returns after two
    messages, the announcement and the failure notice, and the
    conversation stays in the state of the channel search. *)
Theorem channel_selection_without_videos (E : environment)
    (remoteJid selection : jsstring) (w : world) (userState : userState)
    (channels : list item) (i : nat) (channel : item) :
  userStates w !! remoteJid = Some userState ->
  state userState = Js.lit "channel_search_results" ->
  searchResults userState = Some channels ->
  Js.parseInt (hd [] (Js.split_ws (Js.trim selection)))
    = Some (Z.of_nat i + 1) ->
  channels !! i = Some channel ->
  send_faults w = [] ->
  (channelLatestVideos E (id channel)
     (YouTube.videoCountOf (Js.split_ws (Js.trim selection))) = None
   \/ channelLatestVideos E (id channel)
        (YouTube.videoCountOf (Js.split_ws (Js.trim selection))) = Some []) ->
  exists w',
    YouTube.handleChannelSelection E remoteJid selection w = (Ok tt, w')
    /\ userStates w' = userStates w
    /\ delivered w'
       = delivered w
         ++ keyed remoteJid (next_key w)
              [Text (TGettingLatest
                       (YouTube.videoCountOf (Js.split_ws (Js.trim selection)))
                       (title channel));
               Text (TFailedToGetVideos (title channel))].
Proof.
  intros Hstate Hname Hresults Hparse Hchannel Hf Hvideos.
  unfold YouTube.handleChannelSelection.
  rewrite bind_gets, Hstate, Hname, Hresults.
  rewrite (proj2 (eqb_eq _ _) eq_refl). cbn [negb].
  rewrite Hparse. cbn [option_map]. unfold YouTube.validIndex.
  assert (Hi : (i < length channels)%nat) by (by eapply lookup_lt_Some).
  replace (Z.of_nat i + 1 - 1 <? 0) with false by lia.
  replace (Z.of_nat i + 1 - 1 >=? Z.of_nat (length channels)) with false
    by lia.
  cbn [negb andb].
  replace (Z.to_nat (Z.of_nat i + 1 - 1)) with i by lia.
  rewrite Hchannel. unfold try_catch.
  unfold bind at 1. rewrite sendPresenceUpdate_healthy by done.
  unfold bind at 1. rewrite sendMessage_works by done.
  unfold bind at 1. unfold YouTube.getChannelLatestVideos.
  unfold bind at 2. unfold record_call, modify, ret. cbn [fst snd].
  destruct Hvideos as [-> | ->].
  - unfold bind at 1. unfold bind at 1.
    rewrite sendMessage_works by done. cbn [fst snd].
    rewrite sendPresenceUpdate_healthy by done.
    eexists. split; [reflexivity|]. split; [done|].
    cbn. by rewrite <- app_assoc.
  - unfold bind at 1. unfold bind at 1.
    rewrite sendMessage_works by done. cbn [fst snd].
    rewrite sendPresenceUpdate_healthy by done.
    eexists. split; [reflexivity|]. split; [done|].
    cbn. by rewrite <- app_assoc.
Qed.

Lemma channel_selection_without_videos_witness :
  exists w',
    YouTube.handleChannelSelection without_videos chat (Js.lit "2 5")
      (with_state awaiting_channel) = (Ok tt, w')
    /\ userStates w' = userStates (with_state awaiting_channel)
    /\ delivered w'
       = delivered (with_state awaiting_channel)
         ++ keyed chat (next_key (with_state awaiting_channel))
              [Text (TGettingLatest
                       (YouTube.videoCountOf
                          (Js.split_ws (Js.trim (Js.lit "2 5"))))
                       (title (video "b")));
               Text (TFailedToGetVideos (title (video "b")))].
Proof.
  apply (channel_selection_without_videos without_videos chat (Js.lit "2 5")
           (with_state awaiting_channel) awaiting_channel three_videos 1
           (video "b")); try reflexivity.
  by right.
Defined.

(** ** The standard tracker: its registration and its counts *)

Lemma activeDownloads_quiet : quiet_field activeDownloads.
Proof. split; reflexivity. Qed.

Lemma start_run t w :
  Progress.start (t, w)
  = match sendMessage (Progress.remoteJid t)
            (Text (TStarting (Progress.itemType t) (Progress.totalItems t)))
            w with
    | (Ok _, w') =>
        (Ok tt,
         (Progress.with_interval true t,
          set_activeDownloads (fun ds => ds ++ [Progress.sessionId t]) w'))
    | (Throw e, w') => (Throw e, (t, w'))
    | (Pending, w') => (Pending, (t, w'))
    end.
Proof.
  unfold Progress.start, this, bind, gets, onWorld, set_this, modify.
  cbn [fst snd]. by destruct (sendMessage _ _ w) as [[?|?|] ?].
Qed.

Lemma start_registers t w :
  (exists w', Progress.start (t, w) = (Throw TransportError, (t, w'))
              /\ activeDownloads w' = activeDownloads w)
  \/ (exists w', Progress.start (t, w)
                 = (Ok tt, (Progress.with_interval true t, w'))
                 /\ activeDownloads w'
                    = activeDownloads w ++ [Progress.sessionId t]).
Proof.
  rewrite start_run.
  destruct (sendMessage_text_cases (Progress.remoteJid t)
              (TStarting (Progress.itemType t) (Progress.totalItems t)) w)
    as [[sf ->]|[sf ->]].
  - left. by eexists.
  - right. by eexists.
Qed.

Lemma finish_deregisters now t w :
  activeDownloads (snd (snd (Progress.finish now (t, w))))
  = filter (fun sid => sid <> Progress.sessionId t) (activeDownloads w)
  /\ Progress.progressInterval (fst (snd (Progress.finish now (t, w)))) = false.
Proof.
  remember (Progress.finish now (t, w)) as run eqn:Hr. revert Hr.
  unfold Progress.finish. unfold bind at 1. unfold set_this at 1, modify.
  cbn [fst snd]. unfold this. rewrite bind_gets. cbn [fst snd].
  unfold bind at 1. unfold onWorld at 1, modify. cbn [fst snd].
  set (w1 := set_activeDownloads _ w).
  set (t1 := Progress.with_interval false t).
  set (rest := bind _ _).
  assert (Hkeep : keeps (fun s : Progress.ProgressTracker * world =>
                           activeDownloads (snd s) = activeDownloads w1
                           /\ fst s = t1) rest).
  { subst rest. 
    assert (Hsend : forall j c,
              keeps (fun s : Progress.ProgressTracker * world =>
                       activeDownloads (snd s) = activeDownloads w1
                       /\ fst s = t1)
                (onWorld (sendMessage j c))).
    { intros j c [t' w'] [Ha Ht]. cbn [fst snd] in *. unfold onWorld.
      cbn [fst snd].
      pose proof (keeps_sendMessage activeDownloads activeDownloads_quiet
                    (activeDownloads w1) j c w' Ha) as Hk.
      destruct (sendMessage j c w') as [r w'']. by split. }
    apply keeps_bind; [|intros ?].
    - destruct (Progress.lastProgressMessageId _); [|apply keeps_ret].
      apply keeps_try_catch; [|intros ?; apply keeps_ret].
      apply keeps_bind; [apply Hsend|intros ?; apply keeps_ret].
    - apply keeps_bind; [apply Hsend|intros ?; apply keeps_ret]. }
  destruct (Hkeep (t1, w1)) as [Ha Ht]; [done|].
  intros ->. by rewrite Ha, Ht.
Qed.

Lemma filter_absent {A} `{EqDecision A} (x : A) (l : list A) :
  x ∉ l -> filter (fun y => y <> x) l = l.
Proof.
  induction l as [|y l IH]; [done|]. intros Hx.
  apply not_elem_of_cons in Hx as [Hxy Hx].
  rewrite filter_cons. destruct (decide (y <> x)); [|done].
  by rewrite IH.
Qed.

(** X19: the registry of active downloads.  [start] of the standard
    tracker registers the session only when its message went out: a
    rejected send registers nothing.  [finish] removes the session and
    stops the timer before it sends anything, so the session is gone
    even when [finish] throws; a [start] followed by [finish] leaves the
    registry as it was. *)
Theorem registration_round_trip (now : Z) (t : Progress.ProgressTracker)
    (w : world) :
  Progress.sessionId t ∉ activeDownloads w ->
  (fst (Progress.start (t, w)) = Ok tt ->
   activeDownloads (snd (snd (Progress.start (t, w))))
   = activeDownloads w ++ [Progress.sessionId t])
  /\ (fst (Progress.start (t, w)) <> Ok tt ->
      snd (Progress.start (t, w)) = (t, snd (snd (Progress.start (t, w))))
      /\ activeDownloads (snd (snd (Progress.start (t, w))))
         = activeDownloads w)
  /\ activeDownloads
       (snd (snd ((Progress.start ;;; Progress.finish now) (t, w))))
     = activeDownloads w
  /\ (Progress.sessionId t
        ∉ activeDownloads (snd (snd (Progress.finish now (t, w)))))
  /\ Progress.progressInterval (fst (snd (Progress.finish now (t, w))))
     = false.
Proof.
  intros Hnew.
  destruct (finish_deregisters now t w) as [Hgone Hstopped].
  split; [|split; [|split; [|split]]].
  - destruct (start_registers t w) as [(w' & -> & Ha)|(w' & -> & Ha)];
      [discriminate|done].
  - destruct (start_registers t w) as [(w' & -> & Ha)|(w' & -> & Ha)];
      [done|by intros []].
  - unfold bind.
    destruct (start_registers t w) as [(w' & -> & Ha)|(w' & -> & Ha)];
      [done|].
    destruct (finish_deregisters now (Progress.with_interval true t) w')
      as [-> _].
    cbn [Progress.sessionId Progress.with_interval]. rewrite Ha.
    rewrite filter_app, filter_absent by done.
    rewrite filter_cons, filter_nil.
    destruct (decide _); [done|by rewrite app_nil_r].
  - rewrite Hgone. intros Hin%list_elem_of_filter. by destruct Hin.
  - exact Hstopped.
Qed.

Lemma registration_round_trip_witness :
  (fst (Progress.start (episode_tracker, send_fails)) = Ok tt ->
   activeDownloads (snd (snd (Progress.start (episode_tracker, send_fails))))
   = activeDownloads send_fails ++ [Progress.sessionId episode_tracker])
  /\ (fst (Progress.start (episode_tracker, send_fails)) <> Ok tt ->
      snd (Progress.start (episode_tracker, send_fails))
      = (episode_tracker,
         snd (snd (Progress.start (episode_tracker, send_fails))))
      /\ activeDownloads
           (snd (snd (Progress.start (episode_tracker, send_fails))))
         = activeDownloads send_fails)
  /\ activeDownloads
       (snd (snd ((Progress.start ;;; Progress.finish 61000)
                    (episode_tracker, send_fails))))
     = activeDownloads send_fails
  /\ (Progress.sessionId episode_tracker
        ∉ activeDownloads
            (snd (snd (Progress.finish 61000 (episode_tracker, send_fails)))))
  /\ Progress.progressInterval
       (fst (snd (Progress.finish 61000 (episode_tracker, send_fails))))
     = false.
Proof.
  apply (registration_round_trip 61000 episode_tracker send_fails).
  apply not_elem_of_nil.
Defined.

(** A progress update leaves the tracker as it was or records the
    message it sent. *)
Lemma sendProgressUpdate_tracker file t w :
  fst (snd (Progress.sendProgressUpdate file (t, w))) = t
  \/ exists key progressText pct,
       fst (snd (Progress.sendProgressUpdate file (t, w)))
       = Progress.with_sent key progressText pct t.
Proof.
  remember (Progress.sendProgressUpdate file (t, w)) as run eqn:Hr.
  revert Hr.
  unfold Progress.sendProgressUpdate, this. unfold try_catch at 1.
  rewrite bind_gets. cbn [fst].
  destruct (Progress.currentSample file t) as [data|]; [|intros ->; by left].
  destruct (Qeq_bool _ _); [intros ->; by left|].
  destruct (_ && _); [intros ->; by left|].
  unfold bind at 1.
  set (w1 := match Progress.lastProgressMessageId t with
             | Some key =>
                 snd (sendMessage (Progress.remoteJid t) (Delete key) w)
             | None => w
             end).
  assert (Hdel : (match Progress.lastProgressMessageId t with
                  | Some key =>
                      try_catch
                        (_ <- onWorld (sendMessage (Progress.remoteJid t)
                                         (Delete key)) ;; ret tt)
                        (fun _ => ret tt)
                  | None => ret tt
                  end) (t, w) = (Ok tt, (t, w1))).
  { subst w1. destruct (Progress.lastProgressMessageId t) as [key|]; [|done].
    unfold try_catch, bind, onWorld, ret. cbn [fst snd].
    pose proof (sendMessage_delete_finite (Progress.remoteJid t) key w).
    by destruct (sendMessage _ (Delete key) w) as [[?|?|] ?]. }
  rewrite Hdel. unfold bind, onWorld, set_this, modify, console_log.
  cbn [fst snd].
  destruct (sendMessage_text_cases (Progress.remoteJid t)
              (TDownloading (Progress.isYouTube t) (Progress.currentItem t)
                 data) w1) as [[sf ->]|[sf ->]]; intros ->; cbn [fst snd].
  - by left.
  - right. by eexists _, _, _.
Qed.

Lemma sendProgressUpdate_idle file t w :
  Progress.currentSample file t = None ->
  Progress.sendProgressUpdate file (t, w) = (Ok tt, (t, w)).
Proof.
  intros Hnone. unfold Progress.sendProgressUpdate, try_catch, this.
  rewrite bind_gets. cbn [fst]. by rewrite Hnone.
Qed.

Lemma itemCompleted_run itemName success now file t w :
  Progress.itemCompleted itemName success now file (t, w)
  = Progress.checkAndSendProgressUpdate true now file
      (Progress.with_item itemName None
         (if success
          then Progress.with_counts (Progress.completed t + 1)
                 (Progress.failed t) t
          else Progress.with_counts (Progress.completed t)
                 (Progress.failed t + 1) t), w).
Proof. by destruct success. Qed.

(** X20: [itemCompleted] of the standard tracker returns on every
    transport; it counts the item as completed or as failed, names it as
    the current item and drops the progress session.  The update it
    forces therefore has no sample to show unless the tracker follows a
    YouTube download: otherwise nothing is sent or logged at all. *)
Theorem itemCompleted_counts (itemName : jsstring) (success : bool) (now : Z)
    (file : option (gmap jsstring sample)) (t : Progress.ProgressTracker)
    (w : world) :
  exists t' w',
    Progress.itemCompleted itemName success now file (t, w) = (Ok tt, (t', w'))
    /\ Progress.completed t'
       = Progress.completed t + (if success then 1 else 0)
    /\ Progress.failed t' = Progress.failed t + (if success then 0 else 1)
    /\ Progress.currentItem t' = Some itemName
    /\ Progress.currentSessionId t' = None
    /\ Progress.lastUpdate t' = now
    /\ (Progress.isYouTube t = false ->
        w' = w
        /\ Progress.lastProgressMessageId t' = Progress.lastProgressMessageId t).
Proof.
  rewrite itemCompleted_run. rewrite checkAndSend_open by done.
  set (t1 := Progress.with_item _ _ _).
  eexists _, _. split; [reflexivity|].
  assert (Hcounts : Progress.completed t1
                    = Progress.completed t + (if success then 1 else 0)
                    /\ Progress.failed t1
                       = Progress.failed t + (if success then 0 else 1)
                    /\ Progress.currentItem t1 = Some itemName
                    /\ Progress.currentSessionId t1 = None
                    /\ Progress.isYouTube t1 = Progress.isYouTube t
                    /\ Progress.lastProgressMessageId t1
                       = Progress.lastProgressMessageId t).
  { subst t1. destruct success; cbn; repeat split; lia. }
  destruct Hcounts as (Hc & Hf & Hi & Hs & Hy & Hm).
  assert (Hquiet : Progress.isYouTube t = false ->
                   Progress.sendProgressUpdate file (t1, w) = (Ok tt, (t1, w))).
  { intros Hno. apply sendProgressUpdate_idle. unfold Progress.currentSample.
    by rewrite Hy, Hno, Hs. }
  destruct (Progress.isYouTube t) eqn:Hyt.
  - destruct (sendProgressUpdate_tracker file t1 w)
      as [->|(key & progressText & pct & ->)]; by do 5 (split; [done|]).
  - rewrite (Hquiet eq_refl). cbn [fst snd].
    do 5 (split; [done|]). intros _. by split.
Qed.

(** ** The message handler *)

Lemma try_catch_never_throws (m : M world unit)
    (entry : exn -> console_entry) w e :
  fst (try_catch m (fun error => console_log (entry error)) w) <> Throw e.
Proof.
  unfold try_catch. by destruct (m w) as [[?|?|] ?].
Qed.

Lemma trim_spaces (s : jsstring) :
  forallb Js.isSpace s = true -> Js.trim s = [].
Proof.
  intros Hs. unfold Js.trim, Js.trimEnd, Js.trimStart.
  by rewrite (span_all _ _ Hs).
Qed.

(** X21: [messagesUpsertHandler] throws only for a notification without
    its list of messages, without a first message, or whose first message
    has a body and no key: these are read before the [try], the
    [TypeError] leaves the handler, and the world stays as it was.  For an
    event that has a first message with its key it never throws, whatever
    the handlers and the transport do: an error of a handler is caught and
    logged.  Such an event that is not a notification, has no message
    body, comes from the bot itself or has only white space as its text is
    ignored: the world stays as it was, and the chat is not even saved. *)
Theorem messagesUpsertHandler_contains_errors (E : environment)
    (H : Bot.handlers) (e : Events.event) (m : Bot.upsert) (w : world) :
  (forall error,
     fst (Events.messagesUpsertHandler E H e w) = Throw error ->
     e = Events.NoMessages true \/ e = Events.NoFirstMessage true
     \/ e = Events.NoKey true true)
  /\ Events.messagesUpsertHandler E H (Events.NoMessages true) w
     = (Throw (Events.typeError "0"), w)
  /\ Events.messagesUpsertHandler E H (Events.NoFirstMessage true) w
     = (Throw (Events.typeError "message"), w)
  /\ Events.messagesUpsertHandler E H (Events.NoKey true true) w
     = (Throw (Events.typeError "remoteJid"), w)
  /\ (forall error,
        fst (Events.messagesUpsertHandler E H (Events.WithFirstMessage m) w)
        <> Throw error)
  /\ (Bot.notify m = false \/ Bot.hasMessage m = false \/ Bot.fromMe m = true
      \/ forallb Js.isSpace (Bot.messageText m) = true ->
      Events.messagesUpsertHandler E H (Events.WithFirstMessage m) w
      = (Ok tt, w))
  /\ (forall error w',
        Bot.notify m = true -> Bot.hasMessage m = true ->
        Bot.fromMe m = false ->
        Js.startsWith (Js.lit "/") (Js.trim (Bot.messageText m)) = true ->
        Bot.handleCommand H (Bot.remoteJid m) (Js.trim (Bot.messageText m))
          (snd (record_call (AddSavedChat (Bot.remoteJid m)) w))
        = (Throw error, w') ->
        Events.messagesUpsertHandler E H (Events.WithFirstMessage m) w
        = (Ok tt, snd (console_log (ErrorProcessingMessage error) w'))).
Proof.
  assert (Hbody : forall error,
            fst (Bot.messagesUpsertHandler E H m w) <> Throw error).
  { intros error. unfold Bot.messagesUpsertHandler.
    destruct (Bot.notify m); [|done]. destruct (Bot.hasMessage m); [|done].
    destruct (Bot.fromMe m); [done|]. cbn [negb].
    apply try_catch_never_throws. }
  split; [|do 3 (split; [done|]); split; [exact Hbody|split]].
  - intros error. destruct e as [[]|[]|[] []|m']; try done; [by left|auto..|].
    cbn [Events.messagesUpsertHandler]. unfold Bot.messagesUpsertHandler.
    destruct (Bot.notify m'); [|done]. destruct (Bot.hasMessage m'); [|done].
    destruct (Bot.fromMe m'); [done|]. cbn [negb].
    intros Hthrow. by apply try_catch_never_throws in Hthrow.
  - intros Hignored. cbn [Events.messagesUpsertHandler].
    unfold Bot.messagesUpsertHandler.
    destruct (Bot.notify m); [|done]. destruct (Bot.hasMessage m); [|done].
    destruct (Bot.fromMe m); [done|]. cbn [negb].
    destruct Hignored as [?|[?|[?|Hblank]]]; try done.
    by rewrite (trim_spaces _ Hblank).
  - intros error w' Hn Hb Hme Hslash Hthrows.
    cbn [Events.messagesUpsertHandler]. unfold Bot.messagesUpsertHandler.
    rewrite Hn, Hb, Hme. cbn [negb]. unfold try_catch.
    destruct (Js.trim (Bot.messageText m)) as [|c r] eqn:Htrim; [done|].
    cbn [Js.truthy negb]. unfold bind at 1.
    unfold record_call at 1, modify at 1. rewrite Hslash.
    unfold record_call, modify in Hthrows. cbn [snd] in Hthrows.
    by rewrite Hthrows.
Qed.

Lemma messagesUpsertHandler_contains_errors_witness :
  Events.messagesUpsertHandler working failing_handlers
    (Events.WithFirstMessage (reply " /ys cats ")) quiet
  = (Ok tt,
     snd (console_log (ErrorProcessingMessage (JsError (Js.lit "ENOENT")))
            (snd (record_call (AddSavedChat chat) quiet)))).
Proof.
  apply (proj2 (proj2 (proj2 (proj2 (proj2 (proj2
           (messagesUpsertHandler_contains_errors working failing_handlers
              (Events.NoKey true true) (reply " /ys cats ") quiet)))))));
    reflexivity.
Defined.

Lemma dispatch_unexpected E H remoteJid trimmedText u w :
  unexpected (Some u) trimmedText ->
  Bot.dispatch E H remoteJid trimmedText u w = (Ok false, w).
Proof.
  unfold unexpected, Bot.dispatch, Bot.stateIs.
  intros [[[-> | ->] ->] | [-> ->]]; reflexivity.
Qed.

(** X22: a text that is not a command and that the dispatcher does not
    take as a reply (the chat has no state, or the text does not have the
    form awaited in its state of a video or channel search) is answered,
    on a working transport, with the default reply and nothing else: the
    chat is saved, and the state of the conversation stays. *)
Theorem unexpected_text_default_reply (E : environment) (H : Bot.handlers)
    (m : Bot.upsert) (w : world) :
  Bot.notify m = true -> Bot.hasMessage m = true -> Bot.fromMe m = false ->
  Js.truthy (Js.trim (Bot.messageText m)) = true ->
  Js.startsWith (Js.lit "/") (Js.trim (Bot.messageText m)) = false ->
  unexpected (userStates w !! Bot.remoteJid m) (Js.trim (Bot.messageText m)) ->
  send_faults w = [] ->
  Bot.messagesUpsertHandler E H m w
  = (Ok tt,
     answered (Bot.remoteJid m) (Text TDefaultAutoReply)
       (snd (record_call (AddSavedChat (Bot.remoteJid m)) w))).
Proof.
  intros Hn Hb Hme Htext Hslash Hun Hf. unfold Bot.messagesUpsertHandler.
  rewrite Hn, Hb, Hme, Htext, Hslash. cbn [negb]. unfold try_catch.
  unfold bind at 1. unfold record_call at 1, modify at 1.
  rewrite bind_gets. cbn [userStates].
  set (w1 := snd (record_call (AddSavedChat (Bot.remoteJid m)) w)).
  unfold bind at 1.
  destruct (userStates w !! Bot.remoteJid m) as [u|] eqn:Hu.
  - rewrite dispatch_unexpected by done.
    by rewrite refuse_run.
  - unfold ret at 1. by rewrite refuse_run.
Qed.

Lemma unexpected_text_default_reply_witness :
  Bot.messagesUpsertHandler working other_handlers (reply "2 144p")
    (with_state awaiting_video)
  = (Ok tt,
     answered chat (Text TDefaultAutoReply)
       (snd (record_call (AddSavedChat chat) (with_state awaiting_video)))).
Proof.
  apply (unexpected_text_default_reply working other_handlers
           (reply "2 144p") (with_state awaiting_video)); try reflexivity.
  left. split; [by left|reflexivity].
Defined.

(** ** Episode replies *)

Lemma digit_not_hyphen c : Js.isDigit c = true -> (c =? 45) = false.
Proof. unfold Js.isDigit. lia. Qed.

Lemma includes_hyphen_digits (s : jsstring) :
  forallb Js.isDigit s = true -> Js.includes (Js.lit "-") s = false.
Proof.
  induction s as [|c s IH]; [done|]. intros Hs.
  simpl in Hs. apply andb_true_iff in Hs as [Hc Hs].
  cbn [Js.includes]. rewrite IH by done.
  change (Js.lit "-") with [45]. cbn [Js.startsWith].
  rewrite Z.eqb_sym. by rewrite digit_not_hyphen.
Qed.

Lemma includes_hyphen_range (a b : jsstring) :
  Js.includes (Js.lit "-") (a ++ 45 :: b) = true.
Proof.
  apply (includes_suffix _ (45 :: b)); [by exists a|done].
Qed.

Lemma split_hyphen_digits (a r cur : jsstring) :
  forallb Js.isDigit a = true ->
  Js.split_char_from 45 cur (a ++ r) = Js.split_char_from 45 (rev a ++ cur) r.
Proof.
  revert cur. induction a as [|c a IH]; intros cur Ha; [done|].
  simpl in Ha. apply andb_true_iff in Ha as [Hc Ha].
  simpl. rewrite digit_not_hyphen by done.
  rewrite IH by done. by rewrite <- app_assoc.
Qed.

Lemma split_hyphen_range (a b : jsstring) :
  forallb Js.isDigit a = true -> forallb Js.isDigit b = true ->
  Js.split_char 45 (a ++ 45 :: b) = [a; b].
Proof.
  intros Ha Hb. unfold Js.split_char.
  rewrite split_hyphen_digits by done. simpl.
  rewrite app_nil_r, rev_involutive.
  rewrite <- (app_nil_r b) at 1. rewrite split_hyphen_digits by done.
  simpl. by rewrite app_nil_r, rev_involutive.
Qed.

(** What the dispatcher accepts as a range is two numbers with a hyphen
    between them. *)
Lemma isRange_spec (text : jsstring) :
  Bot.isRange text = true ->
  exists a b, text = a ++ 45 :: b /\ digits a /\ digits b.
Proof.
  unfold Bot.isRange, Bot.digits1.
  destruct (Js.span Js.isDigit text) as [a r] eqn:Hspan.
  apply span_spec in Hspan as (-> & Ha & _).
  destruct a as [|c a]; [done|].
  destruct r as [|x r]; [done|].
  destruct (Z.eq_dec x 45) as [->|Hx].
  - intros Hb%isNumber_spec. exists (c :: a), r.
    split; [done|]. split; [by split|done].
  - intros H. exfalso. revert H.
    destruct x as [|p|p]; try done.
    do 6 (destruct p as [p|p|]; try done).
Qed.

(** X23: a reply that the dispatcher accepts in the state of an episode
    selection is a number or two numbers with a hyphen between them, and
    when the numbers written in it are below 2^53
    [parseEpisodeSelection] reads it as such: a number is valid exactly
    when it is the number of an available episode; a range is refused as
    malformed only when it starts after its end, and otherwise resolves to
    the available episodes of the closed interval, in ascending order, or
    to the error that there are none.  No such reply is read as
    not-a-number.  From 2^53 on the dispatcher still accepts the reply,
    but [parseInt] rounds and the loop over a range may never advance:
    this says nothing about those replies. *)
Theorem accepted_episode_reply (text : jsstring)
    (availableEpisodes : list Anime.episode) :
  Bot.isNumber text || Bot.isRange text = true ->
  Forall (fun written => Js.decimal written < 2 ^ 53) (Js.split_char 45 text) ->
  (digits text
   /\ Anime.parseEpisodeSelection text availableEpisodes
      = if bool_decide (Js.decimal text ∈ map Anime.number availableEpisodes)
        then Anime.Valid false [Js.decimal text] None
        else Anime.Invalid (Anime.EpisodeNotAvailable (Some (Js.decimal text))))
  \/ exists a b,
       text = a ++ 45 :: b /\ digits a /\ digits b
       /\ Anime.parseEpisodeSelection text availableEpisodes
          = if Js.decimal a >? Js.decimal b
            then Anime.Invalid Anime.InvalidRangeFormat
            else match filter (fun k => k ∈ map Anime.number availableEpisodes)
                         (seqZ (Js.decimal a)
                            (Js.decimal b + 1 - Js.decimal a)) with
                 | [] => Anime.Invalid
                           (Anime.NoEpisodesInRange (Js.decimal a)
                              (Js.decimal b))
                 | episodes =>
                     Anime.Valid true episodes
                       (Some (Js.decimal a, Js.decimal b))
                 end.
Proof.
  intros [Hn%isNumber_spec | (a & b & -> & Ha & Hb)%isRange_spec]%orb_true_iff _.
  - left. split; [done|]. unfold Anime.parseEpisodeSelection.
    rewrite includes_hyphen_digits by apply Hn.
    by rewrite trim_one, parseInt_digits.
  - right. exists a, b. do 3 (split; [done|]).
    unfold Anime.parseEpisodeSelection.
    rewrite includes_hyphen_range.
    rewrite split_hyphen_range by (apply Ha || apply Hb).
    cbn [map]. rewrite !trim_one, !parseInt_digits by done.
    destruct (Js.decimal a >? Js.decimal b) eqn:Hab; [done|].
    rewrite collect_range_filter. cbn [app].
    replace (Z.of_nat (Z.to_nat (Js.decimal b + 1 - Js.decimal a)))
      with (Js.decimal b + 1 - Js.decimal a) by lia.
    by destruct (filter _ _).
Qed.

Lemma accepted_episode_reply_witness :
  (digits (Js.lit "7-12")
   /\ Anime.parseEpisodeSelection (Js.lit "7-12")
        (map (fun n => {| Anime.number := n; Anime.url := [] |}) [1; 8; 9; 30])
      = if bool_decide
             (Js.decimal (Js.lit "7-12")
              ∈ map Anime.number
                  (map (fun n => {| Anime.number := n; Anime.url := [] |})
                     [1; 8; 9; 30]))
        then Anime.Valid false [Js.decimal (Js.lit "7-12")] None
        else Anime.Invalid
               (Anime.EpisodeNotAvailable (Some (Js.decimal (Js.lit "7-12")))))
  \/ exists a b,
       Js.lit "7-12" = a ++ 45 :: b /\ digits a /\ digits b
       /\ Anime.parseEpisodeSelection (Js.lit "7-12")
            (map (fun n => {| Anime.number := n; Anime.url := [] |})
               [1; 8; 9; 30])
          = if Js.decimal a >? Js.decimal b
            then Anime.Invalid Anime.InvalidRangeFormat
            else match filter
                         (fun k =>
                            k ∈ map Anime.number
                                  (map (fun n => {| Anime.number := n;
                                                    Anime.url := [] |})
                                     [1; 8; 9; 30]))
                         (seqZ (Js.decimal a)
                            (Js.decimal b + 1 - Js.decimal a)) with
                 | [] => Anime.Invalid
                           (Anime.NoEpisodesInRange (Js.decimal a)
                              (Js.decimal b))
                 | episodes =>
                     Anime.Valid true episodes
                       (Some (Js.decimal a, Js.decimal b))
                 end.
Proof.
  apply (accepted_episode_reply (Js.lit "7-12")); [reflexivity|].
  change (Js.split_char 45 (Js.lit "7-12")) with [Js.lit "7"; Js.lit "12"].
  repeat constructor.
Defined.

(** ** Calls that overlap *)

(** A call of [checkAndSendProgressUpdate] that nothing interrupts is the
    call of [Progress]. *)
Lemma uninterrupted_check (c : check) (s : Progress.ProgressTracker * world) :
  Overlap.uninterrupted 3 (Overlap.start c) s = standard_step c s.
Proof.
  destruct s as [t w]. destruct c as [forced now file].
  unfold standard_step, Overlap.start, Overlap.uninterrupted.
  cbn [force instant progressFile].
  unfold Overlap.checkAndSendProgressUpdate,
    Progress.checkAndSendProgressUpdate, this.
  rewrite !bind_gets. cbn [fst].
  destruct (forced || (now - Progress.lastUpdate t >=? 5000)); [|reflexivity].
  unfold bind at 1. rewrite sendProgressUpdate_returns.
  unfold set_this, modify. cbn [fst snd].
  remember (snd (Progress.sendProgressUpdate file (t, w))) as s1 eqn:Hs1.
  revert Hs1. unfold Progress.sendProgressUpdate, this.
  unfold try_catch at 1. rewrite bind_gets. cbn [fst].
  destruct (Progress.currentSample file t) as [data|]; [|by intros ->].
  destruct (Qeq_bool (progress data) 0); [by intros ->|].
  destruct (isSome (Progress.lastProgressMessage t) && _); [by intros ->|].
  destruct (Progress.lastProgressMessageId t) as [key|].
  - unfold ret at 1. unfold Overlap.awaitedDelete.
    cbn [Overlap.settle].
    unfold bind, try_catch, onWorld, set_this, modify, ret, Overlap.stamp,
      console_log, Overlap.awaitedPause, Overlap.awaitedSend.
    cbn [fst snd].
    destruct (sendMessage (Progress.remoteJid t) (Delete key) w)
      as [[k|e|] w1] eqn:Hdel; cbn [fst snd Overlap.settle].
    + unfold bind, try_catch, onWorld, set_this, modify, ret. cbn [fst snd].
      destruct (sendMessage _ (Text _) w1) as [[k1|e1|] w2] eqn:Hsend;
        cbn; intros ->; try done.
      exfalso. apply (f_equal fst) in Hsend. revert Hsend. apply finite_sendMessage.
    + unfold bind, try_catch, onWorld, set_this, modify, ret. cbn [fst snd].
      destruct (sendMessage _ (Text _) w1) as [[k1|e1|] w2] eqn:Hsend;
        cbn; intros ->; try done.
      exfalso. apply (f_equal fst) in Hsend. revert Hsend. apply finite_sendMessage.
    + exfalso. apply (f_equal fst) in Hdel. revert Hdel. apply finite_sendMessage.
  - unfold ret at 1. unfold Overlap.awaitedSend. cbn [Overlap.settle].
    unfold bind, try_catch, onWorld, set_this, modify, ret, Overlap.stamp,
      console_log.
    cbn [fst snd].
    destruct (sendMessage _ (Text _) w) as [[k1|e1|] w2] eqn:Hsend;
      cbn; intros ->; try done.
    exfalso. apply (f_equal fst) in Hsend. revert Hsend. apply finite_sendMessage.
Qed.

(** C7, at the input where it fails: the monitoring sweep forces an
    update of a standard tracker at 10000 ms, and the timer of the
    tracker fires 40 ms later, while the call of the sweep still awaits
    its send.  The call of the timer is not forced, but [lastUpdate] is
    only written after the await: it still holds 5000, the call passes
    the test of the timer, and both calls transmit, 40 ms apart.  When the
    first call has returned before the second starts, the second is held
    back. *)
Theorem timer_overlaps_forced_update :
  force timer_call = false
  /\ instant timer_call - instant sweep_call < 5000
  /\ transmitted
       (Overlap.run Overlap.start
          [Overlap.Starts sweep_call; Overlap.Starts timer_call;
           Overlap.Resumes 0; Overlap.Resumes 1] between_updates)
     = Some [(chat, episode_progress (10 # 1)); (chat, episode_progress (12 # 1))]
  /\ transmitted
       (Overlap.run Overlap.start
          [Overlap.Starts sweep_call; Overlap.Resumes 0;
           Overlap.Starts timer_call] between_updates)
     = Some [(chat, episode_progress (10 # 1))]
  /\ outbox (snd (run_calls standard_step [sweep_call; timer_call]
                    (Overlap.shared between_updates)))
     = [(chat, episode_progress (10 # 1))].
Proof.
  split; [reflexivity|]. split; [reflexivity|].
  split; [vm_compute; reflexivity|]. split; vm_compute; reflexivity.
Qed.

(** C8, at the input where it fails: a standard tracker of one episode
    on a transport that works, its calls made one after the other.
    [start] sends its message and does not record it, so the first update
    that has a sample, here the one of the timer at 11040 ms, deletes
    nothing: the start message and the progress message are both live,
    though no deletion has failed.  The tracker refers to the progress
    message only; [finish] deletes that one, and the start message stays
    beside the summary.  The optimized tracker records its start message,
    and its first update replaces it.  Two updates that overlap each
    leave their message live as well. *)
Theorem start_message_stays_live :
  fst (Progress.start (Progress.new chat 1 (Js.lit "episode") 1000, quiet))
    = Ok tt
  /\ Progress.lastProgressMessageId (fst started) = None
  /\ delivered (snd updated)
     = [(chat, Text (TStarting (Js.lit "episode") 1), 0%nat);
        (chat, episode_progress (10 # 1), 1%nat)]
  /\ live (snd updated) = [0%nat; 1%nat]
  /\ Progress.lastProgressMessageId (fst updated) = Some 1%nat
  /\ send_faults (snd updated) = [] /\ delete_faults (snd updated) = []
  /\ live (snd (snd (Progress.finish 61000 updated))) = [0%nat; 3%nat]
  /\ live (snd (optimized_step (3000, Music.converting)
                  (snd (Performance.start
                          (Performance.new chat 1 (Js.lit "video") 1000,
                           quiet)))))
     = [2%nat]
  /\ still_live
       (Overlap.run Overlap.start
          [Overlap.Starts sweep_call; Overlap.Starts timer_call;
           Overlap.Resumes 0; Overlap.Resumes 1] between_updates)
     = Some [0%nat; 1%nat].
Proof. vm_compute. repeat split; reflexivity. Qed.

